(** * Writer: the embedded editing engine of [src/writer.py]

    The script block returned by [get_editor_html] (history, selection
    codec, search and replace, table controller, content installation) is
    embedded as Rocq functions over an explicit editor state.  The host
    platform (DOM, fragment serializer and parser, timers, message
    handlers) is modelled only as far as the script observes it.  The
    last module embeds what the application itself computes: the list
    of recent files and the conversions between text files and
    markup. *)

From Stdlib Require Import String Ascii.
From Stdlib Require Import List ZArith NArith Lia Bool PeanoNat.
From Stdlib Require Import DecimalString.
Import ListNotations.

Set Implicit Arguments.
Set Warnings "-register-all".

(* ================================================================== *)
(** ** JavaScript strings *)

Module Js.

(** A JavaScript string is a sequence of UTF-16 code units. *)
Definition char := N.
Definition jsstring := list char.

(** Literals are written as Rocq strings and read as code units. *)
Definition js (s : string) : jsstring :=
  map N_of_ascii (list_ascii_of_string s).

(** Reading back, for code units below 256. *)
Definition show (s : jsstring) : string :=
  string_of_list_ascii (map ascii_of_N s).

Fixpoint eqb (a b : jsstring) : bool :=
  match a, b with
  | [], [] => true
  | x :: a', y :: b' => N.eqb x y && eqb a' b'
  | _, _ => false
  end.

(** [s.startsWith(p)] *)
Fixpoint startsWith (p s : jsstring) : bool :=
  match p, s with
  | [], _ => true
  | _ :: _, [] => false
  | x :: p', y :: s' => N.eqb x y && startsWith p' s'
  end.

(** Scan of [s], whose first unit sits at index [i], for [t]. *)
Fixpoint indexOfAt (t s : jsstring) (i : nat) : option nat :=
  if startsWith t s then Some i
  else match s with
       | [] => None
       | _ :: s' => indexOfAt t s' (S i)
       end.

(** [s.indexOf(t, from)]; [None] stands for [-1]. *)
Definition indexOf (t s : jsstring) (from : nat) : option nat :=
  indexOfAt t (skipn from s) (Nat.min from (length s)).

(** [s.includes(t)] *)
Definition includes (t s : jsstring) : bool :=
  match indexOf t s 0 with Some _ => true | None => false end.

(** WhiteSpace and LineTerminator code units, as [trim] and [\s] see
    them. *)
Definition isWhiteSpace (c : char) : bool :=
  existsb (N.eqb c)
    [9; 10; 11; 12; 13; 32; 160; 5760; 8232; 8233; 8239; 8287; 12288;
     65279]%N
  || (N.leb 8192 c && N.leb c 8202).

Fixpoint trimStart (s : jsstring) : jsstring :=
  match s with
  | c :: r => if isWhiteSpace c then trimStart r else s
  | [] => []
  end.

Definition trimEnd (s : jsstring) : jsstring :=
  rev (trimStart (rev s)).

(** [s.trim()] *)
Definition trim (s : jsstring) : jsstring := trimEnd (trimStart s).

(** [s.substring(a)] and [s.substring(0, a)] for [a <= s.length]. *)
Definition substringFrom (a : nat) (s : jsstring) : jsstring := skipn a s.
Definition substringTo (a : nat) (s : jsstring) : jsstring := firstn a s.

(** GetSubstitution of ECMA-262 for a pattern without capture groups:
    [$$], [$&], [$`] and [$'] are expanded, every other [$] is
    literal. *)
Fixpoint getSubstitution (matched before after tmpl : jsstring)
  : jsstring :=
  match tmpl with
  | [] => []
  | c :: r =>
      if N.eqb c 36 then
        match r with
        | d :: r' =>
            if N.eqb d 36 then 36%N :: getSubstitution matched before after r'
            else if N.eqb d 38 then
              matched ++ getSubstitution matched before after r'
            else if N.eqb d 96 then
              before ++ getSubstitution matched before after r'
            else if N.eqb d 39 then
              after ++ getSubstitution matched before after r'
            else c :: getSubstitution matched before after r
        | [] => [c]
        end
      else c :: getSubstitution matched before after r
  end.

(** The class [[.*+?^${}()|[\]\\]] of [replaceAll]: the fourteen
    syntax characters of a pattern. *)
Definition isSyntaxChar (c : char) : bool :=
  existsb (N.eqb c)
    [46; 42; 43; 63; 94; 36; 123; 125; 40; 41; 124; 91; 93; 92]%N.

(** [searchText.replace(/[.*+?^${}()|[\]\\]/g, '\\$&')] *)
Definition escapeRegExp (s : jsstring) : jsstring :=
  flat_map (fun c => if isSyntaxChar c then [92%N; c] else [c]) s.

(** [new RegExp(p, 'g')] for a pattern made of plain characters and
    escaped syntax characters only: the literal text it matches.  Any
    other pattern is outside this model ([None]). *)
Fixpoint compileLiteral (p : jsstring) : option jsstring :=
  match p with
  | [] => Some []
  | c :: r =>
      if N.eqb c 92 then
        match r with
        | d :: r' =>
            if isSyntaxChar d then option_map (cons d) (compileLiteral r')
            else None
        | [] => None
        end
      else if isSyntaxChar c then None
      else option_map (cons c) (compileLiteral r)
  end.

(** [whole.replace(regex, tmpl)] for a global regex matching the
    non-empty literal [term]: the scan goes left to right and resumes
    after each match.  [s] is the part of [whole] from index [pos] on
    and [skip] counts the units of the last match still to be
    passed. *)
Fixpoint replaceScan (whole term tmpl : jsstring) (pos skip : nat)
  (s : jsstring) : jsstring :=
  match s with
  | [] => []
  | c :: r =>
      match skip with
      | S k => replaceScan whole term tmpl (S pos) k r
      | O =>
          if startsWith term s then
            getSubstitution term (firstn pos whole)
              (skipn (pos + length term) whole) tmpl
            ++ replaceScan whole term tmpl (S pos) (length term - 1) r
          else c :: replaceScan whole term tmpl (S pos) 0 r
      end
  end.

Definition replaceGlobal (term tmpl whole : jsstring) : jsstring :=
  replaceScan whole term tmpl 0 0 whole.

(** [(whole.match(regex) || []).length] for the same pattern. *)
Fixpoint matchScan (term : jsstring) (skip : nat) (s : jsstring) : nat :=
  match s with
  | [] => 0
  | _ :: r =>
      match skip with
      | S k => matchScan term k r
      | O =>
          if startsWith term s then S (matchScan term (length term - 1) r)
          else matchScan term 0 r
      end
  end.

Definition matchCount (term whole : jsstring) : nat :=
  matchScan term 0 whole.

(** [t] occurs in [s] as a contiguous run of code units. *)
Definition occursIn (t s : jsstring) : Prop :=
  exists a b, s = a ++ t ++ b.

(** The global replacement when the template holds no [$]: every match
    is replaced by the template itself. *)
Fixpoint replacePlain (term tmpl : jsstring) (skip : nat) (s : jsstring)
  : jsstring :=
  match s with
  | [] => []
  | c :: r =>
      match skip with
      | S k => replacePlain term tmpl k r
      | O =>
          if startsWith term s
          then tmpl ++ replacePlain term tmpl (length term - 1) r
          else c :: replacePlain term tmpl 0 r
      end
  end.

(** What the single pass makes of [s]. *)
Definition singlePass (term tmpl s : jsstring) : jsstring :=
  replacePlain term tmpl 0 s.

(** The indices at which the non-empty [t] occurs in [s], whose first
    unit sits at index [i]: all of them, overlapping ones included. *)
Fixpoint occurrencesAt (t s : jsstring) (i : nat) : list nat :=
  match s with
  | [] => []
  | _ :: r =>
      (if startsWith t s then [i] else []) ++ occurrencesAt t r (S i)
  end.

(** Code units the serializer writes as character references in
    text. *)
Definition isMarkupChar (c : char) : bool :=
  N.eqb c 38 || N.eqb c 160 || N.eqb c 60 || N.eqb c 62.

End Js.

(* ================================================================== *)
(** ** The document tree, its serialization and its parser *)

Module Dom.
Import Js.

Definition attr : Type := jsstring * jsstring.

(** A node carries the identity under which script variables refer to
    it.  Tag and attribute names are kept in lower case. *)
Inductive node : Type :=
| Text (uid : nat) (data : jsstring)
| Elem (uid : nat) (tag : jsstring) (attrs : list attr) (kids : list node).

Definition uidOf (n : node) : nat :=
  match n with Text u _ => u | Elem u _ _ _ => u end.

Definition isText (n : node) : bool :=
  match n with Text _ _ => true | Elem _ _ _ _ => false end.

(** Least identity not used below a list of nodes. *)
Fixpoint freshFor (n : node) : nat :=
  match n with
  | Text u _ => S u
  | Elem u _ _ ks => fold_right (fun k m => Nat.max (freshFor k) m) (S u) ks
  end.

Definition freshForAll (ns : list node) : nat :=
  fold_right (fun k m => Nat.max (freshFor k) m) 0 ns.

(** The text nodes below a node, in document order: what a TreeWalker
    with [NodeFilter.SHOW_TEXT] yields. *)
Fixpoint textNodes (n : node) : list (nat * jsstring) :=
  match n with
  | Text u d => [(u, d)]
  | Elem _ _ _ ks => flat_map textNodes ks
  end.

Definition walkText (root : list node) : list (nat * jsstring) :=
  flat_map textNodes root.

(** [node.textContent] *)
Definition textContent (root : list node) : jsstring :=
  flat_map snd (walkText root).

Definition getAttr (name : jsstring) (attrs : list attr) : option jsstring :=
  option_map snd (find (fun a => Js.eqb (fst a) name) attrs).

(** Splitting of a class attribute at ASCII white space. *)
Definition isAsciiSpace (c : char) : bool :=
  existsb (N.eqb c) [9; 10; 12; 13; 32]%N.

Fixpoint tokensAcc (cur : jsstring) (s : jsstring) : list jsstring :=
  match s with
  | [] => match cur with [] => [] | _ => [cur] end
  | c :: r =>
      if isAsciiSpace c
      then match cur with [] => tokensAcc [] r | _ => cur :: tokensAcc [] r end
      else tokensAcc (cur ++ [c]) r
  end.

Definition classList (attrs : list attr) : list jsstring :=
  match getAttr (js "class") attrs with
  | Some v => tokensAcc [] v
  | None => []
  end.

Definition hasClass (cls : jsstring) (n : node) : bool :=
  match n with
  | Text _ _ => false
  | Elem _ _ attrs _ => existsb (Js.eqb cls) (classList attrs)
  end.

(** *** Serialization ([innerHTML] read) *)

Fixpoint escapeText (s : jsstring) : jsstring :=
  match s with
  | [] => []
  | c :: r =>
      (if N.eqb c 38 then js "&amp;"
       else if N.eqb c 160 then js "&nbsp;"
       else if N.eqb c 60 then js "&lt;"
       else if N.eqb c 62 then js "&gt;"
       else [c]) ++ escapeText r
  end.

Fixpoint escapeAttr (s : jsstring) : jsstring :=
  match s with
  | [] => []
  | c :: r =>
      (if N.eqb c 38 then js "&amp;"
       else if N.eqb c 160 then js "&nbsp;"
       else if N.eqb c 34 then js "&quot;"
       else [c]) ++ escapeAttr r
  end.

Definition voidTags : list jsstring :=
  map js ["area"; "base"; "br"; "col"; "embed"; "hr"; "img"; "input";
          "link"; "meta"; "source"; "track"; "wbr"]%string.

Definition isVoid (tag : jsstring) : bool := existsb (Js.eqb tag) voidTags.

Definition serializeAttr (a : attr) : jsstring :=
  js " " ++ fst a ++ js "=" ++ [34%N] ++ escapeAttr (snd a) ++ [34%N].

Fixpoint serialize (n : node) : jsstring :=
  match n with
  | Text _ d => escapeText d
  | Elem _ tag attrs ks =>
      js "<" ++ tag ++ flat_map serializeAttr attrs ++ js ">"
      ++ (if isVoid tag then []
          else flat_map serialize ks ++ js "</" ++ tag ++ js ">")
  end.

(** [element.innerHTML] of an element with children [root]. *)
Definition innerHTML (root : list node) : jsstring :=
  flat_map serialize root.

(** *** [normalize()] *)

(** Among siblings: empty text nodes go, a run of text nodes becomes
    its first non-empty node holding the data of the whole run. *)
Fixpoint mergeText (ns : list node) : list node :=
  match ns with
  | [] => []
  | Text u d :: r =>
      match d, mergeText r with
      | [], r' => r'
      | _ :: _, Text _ d' :: r' => Text u (d ++ d') :: r'
      | _ :: _, r' => Text u d :: r'
      end
  | e :: r => e :: mergeText r
  end.

Fixpoint normalizeNode (n : node) : node :=
  match n with
  | Text _ _ => n
  | Elem u t a ks => Elem u t a (mergeText (map normalizeNode ks))
  end.

Definition normalize (root : list node) : list node :=
  mergeText (map normalizeNode root).

(** *** Fragment parser ([innerHTML] write)

    A model of the platform's fragment parser for the markup the
    serializer above emits and for its near misses: text with the five
    character references [&amp;] [&lt;] [&gt;] [&nbsp;] [&quot;], start
    tags with attributes, end tags.  An end tag closes the nearest open
    element of that name and is dropped when there is none; elements
    still open at the end are closed there.  Comments, raw-text
    elements, implied end tags and the table insertion modes are not
    modelled. *)

Inductive token : Type :=
| TText (d : jsstring)
| TOpen (tag : jsstring) (attrs : list attr)
| TClose (tag : jsstring).

Fixpoint decodeScan (skip : nat) (s : jsstring) : jsstring :=
  match s with
  | [] => []
  | c :: r =>
      match skip with
      | S k => decodeScan k r
      | O =>
          if startsWith (js "&amp;") s then 38%N :: decodeScan 4 r
          else if startsWith (js "&lt;") s then 60%N :: decodeScan 3 r
          else if startsWith (js "&gt;") s then 62%N :: decodeScan 3 r
          else if startsWith (js "&nbsp;") s then 160%N :: decodeScan 5 r
          else if startsWith (js "&quot;") s then 34%N :: decodeScan 5 r
          else c :: decodeScan 0 r
      end
  end.

Definition decodeEntities (s : jsstring) : jsstring := decodeScan 0 s.

Definition isLetter (c : char) : bool :=
  (N.leb 65 c && N.leb c 90) || (N.leb 97 c && N.leb c 122).

Definition lowerChar (c : char) : char :=
  if N.leb 65 c && N.leb c 90 then (c + 32)%N else c.

Definition lower (s : jsstring) : jsstring := map lowerChar s.

Definition flushText (acc : jsstring) : list token :=
  match acc with [] => [] | _ => [TText (decodeEntities acc)] end.

Inductive mode : Type :=
| MText (acc : jsstring)
| MOpenName (acc : jsstring)
| MCloseName (acc : jsstring)
| MBeforeAttr (tag : jsstring) (attrs : list attr)
| MAttrName (tag : jsstring) (attrs : list attr) (name : jsstring)
| MBeforeValue (tag : jsstring) (attrs : list attr) (name : jsstring)
| MValueQuoted (tag : jsstring) (attrs : list attr) (name : jsstring)
    (q : char) (acc : jsstring)
| MValueBare (tag : jsstring) (attrs : list attr) (name : jsstring)
    (acc : jsstring).

Definition addAttr (attrs : list attr) (name value : jsstring) : list attr :=
  attrs ++ [(lower name, decodeEntities value)].

Fixpoint lex (m : mode) (s : jsstring) : list token :=
  match s with
  | [] => match m with MText acc => flushText acc | _ => [] end
  | c :: r =>
      match m with
      | MText acc =>
          if N.eqb c 60 then
            match r with
            | d :: r' =>
                if isLetter d then flushText acc ++ lex (MOpenName []) r
                else if N.eqb d 47 then flushText acc ++ lex (MCloseName []) r'
                else lex (MText (acc ++ [c])) r
            | [] => lex (MText (acc ++ [c])) r
            end
          else lex (MText (acc ++ [c])) r
      | MOpenName acc =>
          if N.eqb c 62 then TOpen (lower acc) [] :: lex (MText []) r
          else if isAsciiSpace c || N.eqb c 47
               then lex (MBeforeAttr (lower acc) []) r
          else lex (MOpenName (acc ++ [c])) r
      | MCloseName acc =>
          if N.eqb c 62 then TClose (lower acc) :: lex (MText []) r
          else if isAsciiSpace c then lex (MCloseName acc) r
          else lex (MCloseName (acc ++ [c])) r
      | MBeforeAttr tag attrs =>
          if N.eqb c 62 then TOpen tag attrs :: lex (MText []) r
          else if isAsciiSpace c || N.eqb c 47
               then lex (MBeforeAttr tag attrs) r
          else lex (MAttrName tag attrs [c]) r
      | MAttrName tag attrs name =>
          if N.eqb c 62
          then TOpen tag (addAttr attrs name []) :: lex (MText []) r
          else if N.eqb c 61 then lex (MBeforeValue tag attrs name) r
          else if isAsciiSpace c || N.eqb c 47
               then lex (MBeforeAttr tag (addAttr attrs name [])) r
          else lex (MAttrName tag attrs (name ++ [c])) r
      | MBeforeValue tag attrs name =>
          if N.eqb c 34 || N.eqb c 39
          then lex (MValueQuoted tag attrs name c []) r
          else if N.eqb c 62
               then TOpen tag (addAttr attrs name []) :: lex (MText []) r
          else if isAsciiSpace c then lex (MBeforeValue tag attrs name) r
          else lex (MValueBare tag attrs name [c]) r
      | MValueQuoted tag attrs name q acc =>
          if N.eqb c q then lex (MBeforeAttr tag (addAttr attrs name acc)) r
          else lex (MValueQuoted tag attrs name q (acc ++ [c])) r
      | MValueBare tag attrs name acc =>
          if N.eqb c 62
          then TOpen tag (addAttr attrs name acc) :: lex (MText []) r
          else if isAsciiSpace c
               then lex (MBeforeAttr tag (addAttr attrs name acc)) r
          else lex (MValueBare tag attrs name (acc ++ [c])) r
      end
  end.

(** An element under construction; [f_kids] holds its children so far,
    last child first. *)
Record frame : Type := {
  f_uid : nat; f_tag : jsstring; f_attrs : list attr; f_kids : list node }.

Definition withKids (f : frame) (ks : list node) : frame :=
  {| f_uid := f_uid f; f_tag := f_tag f; f_attrs := f_attrs f; f_kids := ks |}.

Definition closeFrame (f : frame) : node :=
  Elem (f_uid f) (f_tag f) (f_attrs f) (rev (f_kids f)).

(** Appending a node to the current insertion point. *)
Definition appendNode (n : node) (stack : list frame) (top : list node)
  : list frame * list node :=
  match stack with
  | f :: fs => (withKids f (n :: f_kids f) :: fs, top)
  | [] => ([], n :: top)
  end.

(** Appending characters: they join a text node that is the last child
    of the insertion point, else a new text node [c] is made. *)
Definition appendChars (c : nat) (d : jsstring) (rkids : list node)
  : list node * nat :=
  match rkids with
  | Text u d0 :: r => (Text u (d0 ++ d) :: r, c)
  | _ => (Text c d :: rkids, S c)
  end.

(** Closing open elements from the innermost outwards; [extra] is the
    element just closed, still to be appended to the next frame. *)
Fixpoint closeUntil (tag : jsstring) (extra : list node)
  (stack : list frame) (top : list node) : list frame * list node :=
  match stack with
  | [] => ([], extra ++ top)
  | f :: fs =>
      let n := closeFrame (withKids f (extra ++ f_kids f)) in
      if Js.eqb (f_tag f) tag then appendNode n fs top
      else closeUntil tag [n] fs top
  end.

Fixpoint closeAll (extra : list node) (stack : list frame)
  (top : list node) : list node :=
  match stack with
  | [] => extra ++ top
  | f :: fs =>
      closeAll [closeFrame (withKids f (extra ++ f_kids f))] fs top
  end.

Fixpoint build (toks : list token) (stack : list frame) (top : list node)
  (c : nat) : list node * nat :=
  match toks with
  | [] => (rev (closeAll [] stack top), c)
  | TText d :: r =>
      match stack with
      | f :: fs =>
          let '(ks, c') := appendChars c d (f_kids f) in
          build r (withKids f ks :: fs) top c'
      | [] =>
          let '(ks, c') := appendChars c d top in build r [] ks c'
      end
  | TOpen tag attrs :: r =>
      if isVoid tag then
        let '(stack', top') := appendNode (Elem c tag attrs []) stack top in
        build r stack' top' (S c)
      else
        build r ({| f_uid := c; f_tag := tag; f_attrs := attrs;
                    f_kids := [] |} :: stack) top (S c)
  | TClose tag :: r =>
      if existsb (fun f => Js.eqb (f_tag f) tag) stack then
        let '(stack', top') := closeUntil tag [] stack top in
        build r stack' top' c
      else build r stack top c
  end.

(** No void element has children: such children would not show in the
    serialization. *)
Fixpoint voidsEmpty (n : node) : bool :=
  match n with
  | Text _ _ => true
  | Elem _ tag _ ks =>
      (negb (isVoid tag) || match ks with [] => true | _ :: _ => false end)
      && forallb voidsEmpty ks
  end.

Definition frameOk (f : frame) : bool :=
  negb (isVoid (f_tag f)) && forallb voidsEmpty (f_kids f).

(** Forgetting identities: the shape of a tree. *)
Fixpoint erase (n : node) : node :=
  match n with
  | Text _ d => Text 0 d
  | Elem _ t a ks => Elem 0 t a (map erase ks)
  end.

Definition eraseFrame (f : frame) : frame :=
  {| f_uid := 0; f_tag := f_tag f; f_attrs := f_attrs f;
     f_kids := map erase (f_kids f) |}.

(** The outermost element under construction is [u], with tag [tag] and
    attributes [attrs]. *)
Fixpoint bottomIs (u : nat) (tag : jsstring) (attrs : list attr)
  (stack : list frame) : Prop :=
  match stack with
  | [] => False
  | f :: fs =>
      match fs with
      | [] => f_uid f = u /\ f_tag f = tag /\ f_attrs f = attrs
      | _ :: _ => bottomIs u tag attrs fs
      end
  end.

(** The first node of the fragment under construction is, or is going
    to be, the element [u] with tag [tag] and attributes [attrs]: it is
    the first finished top-level node, or nothing is finished and it is
    the outermost open element, or it has just been closed and waits in
    [extra]. *)
Definition firstIs (u : nat) (tag : jsstring) (attrs : list attr)
  (extra : list node) (stack : list frame) (top : list node) : Prop :=
  (exists pre ks, top = pre ++ [Elem u tag attrs ks])
  \/ (top = [] /\ bottomIs u tag attrs stack)
  \/ (top = [] /\ stack = [] /\ exists ks, extra = [Elem u tag attrs ks]).

(** [element.innerHTML = markup]: the new children, made with
    identities from [c] on, and the next free identity. *)
Definition parseHTML (markup : jsstring) (c : nat) : list node * nat :=
  build (lex (MText []) markup) [] [] c.

(** The identities of a node and of the nodes below it, in document
    order. *)
Fixpoint uids (n : node) : list nat :=
  match n with
  | Text u _ => [u]
  | Elem u _ _ ks => u :: flat_map uids ks
  end.

(** The identities of the text nodes below a list of nodes. *)
Definition textIds (root : list node) : list nat := map fst (walkText root).

End Dom.

(* ================================================================== *)
(** ** The editor state: globals of the script and what it observes *)

Module Editor.
Import Js Dom.

(** [{ start, end, collapsed }]; the offsets are lengths of strings. *)
Record selectionInfo : Type := {
  sel_start : nat; sel_end : nat; sel_collapsed : bool }.

Record historyEntry : Type := {
  content : jsstring;
  selection : option selectionInfo;
  timestamp : N }.

(** A boundary point [{ node, offset }].  A reference to a node is the
    node as it was when the reference was taken; its identity is its
    uid. *)
Record boundary : Type := { b_node : node; b_offset : nat }.

(** The boundary points given to [setStart] and [setEnd]. *)
Record range : Type := { r_start : boundary; r_end : boundary }.

Definition rangeCollapsed (r : range) : bool :=
  Nat.eqb (uidOf (b_node (r_start r))) (uidOf (b_node (r_end r)))
  && Nat.eqb (b_offset (r_start r)) (b_offset (r_end r)).

(** Callbacks handed to [setTimeout]. *)
Inductive task : Type :=
| TaskRestoreSelection (sel : selectionInfo)
| TaskResetUndoRedoFlag
| TaskCreateHistoryEntry
| TaskSearchAndHighlight (searchText : jsstring)
| TaskWrapUnwrappedText.

(** Messages posted to [window.webkit.messageHandlers]. *)
Inductive message : Type :=
| ContentChanged
| TableClicked
| TablesDeactivated
| TableDeleted.

Inductive exn : Type :=
| IndexSizeError
| TypeError
| SyntaxError.

Record state : Type := {
  editor : list node;              (* children of #editor *)
  nextUid : nat;                   (* next unused node identity *)
  docSelection : option range;     (* window.getSelection() *)
  searchResults : list node;
  searchIndex : Z;
  currentSearchText : jsstring;
  editorHistory : list historyEntry;
  historyIndex : Z;
  isPerformingUndoRedo : bool;
  timers : list (nat * task);      (* pending setTimeout calls *)
  posted : list message;           (* messages sent to the host *)
  now : N                          (* Date.now() *)
}.

Definition editorUid : nat := 0.

(** The element [#editor] itself. *)
Definition editorElement (s : state) : node :=
  Elem editorUid (js "div")
    [(js "id", js "editor"); (js "contenteditable", js "true")] (editor s).

(** The state when the script block has been evaluated. *)
Definition initial : state :=
  {| editor := []; nextUid := 1; docSelection := None;
     searchResults := []; searchIndex := (-1)%Z; currentSearchText := [];
     editorHistory := []; historyIndex := (-1)%Z;
     isPerformingUndoRedo := false; timers := []; posted := []; now := 0 |}.

Definition with_editor (v : list node) (s : state) : state :=
  {| editor := v; nextUid := nextUid s; docSelection := docSelection s;
     searchResults := searchResults s; searchIndex := searchIndex s;
     currentSearchText := currentSearchText s;
     editorHistory := editorHistory s; historyIndex := historyIndex s;
     isPerformingUndoRedo := isPerformingUndoRedo s; timers := timers s;
     posted := posted s; now := now s |}.

Definition with_nextUid (v : nat) (s : state) : state :=
  {| editor := editor s; nextUid := v; docSelection := docSelection s;
     searchResults := searchResults s; searchIndex := searchIndex s;
     currentSearchText := currentSearchText s;
     editorHistory := editorHistory s; historyIndex := historyIndex s;
     isPerformingUndoRedo := isPerformingUndoRedo s; timers := timers s;
     posted := posted s; now := now s |}.

Definition with_docSelection (v : option range) (s : state) : state :=
  {| editor := editor s; nextUid := nextUid s; docSelection := v;
     searchResults := searchResults s; searchIndex := searchIndex s;
     currentSearchText := currentSearchText s;
     editorHistory := editorHistory s; historyIndex := historyIndex s;
     isPerformingUndoRedo := isPerformingUndoRedo s; timers := timers s;
     posted := posted s; now := now s |}.

Definition with_searchResults (v : list node) (s : state) : state :=
  {| editor := editor s; nextUid := nextUid s; docSelection := docSelection s;
     searchResults := v; searchIndex := searchIndex s;
     currentSearchText := currentSearchText s;
     editorHistory := editorHistory s; historyIndex := historyIndex s;
     isPerformingUndoRedo := isPerformingUndoRedo s; timers := timers s;
     posted := posted s; now := now s |}.

Definition with_searchIndex (v : Z) (s : state) : state :=
  {| editor := editor s; nextUid := nextUid s; docSelection := docSelection s;
     searchResults := searchResults s; searchIndex := v;
     currentSearchText := currentSearchText s;
     editorHistory := editorHistory s; historyIndex := historyIndex s;
     isPerformingUndoRedo := isPerformingUndoRedo s; timers := timers s;
     posted := posted s; now := now s |}.

Definition with_currentSearchText (v : jsstring) (s : state) : state :=
  {| editor := editor s; nextUid := nextUid s; docSelection := docSelection s;
     searchResults := searchResults s; searchIndex := searchIndex s;
     currentSearchText := v;
     editorHistory := editorHistory s; historyIndex := historyIndex s;
     isPerformingUndoRedo := isPerformingUndoRedo s; timers := timers s;
     posted := posted s; now := now s |}.

Definition with_editorHistory (v : list historyEntry) (s : state) : state :=
  {| editor := editor s; nextUid := nextUid s; docSelection := docSelection s;
     searchResults := searchResults s; searchIndex := searchIndex s;
     currentSearchText := currentSearchText s;
     editorHistory := v; historyIndex := historyIndex s;
     isPerformingUndoRedo := isPerformingUndoRedo s; timers := timers s;
     posted := posted s; now := now s |}.

Definition with_historyIndex (v : Z) (s : state) : state :=
  {| editor := editor s; nextUid := nextUid s; docSelection := docSelection s;
     searchResults := searchResults s; searchIndex := searchIndex s;
     currentSearchText := currentSearchText s;
     editorHistory := editorHistory s; historyIndex := v;
     isPerformingUndoRedo := isPerformingUndoRedo s; timers := timers s;
     posted := posted s; now := now s |}.

Definition with_isPerformingUndoRedo (v : bool) (s : state) : state :=
  {| editor := editor s; nextUid := nextUid s; docSelection := docSelection s;
     searchResults := searchResults s; searchIndex := searchIndex s;
     currentSearchText := currentSearchText s;
     editorHistory := editorHistory s; historyIndex := historyIndex s;
     isPerformingUndoRedo := v; timers := timers s;
     posted := posted s; now := now s |}.

(** [setTimeout(task, delay)] *)
Definition setTimeout (t : task) (delay : nat) (s : state) : state :=
  {| editor := editor s; nextUid := nextUid s; docSelection := docSelection s;
     searchResults := searchResults s; searchIndex := searchIndex s;
     currentSearchText := currentSearchText s;
     editorHistory := editorHistory s; historyIndex := historyIndex s;
     isPerformingUndoRedo := isPerformingUndoRedo s;
     timers := timers s ++ [(delay, t)];
     posted := posted s; now := now s |}.

(** [window.webkit.messageHandlers.<m>.postMessage(..)] *)
Definition postMessage (m : message) (s : state) : state :=
  {| editor := editor s; nextUid := nextUid s; docSelection := docSelection s;
     searchResults := searchResults s; searchIndex := searchIndex s;
     currentSearchText := currentSearchText s;
     editorHistory := editorHistory s; historyIndex := historyIndex s;
     isPerformingUndoRedo := isPerformingUndoRedo s; timers := timers s;
     posted := posted s ++ [m]; now := now s |}.

(** [document.getElementById('editor').innerHTML = markup] *)
Definition setInnerHTML (markup : jsstring) (s : state) : state :=
  let '(nodes, c) := parseHTML markup (nextUid s) in
  with_nextUid c (with_editor nodes s).

(** [getContent()] *)
Definition getContent (s : state) : jsstring := innerHTML (editor s).

(** *** Selection codec *)

(** Number of characters of text before the boundary point
    [(u, off)], scanning [n] in document order with [acc] characters
    already passed: [inr] the answer, or [inl] the characters passed
    when [u] is not in [n]. *)
Fixpoint charsBeforeIn (u off : nat) (n : node) (acc : nat) : nat + nat :=
  match n with
  | Text v d =>
      if Nat.eqb v u then inr (acc + Nat.min off (length d))
      else inl (acc + length d)
  | Elem v _ _ ks =>
      if Nat.eqb v u then inr (acc + length (textContent (firstn off ks)))
      else
        (fix go (ks : list node) (acc : nat) : nat + nat :=
           match ks with
           | [] => inl acc
           | k :: r =>
               match charsBeforeIn u off k acc with
               | inr a => inr a
               | inl acc' => go r acc'
               end
           end) ks acc
  end.

(** [tempRange.setStart(editor, 0); tempRange.setEnd(b.node, b.offset);
    tempRange.toString().length] for a boundary point inside the
    editor. *)
Definition charsBefore (s : state) (b : boundary) : nat :=
  match charsBeforeIn (uidOf (b_node b)) (b_offset b) (editorElement s) 0 with
  | inr a => a
  | inl a => a
  end.

Definition saveSelection (s : state) : option selectionInfo :=
  match docSelection s with
  | None => None
  | Some range =>
      let startOffset := charsBefore s (r_start range) in
      let endOffset :=
        if rangeCollapsed range then startOffset
        else charsBefore s (r_end range) in
      Some {| sel_start := startOffset; sel_end := endOffset;
              sel_collapsed := rangeCollapsed range |}
  end.

(** The [while (node)] loop of [getNodeAndOffsetAtCharacterOffset] over
    the text nodes the walker still has to yield. *)
Fixpoint walkToOffset (texts : list (nat * jsstring))
  (charOffset currentOffset : nat) : option boundary :=
  match texts with
  | [] => None
  | (u, d) :: rest =>
      let nodeLength := length d in
      if charOffset <=? currentOffset + nodeLength then
        Some {| b_node := Text u d; b_offset := charOffset - currentOffset |}
      else walkToOffset rest charOffset (currentOffset + nodeLength)
  end.

Definition childNodes (n : node) : list node :=
  match n with Text _ _ => [] | Elem _ _ _ ks => ks end.

Definition getNodeAndOffsetAtCharacterOffset (root : node)
  (charOffset : nat) : boundary :=
  match walkToOffset (textNodes root) charOffset 0 with
  | Some position => position
  | None =>
      match last (map Some (childNodes root)) None with
      | Some lastNode =>
          match lastNode with
          | Text _ d => {| b_node := lastNode; b_offset := length d |}
          | Elem _ _ _ _ =>
              {| b_node := root; b_offset := length (childNodes root) |}
          end
      | None => {| b_node := root; b_offset := 0 |}
      end
  end.

(** [node.length] of the DOM: data length or number of children. *)
Definition nodeLength (n : node) : nat :=
  match n with Text _ d => length d | Elem _ _ _ ks => length ks end.

(** [range.setStart] and [range.setEnd] raise IndexSizeError when the
    offset exceeds the length of the node. *)
Definition boundaryOk (b : boundary) : bool :=
  b_offset b <=? nodeLength (b_node b).

(** [restoreSelection]; the position lookup never yields null, an
    exception of the range calls is caught and answered by [false]
    before the selection has been touched.  Scrolling is not part of
    the state. *)
Definition restoreSelection (selectionInfo : option selectionInfo)
  (s : state) : bool * state :=
  match selectionInfo with
  | None => (false, s)
  | Some sel =>
      let editorText := textContent (editor s) in
      let maxOffset := length editorText in
      let startOffset := Nat.min (sel_start sel) maxOffset in
      let endOffset := Nat.min (sel_end sel) maxOffset in
      let startPosition :=
        getNodeAndOffsetAtCharacterOffset (editorElement s) startOffset in
      let endPosition :=
        getNodeAndOffsetAtCharacterOffset (editorElement s) endOffset in
      if boundaryOk startPosition && boundaryOk endPosition then
        (true,
         with_docSelection
           (Some {| r_start := startPosition; r_end := endPosition |}) s)
      else (false, s)
  end.

(** Number of characters held by a list of text nodes. *)
Definition textLength (texts : list (nat * jsstring)) : nat :=
  length (flat_map snd texts).

(** The boundary point [b] has [k] characters of text before it: it
    lies in a text node of [root] at the offset that makes up the
    difference, or [root] has no text node at all and [b] is the end of
    [root]. *)
Definition atOffset (root : node) (b : boundary) (k : nat) : Prop :=
  (exists pre u d post,
      textNodes root = pre ++ (u, d) :: post
      /\ b = {| b_node := Text u d;
                b_offset := k - length (flat_map snd pre) |}
      /\ length (flat_map snd pre) <= k
      /\ k <= length (flat_map snd pre) + length d)
  \/ (textNodes root = [] /\ k = 0
      /\ b = {| b_node := root; b_offset := length (childNodes root) |}).

(** *** History manager *)

(** [a[i]] for a JavaScript number [i]; [None] stands for
    [undefined]. *)
Definition at_ {A : Type} (a : list A) (i : Z) : option A :=
  if (i <? 0)%Z then None else nth_error a (Z.to_nat i).

Definition lengthZ {A : Type} (a : list A) : Z := Z.of_nat (length a).

Definition createHistoryEntry (s : state) : state :=
  if isPerformingUndoRedo s then s
  else
    let editorContent := innerHTML (editor s) in
    let selectionInfo := saveSelection s in
    let historyEntry :=
      {| content := editorContent; selection := selectionInfo;
         timestamp := now s |} in
    let trimmed :=
      if ((0 <=? historyIndex s) &&
          (historyIndex s <? lengthZ (editorHistory s) - 1))%Z
      then firstn (Z.to_nat (historyIndex s + 1)) (editorHistory s)
      else editorHistory s in
    let pushed := trimmed ++ [historyEntry] in
    with_historyIndex (lengthZ pushed - 1) (with_editorHistory pushed s).

(** The body of the [try] block shared by undo and redo once the index
    has moved; a missing entry makes the property access raise, which
    the [catch] answers by [false]. *)
Definition replayEntry (s : state) : bool * state :=
  match at_ (editorHistory s) (historyIndex s) with
  | None => (false, s)
  | Some historyEntry =>
      let s1 := setInnerHTML (content historyEntry) s in
      let s2 :=
        match selection historyEntry with
        | Some sel => setTimeout (TaskRestoreSelection sel) 0 s1
        | None => s1
        end in
      (true, postMessage ContentChanged s2)
  end.

Definition customUndo (s : state) : bool * state :=
  if (length (editorHistory s) =? 0) || (historyIndex s <=? 0)%Z
  then (false, s)
  else
    let s1 := with_isPerformingUndoRedo true s in
    let s2 := with_historyIndex (historyIndex s1 - 1) s1 in
    let '(ok, s3) := replayEntry s2 in
    (ok, setTimeout TaskResetUndoRedoFlag 10 s3).

Definition customRedo (s : state) : bool * state :=
  if (length (editorHistory s) =? 0)
     || (lengthZ (editorHistory s) - 1 <=? historyIndex s)%Z
  then (false, s)
  else
    let s1 := with_isPerformingUndoRedo true s in
    let s2 := with_historyIndex (historyIndex s1 + 1) s1 in
    let '(ok, s3) := replayEntry s2 in
    (ok, setTimeout TaskResetUndoRedoFlag 10 s3).

(** A user edit: the platform has changed the document and the
    selection, then dispatches [input]; the two listeners record a
    history entry (unless an undo or redo is being replayed) and notify
    the host. *)
Definition dispatchInput (s : state) : state :=
  let s1 := if isPerformingUndoRedo s then s else createHistoryEntry s in
  postMessage ContentChanged s1.

Definition userEdit (doc : list node) (sel : option range) (s : state)
  : state :=
  dispatchInput
    (with_nextUid (Nat.max (nextUid s) (freshForAll doc))
       (with_docSelection sel (with_editor doc s))).

(** *** Search engine *)

(** How a call ends: with a value, or with an exception that nothing
    in the script catches.  Either way the state is what the call has
    made of it so far. *)
Inductive outcome (A : Type) : Type :=
| Returned (v : A) (s : state)
| Thrown (e : exn) (s : state).
Arguments Thrown {A} e s.

Definition highlightClass : jsstring := js "search-highlight".

(** [editor.querySelectorAll('.search-highlight').length] *)
Fixpoint countHighlights (n : node) : nat :=
  match n with
  | Text _ _ => 0
  | Elem _ _ _ ks =>
      (if hasClass highlightClass n then 1 else 0)
      + list_sum (map countHighlights ks)
  end.

(** The loop over [highlights]: each one is replaced in its parent by
    a new text node holding its [textContent]. *)
Fixpoint unwrapHighlights (n : node) (c : nat) : node * nat :=
  match n with
  | Text _ _ => (n, c)
  | Elem u t a ks =>
      if hasClass highlightClass n then (Text c (textContent [n]), S c)
      else
        let '(ks', c') :=
          (fix go (ks : list node) (c : nat) : list node * nat :=
             match ks with
             | [] => ([], c)
             | k :: r =>
                 let '(k', c1) := unwrapHighlights k c in
                 let '(r', c2) := go r c1 in
                 (k' :: r', c2)
             end) ks c in
        (Elem u t a ks', c')
  end.

Fixpoint unwrapAll (ks : list node) (c : nat) : list node * nat :=
  match ks with
  | [] => ([], c)
  | k :: r =>
      let '(k', c1) := unwrapHighlights k c in
      let '(r', c2) := unwrapAll r c1 in
      (k' :: r', c2)
  end.

Definition clearSearch (s : state) : bool * state :=
  let s1 :=
    with_currentSearchText []
      (with_searchIndex (-1)%Z (with_searchResults [] s)) in
  if 0 <? list_sum (map countHighlights (editor s1)) then
    let '(ks, c) := unwrapAll (editor s1) (nextUid s1) in
    (true, with_nextUid c (with_editor (normalize ks) s1))
  else (false, s1).

(** The inner [while (index !== -1)] loop: [index] is the result of
    the last [indexOf]; each round records it and searches again from
    [index + 1].  The index grows with every round, so
    [content.length + 1] rounds are enough. *)
Fixpoint scanMatches (fuel : nat) (searchText content : jsstring)
  (index : option nat) : list nat :=
  match fuel, index with
  | S fuel', Some i =>
      i :: scanMatches fuel' searchText content
             (indexOf searchText content (i + 1))
  | _, _ => []
  end.

Definition matchesInNode (searchText : jsstring) (tn : nat * jsstring)
  : list (nat * nat) :=
  let content := snd tn in
  map (fun index => (fst tn, index))
    (scanMatches (S (length content)) searchText content
       (indexOf searchText content 0)).

(** Replacement of the text node [u] by the nodes [f data]. *)
Fixpoint substText (u : nat) (f : jsstring -> list node) (n : node)
  : list node :=
  match n with
  | Text v d => if Nat.eqb v u then f d else [n]
  | Elem v t a ks => [Elem v t a (flat_map (substText u f) ks)]
  end.

Definition findText (u : nat) (root : list node) : option jsstring :=
  option_map snd (find (fun p => Nat.eqb (fst p) u) (walkText root)).

Definition highlightSpan (uid : nat) (kids : list node) : node :=
  Elem uid (js "span")
    [(js "class", highlightClass);
     (js "style", js "background-color: rgb(255, 255, 0);")] kids.

(** One round of the highlighting loop for the match [(u, index)]:
    [node.splitText(index)], [beforeNode.splitText(searchText.length)],
    then the part in between is wrapped in a new span, which is pushed
    on [searchResults].  [splitText] raises IndexSizeError when its
    offset exceeds the length of the data. *)
Definition highlightMatch (searchText : jsstring) (m : nat * nat)
  (s : state) : outcome unit :=
  let '(u, index) := m in
  match findText u (editor s) with
  | None => Returned tt s
  | Some data =>
      if length data <? index then Thrown IndexSizeError s
      else
        let c := nextUid s in
        let nodeData := firstn index data in
        let beforeData := skipn index data in
        if length beforeData <? length searchText then
          Thrown IndexSizeError
            (with_nextUid (S c)
               (with_editor
                  (flat_map
                     (substText u
                        (fun _ => [Text u nodeData; Text c beforeData]))
                     (editor s)) s))
        else
          let matchData := skipn (length searchText) beforeData in
          let beforeNode := Text c (firstn (length searchText) beforeData) in
          let span := highlightSpan (S (S c)) [beforeNode] in
          Returned tt
            (with_searchResults (searchResults s ++ [span])
               (with_nextUid (S (S (S c)))
                  (with_editor
                     (flat_map
                        (substText u
                           (fun _ =>
                              [Text u nodeData; span; Text (S c) matchData]))
                        (editor s)) s)))
  end.

(** The loop [for (i = matches.length - 1; i >= 0; i--)], given the
    matches still to be done, last first. *)
Fixpoint highlightLoop (searchText : jsstring) (todo : list (nat * nat))
  (s : state) : outcome unit :=
  match todo with
  | [] => Returned tt s
  | m :: rest =>
      match highlightMatch searchText m s with
      | Returned _ s' => highlightLoop searchText rest s'
      | Thrown e s' => Thrown e s'
      end
  end.

Definition selectSearchResult (index : Z) (s : state) : bool * state :=
  if length (searchResults s) =? 0 then (false, s)
  else
    let index := Z.max 0 (Z.min index (lengthZ (searchResults s) - 1)) in
    let s1 := with_searchIndex index s in
    match at_ (searchResults s1) index with
    | None => (false, s1)
    | Some span =>
        (true,
         with_docSelection
           (Some {| r_start := {| b_node := span; b_offset := 0 |};
                    r_end := {| b_node := span;
                                b_offset := nodeLength span |} |}) s1)
    end.

Definition searchAndHighlight (searchText : jsstring) (s : state)
  : outcome nat :=
  let s1 := snd (clearSearch s) in
  match searchText with
  | [] => Returned 0 s1
  | _ :: _ =>
      let s2 :=
        with_searchIndex (-1)%Z
          (with_searchResults [] (with_currentSearchText searchText s1)) in
      let matches := flat_map (matchesInNode searchText) (walkText (editor s2)) in
      let count := length matches in
      match highlightLoop searchText (rev matches) s2 with
      | Thrown e s3 => Thrown e s3
      | Returned _ s3 =>
          let s4 :=
            if 0 <? length (searchResults s3)
            then snd (selectSearchResult 0 (with_searchIndex 0 s3))
            else s3 in
          Returned count s4
      end
  end.

Definition findNext (s : state) : bool * state :=
  if length (searchResults s) =? 0 then (false, s)
  else
    let s1 := with_searchIndex (searchIndex s + 1) s in
    let s2 :=
      if (lengthZ (searchResults s1) <=? searchIndex s1)%Z
      then with_searchIndex 0 s1 else s1 in
    selectSearchResult (searchIndex s2) s2.

Definition findPrevious (s : state) : bool * state :=
  if length (searchResults s) =? 0 then (false, s)
  else
    let s1 := with_searchIndex (searchIndex s - 1) s in
    let s2 :=
      if (searchIndex s1 <? 0)%Z
      then with_searchIndex (lengthZ (searchResults s1) - 1) s1 else s1 in
    selectSearchResult (searchIndex s2) s2.

(** Replacement of the children of the element [u]. *)
Fixpoint setKids (u : nat) (kids : list node) (n : node) : node :=
  match n with
  | Text _ _ => n
  | Elem v t a ks =>
      if Nat.eqb v u then Elem v t a kids
      else Elem v t a (map (setKids u kids) ks)
  end.

(** [document.execCommand('insertText', false, text)] with the
    contents of the element [span] selected: the contents become the
    text, the caret goes behind it and [input] is dispatched. *)
Definition execInsertText (span : node) (text : jsstring) (s : state)
  : state :=
  let c := nextUid s in
  let kids := match text with [] => [] | _ => [Text c text] end in
  let caret :=
    match text with
    | [] => {| b_node := setKids (uidOf span) [] span; b_offset := 0 |}
    | _ => {| b_node := Text c text; b_offset := length text |}
    end in
  dispatchInput
    (with_docSelection (Some {| r_start := caret; r_end := caret |})
       (with_nextUid (S c)
          (with_editor (map (setKids (uidOf span) kids) (editor s)) s))).

Definition replaceSelection (replaceText : jsstring) (s : state)
  : outcome bool :=
  if (length (searchResults s) =? 0) || (searchIndex s <? 0)%Z
  then Returned false s
  else
    let s1 := createHistoryEntry s in
    match at_ (searchResults s1) (searchIndex s1) with
    | None => Thrown TypeError s1
    | Some span =>
        let s2 :=
          with_docSelection
            (Some {| r_start := {| b_node := span; b_offset := 0 |};
                     r_end := {| b_node := span;
                                 b_offset := nodeLength span |} |}) s1 in
        let s3 := execInsertText span replaceText s2 in
        let s4 := setTimeout TaskCreateHistoryEntry 0 s3 in
        let s5 := postMessage ContentChanged s4 in
        let searchText := currentSearchText s5 in
        Returned true (setTimeout (TaskSearchAndHighlight searchText) 10 s5)
    end.

Definition replaceAll (searchText replaceText : jsstring) (s : state)
  : outcome nat :=
  match searchText with
  | [] => Returned 0 s
  | _ :: _ =>
      let s1 := createHistoryEntry s in
      let s2 := snd (clearSearch s1) in
      let content := innerHTML (editor s2) in
      let escapedSearch := escapeRegExp searchText in
      match compileLiteral escapedSearch with
      | None => Thrown SyntaxError s2
      | Some regexSearch =>
          let newContent := replaceGlobal regexSearch replaceText content in
          let count := matchCount regexSearch content in
          let s3 := setInnerHTML newContent s2 in
          let s4 := setTimeout TaskCreateHistoryEntry 0 s3 in
          Returned count (postMessage ContentChanged s4)
      end
  end.

(** The state a search starts from once [clearSearch] has found no
    highlight to remove. *)
Definition searchReset (searchText : jsstring) (s : state) : state :=
  with_searchIndex (-1)%Z
    (with_searchResults []
       (with_currentSearchText searchText
          (with_currentSearchText []
             (with_searchIndex (-1)%Z (with_searchResults [] s))))).

(** *** Content installation *)

Fixpoint wrapKids (ks : list node) (c : nat) : list node * nat :=
  match ks with
  | [] => ([], c)
  | k :: r =>
      match k with
      | Text _ d =>
          match trim d with
          | [] => let '(r', c') := wrapKids r c in (k :: r', c')
          | _ :: _ =>
              let '(r', c') := wrapKids r (S c) in
              (Elem c (js "div") [] [k] :: r', c')
          end
      | Elem _ _ _ _ => let '(r', c') := wrapKids r c in (k :: r', c')
      end
  end.

(** [wrapUnwrappedText(document.getElementById('editor'))] *)
Definition wrapUnwrappedText (s : state) : state :=
  let '(ks, c) := wrapKids (editor s) (nextUid s) in
  with_nextUid c (with_editor ks s).

(** [!html || html.trim() === ''] *)
Definition isBlank (html : jsstring) : bool :=
  match html, trim html with
  | [], _ | _, [] => true
  | _, _ => false
  end.

(** The second [if] of [setContent]. *)
Definition wrapMarkup (html : jsstring) : jsstring :=
  if negb (startsWith (js "<div") (trim html))
     && negb (startsWith (js "<p") (trim html))
     && negb (startsWith (js "<h") (trim html))
     && negb (startsWith (js "<ul") (trim html))
     && negb (startsWith (js "<ol") (trim html))
     && negb (startsWith (js "<table") (trim html))
  then js "<div>" ++ html ++ js "</div>"
  else html.

(** The six tests of [setContent] on the trimmed markup. *)
Definition startsWithBlock (trimmed : jsstring) : bool :=
  startsWith (js "<div") trimmed || startsWith (js "<p") trimmed
  || startsWith (js "<h") trimmed || startsWith (js "<ul") trimmed
  || startsWith (js "<ol") trimmed || startsWith (js "<table") trimmed.

(** The markup [setContent(html)] assigns to [innerHTML]. *)
Definition installedMarkup (html : jsstring) : jsstring :=
  if isBlank html then js "<div><br></div>" else wrapMarkup html.

(** [setContent(html)].  The deferred callback also registers the
    table listeners again, which leaves no trace in this state. *)
Definition setContent (html : jsstring) (s : state) : state :=
  if isBlank html then setInnerHTML (js "<div><br></div>") s
  else
    setTimeout TaskWrapUnwrappedText 0 (setInnerHTML (wrapMarkup html) s).

(** Block-level elements, as the glossary of the specification lists
    them: paragraphs and headings, [div], lists and tables. *)
Definition blockTags : list jsstring :=
  map js ["div"; "p"; "h1"; "h2"; "h3"; "h4"; "h5"; "h6"; "ul"; "ol";
          "table"]%string.

Definition isBlockElement (n : node) : bool :=
  match n with
  | Text _ _ => false
  | Elem _ tag _ _ => existsb (Js.eqb tag) blockTags
  end.

(** The document root has a block-level child. *)
Definition rootHasBlockChild (s : state) : Prop :=
  exists n, In n (editor s) /\ isBlockElement n = true.

(** No character of [a] is a character of [b]. *)
Definition sharesNoChar (a b : jsstring) : bool :=
  forallb (fun c => negb (existsb (N.eqb c) b)) a.

(** The text holds none of the characters the serializer escapes. *)
Definition plainText (t : jsstring) : bool :=
  forallb (fun c => negb (isMarkupChar c)) t.

(** The text holds a dollar sign, which a replacement template
    interprets. *)
Definition hasDollar (t : jsstring) : bool := existsb (N.eqb 36) t.

(** The property of search followed by replace-all as the specification
    states it: whenever the replacement does not contain the term, a
    search, a replace-all and a second search end with no occurrence
    found. *)
Definition replaceAllLeavesNoMatch : Prop :=
  forall (s : state) (term repl : jsstring) n1 s1 n2 s2,
    term <> [] -> ~ occursIn term repl ->
    searchAndHighlight term s = Returned n1 s1 ->
    replaceAll term repl s1 = Returned n2 s2 ->
    exists s3, searchAndHighlight term s2 = Returned 0 s3.

(** A document of one block holding one text node, as [setContent]
    installs it. *)
Definition docOf (text : string) : state :=
  setContent (js "<div>" ++ js text ++ js "</div>") initial.

(** *** Timer callbacks *)

Definition stateOf {A : Type} (o : outcome A) : state :=
  match o with Returned _ s => s | Thrown _ s => s end.

Definition runTask (t : task) (s : state) : state :=
  match t with
  | TaskRestoreSelection sel => snd (restoreSelection (Some sel) s)
  | TaskResetUndoRedoFlag => with_isPerformingUndoRedo false s
  | TaskCreateHistoryEntry => createHistoryEntry s
  | TaskSearchAndHighlight searchText =>
      stateOf (searchAndHighlight searchText s)
  | TaskWrapUnwrappedText => wrapUnwrappedText s
  end.

(** The [DOMContentLoaded] listeners: an editor without content gets
    the empty block, and the first history entry is deferred. *)
Definition domContentLoaded (s : state) : state :=
  let s1 :=
    match trim (innerHTML (editor s)) with
    | [] => setInnerHTML (js "<div><br></div>") s
    | _ :: _ => s
    end in
  setTimeout TaskCreateHistoryEntry 100 s1.

(** *** The event loop

    One turn of the script: a user edit, a command of the host, or a
    deferred callback. *)
Inductive step : state -> state -> Prop :=
| step_loaded s : step s (domContentLoaded s)
| step_edit doc sel s : step s (userEdit doc sel s)
| step_undo s : step s (snd (customUndo s))
| step_redo s : step s (snd (customRedo s))
| step_record s : step s (createHistoryEntry s)
| step_clearSearch s : step s (snd (clearSearch s))
| step_search t s : step s (stateOf (searchAndHighlight t s))
| step_findNext s : step s (snd (findNext s))
| step_findPrevious s : step s (snd (findPrevious s))
| step_replaceSelection t s : step s (stateOf (replaceSelection t s))
| step_replaceAll t r s : step s (stateOf (replaceAll t r s))
| step_setContent html s : step s (setContent html s)
| step_timer t s : step s (runTask t s).

Inductive reachable : state -> Prop :=
| reach_initial : reachable initial
| reach_step s s' : reachable s -> step s s' -> reachable s'.

(** The cursor of the history points at an entry, or the history is
    empty and the cursor is [-1]. *)
Definition historyInv (s : state) : Prop :=
  (editorHistory s = [] /\ historyIndex s = (-1)%Z)
  \/ (0 <= historyIndex s < lengthZ (editorHistory s))%Z.

(** Markup that the parser and the serializer leave as it is. *)
Definition stableMarkup (m : jsstring) : Prop :=
  innerHTML (fst (parseHTML m 0)) = m.

(** The two history variables of a state. *)
Definition histOf (s : state) : list historyEntry * Z :=
  (editorHistory s, historyIndex s).

Definition undo1 (s : state) : state := snd (customUndo s).
Definition redo1 (s : state) : state := snd (customRedo s).

(** The edits of a session, each a new document and selection
    followed by the [input] event. *)
Definition applyEdits (edits : list (list node * option range)) (s : state)
  : state :=
  fold_left (fun s e => userEdit (fst e) (snd e) s) edits s.

(** While undo and redo move over the history [h], whose last entry
    holds the markup [target] recorded for the document [doc]: the
    entries stay, the cursor stays on one of them, and on the last one
    the document is [doc] still, or has been installed from [target]. *)
Definition onTrack (h : list historyEntry) (target : jsstring)
  (doc : list node) (s : state) : Prop :=
  editorHistory s = h
  /\ (0 <= historyIndex s <= lengthZ h - 1)%Z
  /\ (historyIndex s = lengthZ h - 1 ->
      editor s = doc \/ exists c, editor s = fst (parseHTML target c))%Z.

(** *** Sample documents and states *)

Definition divOf (uid : nat) (text : string) : list node :=
  [Elem uid (js "div") [] [Text (S uid) (js text)]].

(** Two edits, one undo, the flag reset by its timer: the cursor is on
    the first of two entries. *)
Definition branchPoint : state :=
  runTask TaskResetUndoRedoFlag
    (undo1 (applyEdits [(divOf 1 "a", None); (divOf 3 "ab", None)] initial)).

(** *** Identities

    Every node of the document, the editor element included, has an
    identity of its own. *)
Definition wellIdentified (s : state) : Prop :=
  NoDup (uids (editorElement s)).

(** The text nodes of the document have identities of their own, all
    of them below the next identity to be given out. *)
Definition textIdsFresh (s : state) : Prop :=
  NoDup (map fst (walkText (editor s)))
  /\ forall p, In p (walkText (editor s)) -> fst p < nextUid s.

(** *** Word count *)

(** [text.split(/\s+/)]: the pieces between the maximal runs of white
    space, the empty pieces at either end included.  [cur] is the piece
    under way and [gap] tells that the last unit was white space. *)
Fixpoint splitWhiteSpace (cur : jsstring) (gap : bool) (s : jsstring)
  : list jsstring :=
  match s with
  | [] => [cur]
  | c :: r =>
      if isWhiteSpace c then
        if gap then splitWhiteSpace [] true r
        else cur :: splitWhiteSpace [] true r
      else splitWhiteSpace (cur ++ [c]) false r
  end.

(** The variable [wordCount] of [getWordCount] for the text [text];
    [filter(Boolean)] keeps the pieces that are not empty. *)
Definition wordCount (text : jsstring) : nat :=
  match trim text with
  | [] => 0
  | _ :: _ =>
      length
        (filter (fun w => match w with [] => false | _ :: _ => true end)
           (splitWhiteSpace [] false (trim text)))
  end.

Definition decimal (n : nat) : jsstring :=
  js (NilEmpty.string_of_uint (Nat.to_uint n)).

(** [getWordCount()], given the [innerText] of the editor, which the
    platform derives from the rendering. *)
Definition getWordCount (text : jsstring) : jsstring :=
  js "{" ++ [34%N] ++ js "words" ++ [34%N] ++ js ":"
  ++ decimal (wordCount text)
  ++ js "," ++ [34%N] ++ js "chars" ++ [34%N] ++ js ":"
  ++ decimal (length text) ++ js "}".

(** The number of places of [s] where a word starts: a unit that is no
    white space and follows white space, or the start when [gap]
    holds. *)
Fixpoint wordStarts (gap : bool) (s : jsstring) : nat :=
  match s with
  | [] => 0
  | c :: r =>
      if isWhiteSpace c then wordStarts true r
      else (if gap then 1 else 0) + wordStarts false r
  end.

End Editor.

(* ================================================================== *)
(** ** Table controller *)

Module Table.
Import Js.

Definition message := Editor.message.

(** What the controller reads and writes of a [table] element: its
    class attribute, the two inline margins, its rows of cells (each
    cell by its markup) and the handle elements appended to it, by
    class name.  Cells are taken to hold no handles and no tables of
    their own. *)
Record table : Type := {
  t_uid : nat;
  className : jsstring;
  marginLeft : jsstring;
  marginTop : jsstring;
  rows : list (list jsstring);
  handles : list jsstring }.

Record state : Type := {
  tables : list table;        (* document.querySelectorAll('table') *)
  activeTable : option nat;   (* identity of the active table or null *)
  nextUid : nat;
  timers : list nat;          (* pending activations of insertTable *)
  posted : list message }.

Definition initial : state :=
  {| tables := []; activeTable := None; nextUid := 1; timers := [];
     posted := [] |}.

Definition with_tables (v : list table) (s : state) : state :=
  {| tables := v; activeTable := activeTable s; nextUid := nextUid s;
     timers := timers s; posted := posted s |}.

Definition with_activeTable (v : option nat) (s : state) : state :=
  {| tables := tables s; activeTable := v; nextUid := nextUid s;
     timers := timers s; posted := posted s |}.

Definition postMessage (m : message) (s : state) : state :=
  {| tables := tables s; activeTable := activeTable s; nextUid := nextUid s;
     timers := timers s; posted := posted s ++ [m] |}.

Definition with_rows (v : list (list jsstring)) (t : table) : table :=
  {| t_uid := t_uid t; className := className t; marginLeft := marginLeft t;
     marginTop := marginTop t; rows := v; handles := handles t |}.

Definition with_handles (v : list jsstring) (t : table) : table :=
  {| t_uid := t_uid t; className := className t; marginLeft := marginLeft t;
     marginTop := marginTop t; rows := rows t; handles := v |}.

(** Update of the table element a reference points to. *)
Definition updateTable (u : nat) (f : table -> table) (s : state) : state :=
  with_tables
    (map (fun t => if Nat.eqb (t_uid t) u then f t else t) (tables s)) s.

Definition lookupTable (u : nat) (s : state) : option table :=
  find (fun t => Nat.eqb (t_uid t) u) (tables s).

Definition resizeHandle : jsstring := js "table-handle".
Definition dragHandle : jsstring := js "table-drag-handle".

(** [table.querySelector('.' + cls)] finds a handle. *)
Definition hasHandle (cls : jsstring) (t : table) : bool :=
  existsb (Js.eqb cls) (handles t).

(** [h = table.querySelector('.' + cls); if (h) h.remove()] *)
Fixpoint removeFirst (cls : jsstring) (hs : list jsstring) : list jsstring :=
  match hs with
  | [] => []
  | h :: r => if Js.eqb cls h then r else h :: removeFirst cls r
  end.

Definition deactivateAllTables (s : state) : state :=
  let s1 :=
    with_tables
      (map (fun t =>
              with_handles
                (removeFirst dragHandle (removeFirst resizeHandle (handles t)))
                t) (tables s)) s in
  match activeTable s1 with
  | Some _ => postMessage Editor.TablesDeactivated (with_activeTable None s1)
  | None => s1
  end.

Definition alignmentClasses : list jsstring :=
  map js ["left-align"; "right-align"; "center-align"; "no-wrap"]%string.

(** The first [forEach] of [activateTable]: the last class of the list
    that occurs in the class attribute, [no-wrap] when none does. *)
Definition currentAlignment (currentClasses : jsstring) : jsstring :=
  fold_left
    (fun cur cls => if includes cls currentClasses then cls else cur)
    alignmentClasses (js "no-wrap").

Fixpoint dedupe (l : list jsstring) : list jsstring :=
  match l with
  | [] => []
  | x :: r => x :: filter (fun y => negb (Js.eqb x y)) (dedupe r)
  end.

Fixpoint joinSpace (l : list jsstring) : jsstring :=
  match l with
  | [] => []
  | [x] => x
  | x :: r => x ++ js " " ++ joinSpace r
  end.

(** [classList.remove] of the four alignment classes, then
    [classList.add(alignment)]; the attribute is written back as the
    token set joined by spaces. *)
Definition setAlignmentClass (alignment : jsstring) (cls : jsstring)
  : jsstring :=
  joinSpace
    (filter (fun t => negb (existsb (Js.eqb t) alignmentClasses))
       (dedupe (Dom.tokensAcc [] cls))
     ++ [alignment]).

Definition activateElement (t : table) : table :=
  let alignment := currentAlignment (className t) in
  let hs1 :=
    if hasHandle resizeHandle t then handles t
    else handles t ++ [resizeHandle] in
  let hs2 :=
    if existsb (Js.eqb dragHandle) hs1 then hs1 else hs1 ++ [dragHandle] in
  {| t_uid := t_uid t;
     className := setAlignmentClass alignment (className t);
     marginLeft := []; marginTop := [];
     rows := rows t; handles := hs2 |}.

Definition activateTable (tableElement : nat) (s : state) : state :=
  updateTable tableElement activateElement
    (with_activeTable (Some tableElement) s).

(** The [click] listener of the editor; [target] is the table around
    the clicked element, if any. *)
Definition clickEditor (target : option nat) (s : state) : state :=
  match target, activeTable s with
  | None, Some _ => deactivateAllTables s
  | None, None => s
  | Some tableElement, active =>
      if match active with
         | Some a => Nat.eqb a tableElement
         | None => false
         end
      then s
      else
        postMessage Editor.TableClicked
          (activateTable tableElement (deactivateAllTables s))
  end.

Fixpoint insertAt {A : Type} (i : nat) (x : A) (l : list A) : list A :=
  match i, l with
  | O, _ => x :: l
  | S i', y :: r => y :: insertAt i' x r
  | S _, [] => [x]
  end.

(** [insertTable(rows, cols)]: the markup of a table of [rows] by
    [cols] cells of one space, class [no-wrap], goes in at the caret,
    which puts the new element at place [at] among the tables of the
    document; its activation is deferred. *)
Definition insertTable (nrows ncols : nat) (at_ : nat) (s : state) : state :=
  let t :=
    {| t_uid := nextUid s; className := js "no-wrap";
       marginLeft := []; marginTop := [];
       rows := repeat (repeat (js " ") ncols) nrows; handles := [] |} in
  {| tables := insertAt at_ t (tables s); activeTable := activeTable s;
     nextUid := S (nextUid s); timers := timers s ++ [10];
     posted := posted s |}.

(** The callback [insertTable] defers: the last table of the document
    is activated. *)
Definition insertTableCallback (s : state) : state :=
  let s1 :=
    {| tables := tables s; activeTable := activeTable s;
       nextUid := nextUid s; timers := tl (timers s); posted := posted s |} in
  match last (map Some (tables s1)) None with
  | Some newTable =>
      postMessage Editor.TableClicked (activateTable (t_uid newTable) s1)
  | None => s1
  end.

(** [if (!tableElement && activeTable) tableElement = activeTable] *)
Definition resolveTable (tableElement : option nat) (s : state)
  : option nat :=
  match tableElement with
  | Some u => Some u
  | None => activeTable s
  end.

Definition inRange (i : Z) (n : nat) : bool :=
  ((0 <=? i) && (i <? Z.of_nat n))%Z.

Fixpoint removeNth {A : Type} (i : nat) (l : list A) : list A :=
  match i, l with
  | _, [] => []
  | O, _ :: r => r
  | S i', x :: r => x :: removeNth i' r
  end.

Definition deleteRowOf (rowIndex : option Z) (t : table) : table :=
  if 1 <? length (rows t) then
    let indexToDelete :=
      match rowIndex with
      | Some i => i
      | None => (Z.of_nat (length (rows t)) - 1)%Z
      end in
    if inRange indexToDelete (length (rows t))
    then with_rows (removeNth (Z.to_nat indexToDelete) (rows t)) t
    else t
  else t.

Definition deleteTableRow (tableElement : option nat) (rowIndex : option Z)
  (s : state) : state :=
  match resolveTable tableElement s with
  | None => s
  | Some u =>
      postMessage Editor.ContentChanged (updateTable u (deleteRowOf rowIndex) s)
  end.

Definition deleteColumnOf (colIndex : option Z) (t : table) : table :=
  match rows t with
  | [] => t
  | first :: _ =>
      if 1 <? length first then
        let indexToDelete :=
          match colIndex with
          | Some i => i
          | None => (Z.of_nat (length first) - 1)%Z
          end in
        with_rows
          (map (fun cells =>
                  if inRange indexToDelete (length cells)
                  then removeNth (Z.to_nat indexToDelete) cells
                  else cells) (rows t)) t
      else t
  end.

Definition deleteTableColumn (tableElement : option nat)
  (colIndex : option Z) (s : state) : state :=
  match resolveTable tableElement s with
  | None => s
  | Some u =>
      postMessage Editor.ContentChanged
        (updateTable u (deleteColumnOf colIndex) s)
  end.

(** A table carries interaction handles. *)
Definition carriesHandles (t : table) : bool :=
  hasHandle resizeHandle t || hasHandle dragHandle t.

Definition rowCount (t : table) : nat := length (rows t).

(** The number of cells of each row. *)
Definition cellCounts (t : table) : list nat := map (@length jsstring) (rows t).

(** Every row has exactly one cell. *)
Definition oneColumn (t : table) : Prop :=
  forall cells, In cells (rows t) -> length cells = 1.

(** All rows have the same number [n] of cells. *)
Definition rectangular (n : nat) (t : table) : Prop :=
  forall cells, In cells (rows t) -> length cells = n.

(** The handles of a table are the two the controller makes, each at
    most once. *)
Definition ownHandles (t : table) : Prop :=
  NoDup (handles t)
  /\ forall h, In h (handles t) -> h = resizeHandle \/ h = dragHandle.

(** *** Sample states *)

(** A first table inserted into the empty document and activated by the
    deferred callback. *)
Definition oneActiveTable : state :=
  insertTableCallback (insertTable 1 1 0 initial).

(** With that table active, [insertTable(1, 1)] puts a second table
    behind it and the deferred callback runs. *)
Definition secondTableInserted : state :=
  insertTableCallback (insertTable 1 1 1 oneActiveTable).

(** The same second table, activated by a click on it instead. *)
Definition secondTableClicked : state :=
  clickEditor (Some 2) (insertTable 1 1 1 oneActiveTable).

(** *** Rows, columns and tables added and removed *)

(** How a call of the controller ends: the state it leaves, or an
    exception nothing catches together with the state so far.  A
    reference to a table that has left the document (its element
    lives on in a script variable) is outside this state:
    [Detached]. *)
Inductive result : Type :=
| Done (s : state)
| Raised (e : Editor.exn) (s : state)
| Detached.

(** [insertRow(index)] and [insertCell(index)] of a collection of [n]
    items: [-1] and [n] append, an index outside [-1 .. n] raises
    IndexSizeError ([None]). *)
Definition insertionIndex (index : Z) (n : nat) : option nat :=
  if (index =? -1)%Z then Some n
  else if ((0 <=? index) && (index <=? Z.of_nat n))%Z
       then Some (Z.to_nat index)
  else None.

(** The body of [addTableRow] on the table element; [None] when
    [insertRow] raises.  [rows] is a live collection: once the new row
    is the first one, [rows[0]] is that row, which has no cell, and the
    loop over [rows[0].cells.length] ends at once. *)
Definition addRowOf (position : option Z) (t : table) : option table :=
  match rows t with
  | [] => Some t
  | first :: _ =>
      let rowIndex :=
        match position with
        | Some p => p
        | None => Z.of_nat (length (rows t))
        end in
      match insertionIndex rowIndex (length (rows t)) with
      | None => None
      | Some i =>
          let cells :=
            match i with
            | O => 0
            | S _ => length first
            end in
          Some (with_rows (insertAt i (repeat (js " ") cells) (rows t)) t)
      end
  end.

Definition addTableRow (tableElement : option nat) (position : option Z)
  (s : state) : result :=
  match resolveTable tableElement s with
  | None => Done s
  | Some u =>
      match lookupTable u s with
      | None => Detached
      | Some t =>
          match addRowOf position t with
          | None => Raised Editor.IndexSizeError s
          | Some t' =>
              Done (postMessage Editor.ContentChanged
                      (updateTable u (fun _ => t') s))
          end
      end
  end.

(** The loop of [addTableColumn] over the rows: the rows it leaves and
    whether it came to its end; when [insertCell] raises, the rows
    before have their new cell and the others are as they were. *)
Fixpoint insertCells (position : option Z) (rs : list (list jsstring))
  : list (list jsstring) * bool :=
  match rs with
  | [] => ([], true)
  | cells :: rest =>
      let cellIndex :=
        match position with
        | Some p => p
        | None => Z.of_nat (length cells)
        end in
      match insertionIndex cellIndex (length cells) with
      | None => (rs, false)
      | Some i =>
          let '(rest', ok) := insertCells position rest in
          (insertAt i (js " ") cells :: rest', ok)
      end
  end.

Definition addTableColumn (tableElement : option nat) (position : option Z)
  (s : state) : result :=
  match resolveTable tableElement s with
  | None => Done s
  | Some u =>
      match lookupTable u s with
      | None => Detached
      | Some t =>
          let '(rs, ok) := insertCells position (rows t) in
          let s1 := updateTable u (with_rows rs) s in
          if ok then Done (postMessage Editor.ContentChanged s1)
          else Raised Editor.IndexSizeError s1
      end
  end.

(** [deleteTable(tableElement)]: the element leaves its parent, the
    reference to the active table is reset whichever table went, and
    the host is told twice. *)
Definition deleteTable (tableElement : option nat) (s : state) : result :=
  match resolveTable tableElement s with
  | None => Done s
  | Some u =>
      match lookupTable u s with
      | None => Detached
      | Some _ =>
          Done
            (postMessage Editor.ContentChanged
               (postMessage Editor.TableDeleted
                  (with_activeTable None
                     (with_tables
                        (filter (fun t => negb (Nat.eqb (t_uid t) u))
                           (tables s)) s))))
      end
  end.

End Table.

(* ================================================================== *)
(** ** The host application *)

Module App.
Import Js.

(** A Python [str]: a sequence of code points. *)
Definition pystring : Type := list N.

Definition py (s : string) : pystring := js s.

(** What [add_to_recent_files] reads and writes of the [Writer]
    object. *)
Record writer : Type := {
  recent_files : list pystring;
  max_recent_files : nat }.

(** The attributes as [__init__] sets them. *)
Definition initial : writer :=
  {| recent_files := []; max_recent_files := 5 |}.

(** [x in l] *)
Definition contains (x : pystring) (l : list pystring) : bool :=
  existsb (Js.eqb x) l.

(** [l.remove(x)] for an [x] that is in [l]: the first item equal to
    [x] goes. *)
Fixpoint remove (x : pystring) (l : list pystring) : list pystring :=
  match l with
  | [] => []
  | y :: r => if Js.eqb y x then r else y :: remove x r
  end.

(** [add_to_recent_files(filepath)]; the menu is rebuilt from the
    list. *)
Definition add_to_recent_files (filepath : pystring) (a : writer) : writer :=
  let l1 :=
    if contains filepath (recent_files a)
    then remove filepath (recent_files a)
    else recent_files a in
  let l2 := filepath :: l1 in
  let l3 :=
    if max_recent_files a <? length l2
    then firstn (max_recent_files a) l2
    else l2 in
  {| recent_files := l3; max_recent_files := max_recent_files a |}.

(** [s.replace(old, new)] for a non-empty [old]: the occurrences are
    found from left to right, none overlapping another. *)
Definition replace (old new s : pystring) : pystring :=
  replacePlain old new 0 s.

(** The plain-text branch of [load_file]: the markup made of the
    content of a text file. *)
Definition textToHtml (content : pystring) : pystring :=
  let content :=
    replace (py ">") (py "&gt;")
      (replace (py "<") (py "&lt;")
         (replace (py "&") (py "&amp;") content)) in
  replace [10%N] (py "<br>") content.

(** [re.sub(r'<[^>]+>', '', content)]: a match starts at a [<] that
    is followed by at least one code point other than [>] and then by
    a [>], and ends at the first such [>].  [tagLength n s] is the
    number of code points of the match behind its [<], when [n] of
    them have been read and [s] is what follows. *)
Fixpoint tagLength (n : nat) (s : pystring) : option nat :=
  match s with
  | [] => None
  | c :: r =>
      if N.eqb c 62 then (if 0 <? n then Some (S n) else None)
      else tagLength (S n) r
  end.

(** The scan goes from left to right and resumes behind each match;
    [skip] counts the code points of the last match still to be
    passed. *)
Fixpoint stripTags (skip : nat) (s : pystring) : pystring :=
  match s with
  | [] => []
  | c :: r =>
      match skip with
      | S k => stripTags k r
      | O =>
          if N.eqb c 60 then
            match tagLength 0 r with
            | Some n => stripTags n r
            | None => c :: stripTags 0 r
            end
          else c :: stripTags 0 r
      end
  end.

(** The [.txt] branch of [on_get_content_for_save]: the text written
    for the markup of the editor. *)
Definition htmlToText (content : pystring) : pystring :=
  let plain_text := stripTags 0 content in
  let plain_text :=
    replace (py "&gt;") (py ">")
      (replace (py "&lt;") (py "<") plain_text) in
  replace (py "&nbsp;") (py " ")
    (replace (py "&amp;") (py "&") plain_text).

End App.

(* ================================================================== *)
(** ** Facts about strings and the global replacement *)

Module JsFacts.
Import Js.

Lemma eqb_eq a : forall b, Js.eqb a b = true <-> a = b.
Proof.
  induction a as [|x a IH]; intros [|y b]; cbn; split; intros H;
    try reflexivity; try discriminate.
  - apply andb_true_iff in H. destruct H as [H1 H2].
    apply N.eqb_eq in H1. apply IH in H2. congruence.
  - injection H as H1 H2. subst. rewrite N.eqb_refl. cbn. apply IH. reflexivity.
Qed.

Lemma startsWith_iff p : forall s,
  startsWith p s = true <-> exists r, s = p ++ r.
Proof.
  induction p as [|x p IH]; intros s; cbn.
  - split; [intros _; exists s; reflexivity|reflexivity].
  - destruct s as [|y s]; split; intros H.
    + discriminate.
    + destruct H as [r H]. discriminate.
    + apply andb_true_iff in H. destruct H as [H1 H2].
      apply N.eqb_eq in H1. apply IH in H2. destruct H2 as [r H2].
      exists r. subst. reflexivity.
    + destruct H as [r H]. injection H as H1 H2. subst.
      rewrite N.eqb_refl. cbn. apply IH. eauto.
Qed.

Lemma startsWith_cons x p y s :
  startsWith (x :: p) (y :: s) = true <-> x = y /\ startsWith p s = true.
Proof.
  cbn. rewrite andb_true_iff, N.eqb_eq. reflexivity.
Qed.

Lemma occursIn_nil t : occursIn t [] -> t = [].
Proof.
  intros (a & b & E). symmetry in E. apply app_eq_nil in E.
  destruct E as [_ E]. apply app_eq_nil in E. tauto.
Qed.

(** An occurrence in [c :: s] starts at the head or lies in [s]. *)
Lemma occursIn_cons t c s :
  occursIn t (c :: s) -> startsWith t (c :: s) = true \/ occursIn t s.
Proof.
  intros (a & b & E). destruct a as [|x a].
  - left. apply startsWith_iff. exists b. exact E.
  - right. cbn in E. injection E as _ E. exists a, b. exact E.
Qed.

Lemma occursIn_app_r t a s : occursIn t s -> occursIn t (a ++ s).
Proof.
  intros (x & y & E). exists (a ++ x), y. rewrite E, app_assoc. reflexivity.
Qed.

Lemma occursIn_app_l t s b : occursIn t s -> occursIn t (s ++ b).
Proof.
  intros (x & y & E). exists x, (y ++ b). rewrite E, <- !app_assoc.
  reflexivity.
Qed.

Lemma occursIn_trans t s w : occursIn t s -> occursIn s w -> occursIn t w.
Proof.
  intros (x & y & E) (x' & y' & E'). subst.
  exists (x' ++ x), (y ++ y'). rewrite <- !app_assoc. reflexivity.
Qed.

(** No occurrence starts inside a run of characters foreign to [t]. *)
Lemma occursIn_skip_foreign t a s :
  t <> [] ->
  (forall c, In c a -> ~ In c t) ->
  occursIn t (a ++ s) -> occursIn t s.
Proof.
  intros Ne F. induction a as [|c a IH]; [exact (fun H => H)|].
  intros H. cbn in H. apply occursIn_cons in H. destruct H as [H|H].
  - exfalso. destruct t as [|x t]; [congruence|].
    apply startsWith_cons in H. destruct H as [H _]. subst x.
    apply (F c); left; reflexivity.
  - apply IH; [|exact H]. intros c' I. apply F. right. exact I.
Qed.

Lemma indexOfAt_None t : forall s i,
  ~ occursIn t s -> indexOfAt t s i = None.
Proof.
  induction s as [|c s IH]; intros i N; cbn [indexOfAt].
  - destruct (startsWith t []) eqn:E; [|reflexivity].
    exfalso. apply N. apply startsWith_iff in E. destruct E as [r E].
    exists [], r. exact E.
  - destruct (startsWith t (c :: s)) eqn:E.
    + exfalso. apply N. apply startsWith_iff in E. destruct E as [r E].
      exists [], r. exact E.
    + apply IH. intros O. apply N. apply (occursIn_app_r [c]) in O. exact O.
Qed.

Lemma indexOf_None t s : ~ occursIn t s -> indexOf t s 0 = None.
Proof. intros N. unfold indexOf. cbn [skipn]. apply indexOfAt_None, N. Qed.

Lemma compileLiteral_escaped d r :
  compileLiteral (92%N :: d :: r)
  = if isSyntaxChar d then option_map (cons d) (compileLiteral r) else None.
Proof. reflexivity. Qed.

Lemma compileLiteral_plain c r :
  isSyntaxChar c = false ->
  compileLiteral (c :: r) = option_map (cons c) (compileLiteral r).
Proof.
  intros S. cbn [compileLiteral]. rewrite S.
  destruct (N.eqb_spec c 92) as [E|E]; [|reflexivity].
  subst c. discriminate.
Qed.

(** The pattern built by [escapeRegExp] is the literal it came from. *)
Lemma compileLiteral_escape t : compileLiteral (escapeRegExp t) = Some t.
Proof.
  induction t as [|c t IH]; [reflexivity|].
  change (escapeRegExp (c :: t))
    with ((if isSyntaxChar c then [92%N; c] else [c]) ++ escapeRegExp t).
  destruct (isSyntaxChar c) eqn:S.
  - cbn [app]. rewrite compileLiteral_escaped, S, IH. reflexivity.
  - cbn [app]. rewrite (compileLiteral_plain c _ S), IH. reflexivity.
Qed.

Lemma getSubstitution_plain m b a tmpl :
  ~ In 36%N tmpl -> getSubstitution m b a tmpl = tmpl.
Proof.
  induction tmpl as [|c r IH]; [reflexivity|]. intros N. cbn [getSubstitution].
  destruct (N.eqb_spec c 36) as [E|E].
  - exfalso. apply N. left. exact E.
  - rewrite IH; [reflexivity|]. intros I. apply N. right. exact I.
Qed.

Lemma replaceScan_plain whole term tmpl :
  ~ In 36%N tmpl ->
  forall s pos skip,
    replaceScan whole term tmpl pos skip s = replacePlain term tmpl skip s.
Proof.
  intros N. induction s as [|c r IH]; intros pos skip; [reflexivity|].
  cbn [replaceScan replacePlain]. destruct skip as [|k].
  - rewrite getSubstitution_plain by exact N. rewrite !IH. reflexivity.
  - apply IH.
Qed.

Lemma replacePlain_skip term tmpl : forall s k,
  replacePlain term tmpl k s = replacePlain term tmpl 0 (skipn k s).
Proof.
  induction s as [|c r IH]; intros k.
  - destruct k; reflexivity.
  - destruct k as [|k]; [reflexivity|]. cbn [replacePlain skipn]. apply IH.
Qed.

Lemma nonempty_head {A : Type} (l : list A) :
  l <> [] -> exists x r, l = x :: r.
Proof. destruct l as [|x r]; [congruence|eauto]. Qed.

Section SinglePass.
Variable term tmpl : jsstring.
Hypothesis term_nonempty : term <> [].
Hypothesis tmpl_nonempty : tmpl <> [].
Hypothesis foreign : forall c, In c tmpl -> ~ In c term.

Lemma pass_cons c r :
  singlePass term tmpl (c :: r)
  = if startsWith term (c :: r)
    then tmpl ++ singlePass term tmpl (skipn (length term - 1) r)
    else c :: singlePass term tmpl r.
Proof.
  unfold singlePass. cbn [replacePlain].
  destruct (startsWith term (c :: r)); [|reflexivity].
  rewrite replacePlain_skip. reflexivity.
Qed.

(** A prefix made of characters of [term] that shows in the result was
    there before the pass. *)
Lemma prefix_through_pass p : forall s,
  (forall c, In c p -> In c term) ->
  startsWith p (singlePass term tmpl s) = true -> startsWith p s = true.
Proof.
  induction p as [|a p IH]; intros s P H; [reflexivity|].
  destruct s as [|c r]; [discriminate|].
  rewrite pass_cons in H. destruct (startsWith term (c :: r)) eqn:M.
  - exfalso. destruct (nonempty_head tmpl_nonempty) as (x & tm & T).
    rewrite T in H. cbn [app] in H.
    apply startsWith_cons in H. destruct H as [H _].
    apply (foreign x); [rewrite T; left; reflexivity|].
    apply P. left. exact H.
  - apply startsWith_cons in H. destruct H as [H1 H2].
    apply startsWith_cons. split; [exact H1|].
    apply IH; [|exact H2]. intros c' I. apply P. right. exact I.
Qed.

Lemma head_through_pass c r :
  startsWith term (c :: singlePass term tmpl r) = true -> startsWith term (c :: r) = true.
Proof.
  intros H. destruct (nonempty_head term_nonempty) as (x & t & T).
  set (rest := singlePass term tmpl r) in H.
  rewrite T in H. apply startsWith_cons in H. destruct H as [H1 H2].
  subst rest. rewrite T at 1. apply startsWith_cons. split; [exact H1|].
  apply prefix_through_pass; [|exact H2].
  intros c' I. rewrite T. right. exact I.
Qed.

Lemma pass_removes_all_upto n : forall s,
  length s <= n -> ~ occursIn term (singlePass term tmpl s).
Proof.
  induction n as [|n IH]; intros s L O.
  - destruct s; [|cbn in L; lia].
    apply occursIn_nil in O. exact (term_nonempty O).
  - destruct s as [|c r].
    + apply occursIn_nil in O. exact (term_nonempty O).
    + rewrite pass_cons in O. destruct (startsWith term (c :: r)) eqn:M.
      * apply occursIn_skip_foreign in O; [|exact term_nonempty|exact foreign].
        apply (IH (skipn (length term - 1) r)); [|exact O].
        rewrite length_skipn. cbn in L. lia.
      * apply occursIn_cons in O. destruct O as [O|O].
        -- apply head_through_pass in O. congruence.
        -- apply (IH r); [cbn in L; lia|exact O].
Qed.

(** After the single pass no occurrence of the term is left, when the
    replacement is not empty and shares no character with the term. *)
Lemma pass_removes_all s : ~ occursIn term (singlePass term tmpl s).
Proof. apply (@pass_removes_all_upto (length s)). apply Nat.le_refl. Qed.
End SinglePass.

Lemma replaceGlobal_removes_all term tmpl whole :
  term <> [] -> tmpl <> [] ->
  (forall c, In c tmpl -> ~ In c term) ->
  ~ In 36%N tmpl ->
  ~ occursIn term (replaceGlobal term tmpl whole).
Proof.
  intros T R F D. unfold replaceGlobal. rewrite replaceScan_plain by exact D.
  apply pass_removes_all; assumption.
Qed.

End JsFacts.

(* ================================================================== *)
(** ** Facts about the document tree *)

Module DomFacts.
Import Js Dom.

(** Induction over nodes, with the hypothesis for every child. *)
Lemma node_induction (P : node -> Prop) :
  (forall u d, P (Text u d)) ->
  (forall u t a ks, Forall P ks -> P (Elem u t a ks)) ->
  forall n, P n.
Proof.
  intros P_text P_elem. fix IH 1. intros [u d|u t a ks].
  - apply P_text.
  - apply P_elem. induction ks as [|k r IHr]; constructor.
    + apply IH.
    + exact IHr.
Qed.

Lemma flat_map_ext_Forall {A B} (f g : A -> list B) l :
  Forall (fun x => f x = g x) l -> flat_map f l = flat_map g l.
Proof. induction 1; cbn; congruence. Qed.

Lemma flat_map_map {A B C} (f : B -> list C) (g : A -> B) l :
  flat_map f (map g l) = flat_map (fun x => f (g x)) l.
Proof. induction l; cbn; congruence. Qed.

Lemma map_cons_inj {A B} (f : A -> B) a b l l' :
  map f (a :: l) = map f (b :: l') -> f a = f b /\ map f l = map f l'.
Proof. cbn. intros E. injection E as E1 E2. split; assumption. Qed.

Lemma serialize_erase n : serialize (erase n) = serialize n.
Proof.
  induction n as [u d|u t a ks IH] using node_induction; [reflexivity|].
  cbn. rewrite flat_map_map.
  rewrite (flat_map_ext_Forall _ _ IH). reflexivity.
Qed.

Lemma innerHTML_erase ns : innerHTML (map erase ns) = innerHTML ns.
Proof.
  unfold innerHTML. induction ns as [|n r IH]; [reflexivity|].
  cbn. rewrite serialize_erase, IH. reflexivity.
Qed.

Lemma closeFrame_erase f f' :
  eraseFrame f = eraseFrame f' -> erase (closeFrame f) = erase (closeFrame f').
Proof.
  unfold eraseFrame, closeFrame. intros E. injection E as E1 E2 E3.
  cbn. rewrite !map_rev, E1, E2, E3. reflexivity.
Qed.

Lemma withKids_erase f f' ks ks' :
  eraseFrame f = eraseFrame f' -> map erase ks = map erase ks' ->
  eraseFrame (withKids f ks) = eraseFrame (withKids f' ks').
Proof.
  unfold eraseFrame, withKids. intros E K. injection E as E1 E2 E3.
  cbn. rewrite E1, E2, K. reflexivity.
Qed.

Lemma eraseFrame_kids f f' :
  eraseFrame f = eraseFrame f' -> map erase (f_kids f) = map erase (f_kids f').
Proof. unfold eraseFrame. intros E. injection E as _ _ E. exact E. Qed.

Lemma eraseFrame_tag f f' : eraseFrame f = eraseFrame f' -> f_tag f = f_tag f'.
Proof. unfold eraseFrame. intros E. injection E as E _ _. exact E. Qed.

Lemma appendNode_erase n n' st st' top top' :
  erase n = erase n' ->
  map eraseFrame st = map eraseFrame st' ->
  map erase top = map erase top' ->
  map eraseFrame (fst (appendNode n st top))
  = map eraseFrame (fst (appendNode n' st' top'))
  /\ map erase (snd (appendNode n st top))
     = map erase (snd (appendNode n' st' top')).
Proof.
  intros N S T. destruct st as [|f fs], st' as [|f' fs']; try discriminate.
  - cbn. rewrite N, T. split; reflexivity.
  - apply map_cons_inj in S as [S1 S2]. cbn [appendNode fst snd map].
    split; [|exact T]. f_equal; [|exact S2].
    apply withKids_erase; [exact S1|]. cbn. f_equal; [exact N|].
    apply eraseFrame_kids, S1.
Qed.

Lemma appendChars_erase c c' d ks ks' :
  map erase ks = map erase ks' ->
  map erase (fst (appendChars c d ks)) = map erase (fst (appendChars c' d ks')).
Proof.
  intros K. destruct ks as [|n r], ks' as [|n' r']; try discriminate.
  - reflexivity.
  - apply map_cons_inj in K as [K1 K2].
    destruct n, n'; cbn in K1; try discriminate; cbn.
    + injection K1 as K1. rewrite K1, K2. reflexivity.
    + rewrite K1, K2. reflexivity.
Qed.

Lemma closeUntil_erase tag st : forall st' extra extra' top top',
  map erase extra = map erase extra' ->
  map eraseFrame st = map eraseFrame st' ->
  map erase top = map erase top' ->
  map eraseFrame (fst (closeUntil tag extra st top))
  = map eraseFrame (fst (closeUntil tag extra' st' top'))
  /\ map erase (snd (closeUntil tag extra st top))
     = map erase (snd (closeUntil tag extra' st' top')).
Proof.
  induction st as [|f fs IH]; intros st' extra extra' top top' X S T;
    destruct st' as [|f' fs']; try discriminate.
  - cbn. rewrite !map_app, X, T. split; reflexivity.
  - apply map_cons_inj in S as [S1 S2]. cbn [closeUntil].
    rewrite (eraseFrame_tag S1).
    assert (N : erase (closeFrame (withKids f (extra ++ f_kids f)))
                = erase (closeFrame (withKids f' (extra' ++ f_kids f')))).
    { apply closeFrame_erase, withKids_erase; [exact S1|].
      rewrite !map_app, X, (eraseFrame_kids S1). reflexivity. }
    destruct (Js.eqb (f_tag f') tag).
    + apply appendNode_erase; assumption.
    + apply IH; [cbn [map]; rewrite N; reflexivity|exact S2|exact T].
Qed.

Lemma closeAll_erase st : forall st' extra extra' top top',
  map erase extra = map erase extra' ->
  map eraseFrame st = map eraseFrame st' ->
  map erase top = map erase top' ->
  map erase (closeAll extra st top) = map erase (closeAll extra' st' top').
Proof.
  induction st as [|f fs IH]; intros st' extra extra' top top' X S T;
    destruct st' as [|f' fs']; try discriminate.
  - cbn. rewrite !map_app, X, T. reflexivity.
  - apply map_cons_inj in S as [S1 S2]. cbn [closeAll].
    apply IH; [|exact S2|exact T]. cbn [map]. f_equal.
    apply closeFrame_erase, withKids_erase; [exact S1|].
    rewrite !map_app, X, (eraseFrame_kids S1). reflexivity.
Qed.

Lemma existsb_tag_erase tag st st' :
  map eraseFrame st = map eraseFrame st' ->
  existsb (fun f => Js.eqb (f_tag f) tag) st
  = existsb (fun f => Js.eqb (f_tag f) tag) st'.
Proof.
  revert st'. induction st as [|f fs IH]; intros [|f' fs'] S;
    try discriminate; [reflexivity|].
  apply map_cons_inj in S as [S1 S2]. cbn.
  rewrite (eraseFrame_tag S1), (IH _ S2). reflexivity.
Qed.

Lemma build_erase toks : forall st st' top top' c c',
  map eraseFrame st = map eraseFrame st' ->
  map erase top = map erase top' ->
  map erase (fst (build toks st top c))
  = map erase (fst (build toks st' top' c')).
Proof.
  induction toks as [|tok r IH]; intros st st' top top' c c' S T.
  - cbn. rewrite !map_rev. f_equal.
    apply closeAll_erase; [reflexivity|exact S|exact T].
  - destruct tok as [d|tag attrs|tag]; cbn [build].
    + destruct st as [|f fs], st' as [|f' fs']; try discriminate.
      * pose proof (appendChars_erase c c' d _ _ T) as A.
        destruct (appendChars c d top) as [ks k], (appendChars c' d top')
          as [ks' k']. cbn in A. apply IH; [reflexivity|exact A].
      * apply map_cons_inj in S as [S1 S2].
        pose proof (appendChars_erase c c' d _ _ (eraseFrame_kids S1)) as A.
        destruct (appendChars c d (f_kids f)) as [ks k],
          (appendChars c' d (f_kids f')) as [ks' k']. cbn in A.
        apply IH; [|exact T]. cbn. f_equal; [|exact S2].
        apply withKids_erase; assumption.
    + destruct (isVoid tag).
      * pose proof (@appendNode_erase (Elem c tag attrs [])
                      (Elem c' tag attrs []) _ _ _ _ eq_refl S T) as [A B].
        destruct (appendNode (Elem c tag attrs []) st top) as [s1 t1],
          (appendNode (Elem c' tag attrs []) st' top') as [s2 t2].
        cbn in A, B. apply IH; assumption.
      * apply IH; [|exact T]. cbn. f_equal. exact S.
    + rewrite (existsb_tag_erase tag _ _ S).
      destruct (existsb _ st').
      * pose proof (@closeUntil_erase tag st st' [] [] top top' eq_refl S T)
          as [A B].
        destruct (closeUntil tag [] st top) as [s1 t1],
          (closeUntil tag [] st' top') as [s2 t2].
        cbn in A, B. apply IH; assumption.
      * apply IH; assumption.
Qed.

(** The markup of a parsed fragment does not depend on the identities
    its nodes were given. *)
Lemma innerHTML_parse_uid m c :
  innerHTML (fst (parseHTML m c)) = innerHTML (fst (parseHTML m 0)).
Proof.
  rewrite <- (innerHTML_erase (fst (parseHTML m c))).
  rewrite <- (innerHTML_erase (fst (parseHTML m 0))).
  unfold parseHTML. f_equal. apply build_erase; reflexivity.
Qed.

End DomFacts.

(* ================================================================== *)
(** ** History manager: the cursor invariant and undo/redo *)

Module HistoryFacts.
Import Js Dom Editor.

Lemma historyInv_ext s s' :
  histOf s' = histOf s -> historyInv s -> historyInv s'.
Proof.
  unfold histOf, historyInv. intros E H.
  injection E as E1 E2. rewrite E1, E2. exact H.
Qed.

Lemma setInnerHTML_hist m s : histOf (setInnerHTML m s) = histOf s.
Proof. unfold setInnerHTML. destruct (parseHTML m (nextUid s)). reflexivity. Qed.

Lemma setInnerHTML_flag m s :
  isPerformingUndoRedo (setInnerHTML m s) = isPerformingUndoRedo s.
Proof. unfold setInnerHTML. destruct (parseHTML m (nextUid s)). reflexivity. Qed.

Lemma replayEntry_hist s : histOf (snd (replayEntry s)) = histOf s.
Proof.
  unfold replayEntry.
  destruct (at_ (editorHistory s) (historyIndex s)) as [e|]; [|reflexivity].
  cbn [snd]. destruct (selection e); unfold histOf; cbn;
    change (histOf (setInnerHTML (content e) s) = histOf s);
    apply setInnerHTML_hist.
Qed.

Lemma createHistoryEntry_inv s :
  historyInv s -> historyInv (createHistoryEntry s).
Proof.
  intros H. unfold createHistoryEntry.
  destruct (isPerformingUndoRedo s); [exact H|].
  right. cbn. unfold lengthZ. rewrite length_app. cbn. lia.
Qed.

Lemma createHistoryEntry_fresh s :
  isPerformingUndoRedo s = false ->
  (historyIndex (createHistoryEntry s)
   = lengthZ (editorHistory (createHistoryEntry s)) - 1)%Z
  /\ at_ (editorHistory (createHistoryEntry s))
       (historyIndex (createHistoryEntry s))
     = Some {| content := innerHTML (editor s);
               selection := saveSelection s; timestamp := now s |}
  /\ editor (createHistoryEntry s) = editor s
  /\ isPerformingUndoRedo (createHistoryEntry s) = false.
Proof.
  intros F. unfold createHistoryEntry. rewrite F. cbn.
  split; [reflexivity|]. split; [|split; [reflexivity|exact F]].
  match goal with |- context [?x ++ [_]] => set (tr := x) end.
  unfold at_, lengthZ. rewrite length_app. cbn.
  destruct (Z.ltb_spec (Z.of_nat (length tr + 1) - 1) 0); [lia|].
  replace (Z.to_nat (Z.of_nat (length tr + 1) - 1)) with (length tr) by lia.
  rewrite nth_error_app2 by lia. rewrite Nat.sub_diag. reflexivity.
Qed.

Lemma customUndo_spec s :
  (customUndo s = (false, s)
   /\ (editorHistory s = [] \/ (historyIndex s <= 0)%Z))
  \/ (editorHistory (snd (customUndo s)) = editorHistory s
      /\ historyIndex (snd (customUndo s)) = (historyIndex s - 1)%Z
      /\ (0 < historyIndex s)%Z
      /\ forall e,
          at_ (editorHistory s) (historyIndex s - 1) = Some e ->
          fst (customUndo s) = true
          /\ editor (snd (customUndo s))
             = fst (parseHTML (content e) (nextUid s))).
Proof.
  unfold customUndo.
  destruct (Nat.eqb_spec (length (editorHistory s)) 0) as [E|E].
  { left. split; [reflexivity|]. left.
    destruct (editorHistory s); [reflexivity|discriminate]. }
  destruct (Z.leb_spec (historyIndex s) 0) as [L|L].
  { left. split; [reflexivity|]. right. exact L. }
  right. cbn [orb].
  set (s2 := with_historyIndex _ _).
  pose proof (replayEntry_hist s2) as Hh.
  destruct (replayEntry s2) as [ok s3] eqn:R. cbn [snd fst] in *.
  unfold histOf in Hh. cbn in Hh. injection Hh as H1 H2.
  split; [exact H1|]. split; [exact H2|]. split; [exact L|].
  intros e He. unfold replayEntry in R. subst s2. cbn in R.
  rewrite He in R. injection R as R1 R2. subst ok s3. split; [reflexivity|].
  unfold setInnerHTML. cbn.
  destruct (parseHTML (content e) (nextUid s)).
  destruct (selection e); reflexivity.
Qed.

Lemma customRedo_spec s :
  (customRedo s = (false, s)
   /\ (editorHistory s = []
       \/ (lengthZ (editorHistory s) - 1 <= historyIndex s)%Z))
  \/ (editorHistory (snd (customRedo s)) = editorHistory s
      /\ historyIndex (snd (customRedo s)) = (historyIndex s + 1)%Z
      /\ (historyIndex s < lengthZ (editorHistory s) - 1)%Z
      /\ forall e,
          at_ (editorHistory s) (historyIndex s + 1) = Some e ->
          fst (customRedo s) = true
          /\ editor (snd (customRedo s))
             = fst (parseHTML (content e) (nextUid s))).
Proof.
  unfold customRedo.
  destruct (Nat.eqb_spec (length (editorHistory s)) 0) as [E|E].
  { left. split; [reflexivity|]. left.
    destruct (editorHistory s); [reflexivity|discriminate]. }
  destruct (Z.leb_spec (lengthZ (editorHistory s) - 1) (historyIndex s))
    as [L|L].
  { left. split; [reflexivity|]. right. exact L. }
  right. cbn [orb].
  set (s2 := with_historyIndex _ _).
  pose proof (replayEntry_hist s2) as Hh.
  destruct (replayEntry s2) as [ok s3] eqn:R. cbn [snd fst] in *.
  unfold histOf in Hh. cbn in Hh. injection Hh as H1 H2.
  split; [exact H1|]. split; [exact H2|]. split; [exact L|].
  intros e He. unfold replayEntry in R. subst s2. cbn in R.
  rewrite He in R. injection R as R1 R2. subst ok s3. split; [reflexivity|].
  unfold setInnerHTML. cbn.
  destruct (parseHTML (content e) (nextUid s)).
  destruct (selection e); reflexivity.
Qed.

Lemma customUndo_inv s : historyInv s -> historyInv (snd (customUndo s)).
Proof.
  intros H. destruct (customUndo_spec s) as [[E _]|(E1 & E2 & L & _)].
  - rewrite E. exact H.
  - unfold historyInv in *. rewrite E1, E2. right.
    destruct H as [[H1 H2]|H]; lia.
Qed.

Lemma customRedo_inv s : historyInv s -> historyInv (snd (customRedo s)).
Proof.
  intros H. destruct (customRedo_spec s) as [[E _]|(E1 & E2 & L & _)].
  - rewrite E. exact H.
  - unfold historyInv in *. rewrite E1, E2. right.
    destruct H as [[H1 H2]|H].
    + rewrite H1 in L. cbn in L. lia.
    + lia.
Qed.

Lemma clearSearch_hist s : histOf (snd (clearSearch s)) = histOf s.
Proof.
  unfold clearSearch. destruct (0 <? _); [|reflexivity].
  destruct (unwrapAll _ _). reflexivity.
Qed.

Lemma clearSearch_flag s :
  isPerformingUndoRedo (snd (clearSearch s)) = isPerformingUndoRedo s.
Proof.
  unfold clearSearch. destruct (0 <? _); [|reflexivity].
  destruct (unwrapAll _ _). reflexivity.
Qed.

Lemma highlightMatch_hist t m s :
  histOf (stateOf (highlightMatch t m s)) = histOf s.
Proof.
  unfold highlightMatch. destruct m as [u i].
  destruct (findText u (editor s)); [|reflexivity].
  destruct (_ <? i); [reflexivity|].
  destruct (_ <? _); reflexivity.
Qed.

Lemma highlightLoop_hist t todo : forall s,
  histOf (stateOf (highlightLoop t todo s)) = histOf s.
Proof.
  induction todo as [|m rest IH]; intros s; [reflexivity|].
  cbn [highlightLoop]. pose proof (highlightMatch_hist t m s) as H.
  destruct (highlightMatch t m s) as [v s'|e s']; cbn [stateOf] in *.
  - rewrite IH. exact H.
  - exact H.
Qed.

Lemma selectSearchResult_hist i s :
  histOf (snd (selectSearchResult i s)) = histOf s.
Proof.
  unfold selectSearchResult. destruct (_ =? 0); [reflexivity|].
  destruct (at_ _ _); reflexivity.
Qed.

Lemma searchAndHighlight_hist t s :
  histOf (stateOf (searchAndHighlight t s)) = histOf s.
Proof.
  unfold searchAndHighlight. destruct t as [|c t].
  - apply clearSearch_hist.
  - match goal with |- context [highlightLoop ?a ?b ?c] =>
      pose proof (highlightLoop_hist a b c) as H;
      destruct (highlightLoop a b c) as [v s3|e s3] end;
    cbn [stateOf] in *.
    + transitivity (histOf s3).
      { destruct (0 <? _); [|reflexivity].
        rewrite selectSearchResult_hist. reflexivity. }
      rewrite H. transitivity (histOf (snd (clearSearch s)));
        [reflexivity|apply clearSearch_hist].
    + rewrite H. transitivity (histOf (snd (clearSearch s)));
        [reflexivity|apply clearSearch_hist].
Qed.

Lemma findNext_hist s : histOf (snd (findNext s)) = histOf s.
Proof.
  unfold findNext. destruct (_ =? 0); [reflexivity|].
  rewrite selectSearchResult_hist. destruct (_ <=? _)%Z; reflexivity.
Qed.

Lemma findPrevious_hist s : histOf (snd (findPrevious s)) = histOf s.
Proof.
  unfold findPrevious. destruct (_ =? 0); [reflexivity|].
  rewrite selectSearchResult_hist. destruct (_ <? _)%Z; reflexivity.
Qed.

Lemma setTimeout_hist t d s : histOf (setTimeout t d s) = histOf s.
Proof. reflexivity. Qed.

Lemma postMessage_hist m s : histOf (postMessage m s) = histOf s.
Proof. reflexivity. Qed.

Lemma with_docSelection_hist v s : histOf (with_docSelection v s) = histOf s.
Proof. reflexivity. Qed.

Lemma with_nextUid_hist v s : histOf (with_nextUid v s) = histOf s.
Proof. reflexivity. Qed.

Lemma with_editor_hist v s : histOf (with_editor v s) = histOf s.
Proof. reflexivity. Qed.

Lemma dispatchInput_inv s : historyInv s -> historyInv (dispatchInput s).
Proof.
  intros H. unfold dispatchInput.
  eapply historyInv_ext; [apply postMessage_hist|].
  destruct (isPerformingUndoRedo s); [exact H|].
  apply createHistoryEntry_inv, H.
Qed.

Lemma execInsertText_inv span text s :
  historyInv s -> historyInv (execInsertText span text s).
Proof.
  intros H. unfold execInsertText. apply dispatchInput_inv.
  eapply historyInv_ext; [apply with_docSelection_hist|].
  eapply historyInv_ext; [apply with_nextUid_hist|].
  eapply historyInv_ext; [apply with_editor_hist|exact H].
Qed.

Lemma replaceSelection_inv t s :
  historyInv s -> historyInv (stateOf (replaceSelection t s)).
Proof.
  intros H. unfold replaceSelection.
  destruct (_ || _); [exact H|].
  pose proof (createHistoryEntry_inv H) as H1.
  destruct (at_ _ _); [|exact H1]. cbn [stateOf].
  eapply historyInv_ext; [apply setTimeout_hist|].
  eapply historyInv_ext; [apply postMessage_hist|].
  eapply historyInv_ext; [apply setTimeout_hist|].
  apply execInsertText_inv.
  eapply historyInv_ext; [apply with_docSelection_hist|exact H1].
Qed.

Lemma replaceAll_inv t r s :
  historyInv s -> historyInv (stateOf (replaceAll t r s)).
Proof.
  intros H. unfold replaceAll. destruct t as [|c t]; [exact H|].
  pose proof (createHistoryEntry_inv H) as H1.
  pose proof (clearSearch_hist (createHistoryEntry s)) as H2.
  destruct (compileLiteral _); cbn [stateOf].
  - eapply historyInv_ext; [apply postMessage_hist|].
    eapply historyInv_ext; [apply setTimeout_hist|].
    eapply historyInv_ext; [apply setInnerHTML_hist|].
    eapply historyInv_ext; [exact H2|exact H1].
  - eapply historyInv_ext; [exact H2|exact H1].
Qed.

Lemma setContent_hist html s : histOf (setContent html s) = histOf s.
Proof.
  unfold setContent. destruct (isBlank html).
  - apply setInnerHTML_hist.
  - rewrite setTimeout_hist. apply setInnerHTML_hist.
Qed.

Lemma restoreSelection_hist sel s :
  histOf (snd (restoreSelection sel s)) = histOf s.
Proof.
  unfold restoreSelection. destruct sel; [|reflexivity].
  destruct (_ && _); reflexivity.
Qed.

Lemma runTask_inv t s : historyInv s -> historyInv (runTask t s).
Proof.
  intros H. destruct t; cbn [runTask].
  - eapply historyInv_ext; [apply restoreSelection_hist|exact H].
  - exact H.
  - apply createHistoryEntry_inv, H.
  - eapply historyInv_ext; [apply searchAndHighlight_hist|exact H].
  - unfold wrapUnwrappedText. destruct (wrapKids _ _). exact H.
Qed.

Lemma step_inv s s' : step s s' -> historyInv s -> historyInv s'.
Proof.
  intros St H. destruct St.
  - unfold domContentLoaded.
    eapply historyInv_ext; [apply setTimeout_hist|].
    destruct (trim _); [|exact H].
    eapply historyInv_ext; [apply setInnerHTML_hist|exact H].
  - unfold userEdit. apply dispatchInput_inv.
    eapply historyInv_ext; [apply with_nextUid_hist|].
    eapply historyInv_ext; [apply with_docSelection_hist|].
    eapply historyInv_ext; [apply with_editor_hist|exact H].
  - apply customUndo_inv, H.
  - apply customRedo_inv, H.
  - apply createHistoryEntry_inv, H.
  - eapply historyInv_ext; [apply clearSearch_hist|exact H].
  - eapply historyInv_ext; [apply searchAndHighlight_hist|exact H].
  - eapply historyInv_ext; [apply findNext_hist|exact H].
  - eapply historyInv_ext; [apply findPrevious_hist|exact H].
  - apply replaceSelection_inv, H.
  - apply replaceAll_inv, H.
  - eapply historyInv_ext; [apply setContent_hist|exact H].
  - apply runTask_inv, H.
Qed.

Lemma reachable_inv s : reachable s -> historyInv s.
Proof.
  induction 1 as [|s s' R IH St].
  - left. split; reflexivity.
  - exact (step_inv St IH).
Qed.

End HistoryFacts.

(* ================================================================== *)
(** ** History manager: the claims *)

Module HistoryClaims.
Import Js Dom Editor HistoryFacts.

Lemma rev_case {A : Type} (l : list A) :
  l = [] \/ exists x r, l = r ++ [x].
Proof.
  induction l as [|x r _] using rev_ind; [left; reflexivity|].
  right. exists x, r. reflexivity.
Qed.

Lemma createHistoryEntry_flag s :
  isPerformingUndoRedo (createHistoryEntry s) = isPerformingUndoRedo s.
Proof.
  unfold createHistoryEntry.
  destruct (isPerformingUndoRedo s) eqn:F; [exact F|exact F].
Qed.

Lemma userEdit_flag doc sel s :
  isPerformingUndoRedo (userEdit doc sel s) = isPerformingUndoRedo s.
Proof.
  unfold userEdit, dispatchInput.
  set (s0 := with_nextUid _ _).
  change (isPerformingUndoRedo
            (if isPerformingUndoRedo s0 then s0 else createHistoryEntry s0)
          = isPerformingUndoRedo s0).
  destruct (isPerformingUndoRedo s0) eqn:F; [exact F|].
  rewrite createHistoryEntry_flag. exact F.
Qed.

Lemma applyEdits_flag edits : forall s,
  isPerformingUndoRedo (applyEdits edits s) = isPerformingUndoRedo s.
Proof.
  induction edits as [|e r IH]; intros s; [reflexivity|].
  cbn. unfold applyEdits in IH. rewrite IH. apply userEdit_flag.
Qed.

(** Right after a recorded edit the cursor is on the last entry, and
    that entry holds the markup of the document. *)
Lemma userEdit_last doc sel s :
  isPerformingUndoRedo s = false ->
  let s' := userEdit doc sel s in
  (historyIndex s' = lengthZ (editorHistory s') - 1)%Z
  /\ exists e, at_ (editorHistory s') (historyIndex s') = Some e
               /\ content e = getContent s'.
Proof.
  intros F. cbn zeta. unfold userEdit, dispatchInput.
  set (s0 := with_nextUid _ _).
  assert (F0 : isPerformingUndoRedo s0 = false) by exact F.
  rewrite F0.
  destruct (createHistoryEntry_fresh s0 F0) as (A & B & C & _).
  split; [exact A|]. eexists. split; [exact B|].
  cbn. unfold getContent. cbn. rewrite C. reflexivity.
Qed.

Section RoundTrip.
Variable h : list historyEntry.
Variable target : jsstring.
Variable doc : list node.
Hypothesis h_last :
  exists e, at_ h (lengthZ h - 1) = Some e /\ content e = target.

Lemma undo1_onTrack s :
  onTrack h target doc s ->
  onTrack h target doc (undo1 s)
  /\ (historyIndex s - 1 <= historyIndex (undo1 s))%Z.
Proof.
  intros (H1 & H2 & H3). unfold undo1.
  destruct (customUndo_spec s) as [[E _]|(E1 & E2 & L & _)].
  - rewrite E. cbn. split; [repeat split; assumption || lia|lia].
  - split; [|lia]. split; [congruence|]. split; [lia|]. intros C. lia.
Qed.

Lemma redo1_onTrack s :
  onTrack h target doc s ->
  onTrack h target doc (redo1 s)
  /\ (Z.min (lengthZ h - 1) (historyIndex s + 1) <= historyIndex (redo1 s))%Z.
Proof.
  intros (H1 & H2 & H3). unfold redo1.
  destruct (customRedo_spec s) as [[E G]|(E1 & E2 & L & K)].
  - rewrite E. cbn. split; [repeat split; assumption || lia|].
    rewrite H1 in G. destruct G as [G|G]; [|lia].
    rewrite G in H2. cbn in H2. lia.
  - rewrite H1 in *. split; [|lia].
    split; [exact E1|]. split; [lia|]. intros C.
    destruct h_last as (e & He & Hc).
    replace (historyIndex s + 1)%Z with (lengthZ h - 1)%Z in K by lia.
    destruct (K e He) as [_ Ed]. right. exists (nextUid s).
    rewrite Ed, Hc. reflexivity.
Qed.

Lemma undo_iter n : forall s,
  onTrack h target doc s ->
  onTrack h target doc (Nat.iter n undo1 s)
  /\ (historyIndex s - Z.of_nat n <= historyIndex (Nat.iter n undo1 s))%Z.
Proof.
  induction n as [|n IH]; intros s H.
  - cbn. split; [exact H|lia].
  - destruct (IH s H) as [A B]. rewrite Nat.iter_succ.
    destruct (undo1_onTrack A) as [C D]. split; [exact C|lia].
Qed.

Lemma redo_iter n : forall s,
  onTrack h target doc s ->
  onTrack h target doc (Nat.iter n redo1 s)
  /\ (Z.min (lengthZ h - 1) (historyIndex s + Z.of_nat n)
      <= historyIndex (Nat.iter n redo1 s))%Z.
Proof.
  induction n as [|n IH]; intros s H.
  - cbn. split; [exact H|]. destruct H as (_ & H & _). lia.
  - destruct (IH s H) as [A B]. rewrite Nat.iter_succ.
    destruct (redo1_onTrack A) as [C D]. split; [exact C|lia].
Qed.

Lemma undo_redo_onTrack n s :
  onTrack h target doc s ->
  (historyIndex s = lengthZ h - 1)%Z ->
  let s2 := Nat.iter n redo1 (Nat.iter n undo1 s) in
  (editor s2 = doc \/ exists c, editor s2 = fst (parseHTML target c))
  /\ editorHistory s2 = h
  /\ (historyIndex s2 = lengthZ h - 1)%Z.
Proof.
  intros H I. cbn zeta.
  destruct (undo_iter n H) as [A B].
  destruct (redo_iter n A) as [(C1 & C2 & C3) D].
  assert (E : (historyIndex (Nat.iter n redo1 (Nat.iter n undo1 s))
               = lengthZ h - 1)%Z) by lia.
  split; [exact (C3 E)|]. split; [exact C1|exact E].
Qed.
End RoundTrip.



(** C2.  In every reachable state the cursor of a non-empty history
    points at one of its entries; recording, undo and redo each keep
    the cursor invariant; and recording while the cursor is before the
    last entry drops the entries behind the cursor, appends the new
    one and moves the cursor onto it. *)
Theorem history_cursor_invariant :
  (forall s, reachable s -> editorHistory s <> [] ->
             (0 <= historyIndex s < lengthZ (editorHistory s))%Z)
  /\ (forall s, historyInv s ->
                historyInv (createHistoryEntry s)
                /\ historyInv (snd (customUndo s))
                /\ historyInv (snd (customRedo s)))
  /\ (forall s, historyInv s ->
                isPerformingUndoRedo s = false ->
                (historyIndex s < lengthZ (editorHistory s) - 1)%Z ->
                let s' := createHistoryEntry s in
                editorHistory s'
                = firstn (Z.to_nat (historyIndex s) + 1) (editorHistory s)
                  ++ [{| content := getContent s;
                         selection := saveSelection s;
                         timestamp := now s |}]
                /\ (historyIndex s' = lengthZ (editorHistory s') - 1)%Z
                /\ (historyIndex s' = historyIndex s + 1)%Z).
Proof.
  split; [|split].
  - intros s R Ne. destruct (reachable_inv R) as [[E _]|H]; [tauto|exact H].
  - intros s H. split; [|split].
    + apply createHistoryEntry_inv, H.
    + apply customUndo_inv, H.
    + apply customRedo_inv, H.
  - intros s H F Lt. cbn zeta.
    assert (B : (0 <= historyIndex s)%Z).
    { destruct H as [[E1 E2]|H]; [|lia]. rewrite E1 in Lt. cbn in Lt. lia. }
    unfold createHistoryEntry. rewrite F. cbn.
    destruct (Z.leb_spec 0 (historyIndex s)); [|lia].
    destruct (Z.ltb_spec (historyIndex s) (lengthZ (editorHistory s) - 1));
      [|lia]. cbn [andb].
    replace (Z.to_nat (historyIndex s + 1)) with (Z.to_nat (historyIndex s) + 1)
      by lia.
    split; [reflexivity|]. split; [reflexivity|].
    unfold lengthZ in *. rewrite length_app, length_firstn. cbn. lia.
Qed.

Lemma history_cursor_invariant_witness :
  reachable branchPoint
  /\ (0 <= historyIndex branchPoint < lengthZ (editorHistory branchPoint))%Z
  /\ historyInv (createHistoryEntry branchPoint)
  /\ length (editorHistory (createHistoryEntry branchPoint)) = 2
  /\ historyIndex (createHistoryEntry branchPoint) = 1%Z.
Proof.
  destruct history_cursor_invariant as (A & B & C).
  assert (R : reachable branchPoint).
  { unfold branchPoint, applyEdits. cbn [fold_left fst snd].
    eapply reach_step; [|apply step_timer].
    eapply reach_step; [|apply step_undo].
    eapply reach_step; [|apply step_edit].
    eapply reach_step; [|apply step_edit].
    apply reach_initial. }
  assert (Ne : editorHistory branchPoint <> []) by (vm_compute; discriminate).
  assert (I : historyInv branchPoint) by (right; vm_compute; split; congruence).
  split; [exact R|]. split; [exact (A _ R Ne)|].
  split; [exact (proj1 (B _ I))|].
  assert (F : isPerformingUndoRedo branchPoint = false) by reflexivity.
  assert (Lt : (historyIndex branchPoint
                < lengthZ (editorHistory branchPoint) - 1)%Z)
    by (vm_compute; reflexivity).
  destruct (C _ I F Lt) as (C1 & C2 & C3).
  split.
  - rewrite C1, length_app, length_firstn. vm_compute. reflexivity.
  - rewrite C3. vm_compute. reflexivity.
Defined.

(** C3.  With an empty history, or with the cursor at or before the
    first entry, [customUndo] answers [false] and changes nothing:
    neither the document, nor the entries, nor the cursor. *)
Theorem customUndo_at_start (s : state) :
  editorHistory s = [] \/ (historyIndex s <= 0)%Z ->
  customUndo s = (false, s).
Proof.
  intros [E|L]; unfold customUndo.
  - rewrite E. reflexivity.
  - destruct (Z.leb_spec (historyIndex s) 0); [|lia].
    rewrite orb_true_r. reflexivity.
Qed.

Lemma customUndo_at_start_witness :
  customUndo initial = (false, initial)
  /\ customUndo (applyEdits [(divOf 1 "a", None)] initial)
     = (false, applyEdits [(divOf 1 "a", None)] initial).
Proof.
  split.
  - apply customUndo_at_start. left. reflexivity.
  - apply customUndo_at_start. right. vm_compute. discriminate.
Defined.

(** C10.  With no search results, or with no current match,
    [replaceSelection] answers [false] and changes nothing: no history
    entry, no change of the document, no message to the host, no
    deferred call. *)
Theorem replaceSelection_guard (replaceText : jsstring) (s : state) :
  searchResults s = [] \/ (searchIndex s < 0)%Z ->
  replaceSelection replaceText s = Returned false s.
Proof.
  intros [E|L]; unfold replaceSelection.
  - rewrite E. reflexivity.
  - destruct (Z.ltb_spec (searchIndex s) 0); [|lia].
    rewrite orb_true_r. reflexivity.
Qed.

Lemma replaceSelection_guard_witness :
  replaceSelection (js "x") initial = Returned false initial.
Proof. apply replaceSelection_guard. left. reflexivity. Defined.

End HistoryClaims.

(* ================================================================== *)
(** ** Table controller: the claims *)

Module TableClaims.
Import Js Table.

Lemma tables_updateTable u f s :
  tables (updateTable u f s)
  = map (fun t => if Nat.eqb (t_uid t) u then f t else t) (tables s).
Proof. reflexivity. Qed.

Lemma nth_error_update_fixed u f s k t :
  nth_error (tables s) k = Some t ->
  f t = t ->
  nth_error (tables (updateTable u f s)) k = Some t.
Proof.
  intros N F. rewrite tables_updateTable, nth_error_map, N. cbn.
  destruct (Nat.eqb (t_uid t) u); congruence.
Qed.

Lemma deleteRowOf_one_row i t : rowCount t = 1 -> deleteRowOf i t = t.
Proof.
  unfold rowCount, deleteRowOf. intros E. rewrite E. reflexivity.
Qed.

Lemma deleteColumnOf_one_column i t : oneColumn t -> deleteColumnOf i t = t.
Proof.
  unfold oneColumn, deleteColumnOf. intros H.
  destruct (rows t) as [|first rest] eqn:E; [reflexivity|].
  rewrite (H first (or_introl eq_refl)). reflexivity.
Qed.

Lemma length_removeNth {A : Type} (i : nat) (l : list A) :
  i < length l -> length (removeNth i l) = length l - 1.
Proof.
  revert i. induction l as [|x r IH]; intros [|i] L; cbn in *; try lia.
  rewrite IH by lia. lia.
Qed.

Lemma deleteRowOf_keeps_a_row i t :
  1 <= rowCount t ->
  1 <= rowCount (deleteRowOf i t) /\ rowCount t - 1 <= rowCount (deleteRowOf i t).
Proof.
  unfold rowCount, deleteRowOf. intros L.
  destruct (Nat.ltb_spec 1 (length (rows t))) as [G|G]; [|lia].
  set (idx := match i with Some j => j | None => _ end).
  unfold inRange.
  destruct (Z.leb_spec 0 idx); cbn [andb]; [|lia].
  destruct (Z.ltb_spec idx (Z.of_nat (length (rows t)))); [|lia].
  cbn [rows with_rows]. rewrite length_removeNth by lia. lia.
Qed.

Lemma deleteColumnOf_rows i t :
  rowCount (deleteColumnOf i t) = rowCount t.
Proof.
  unfold rowCount, deleteColumnOf.
  destruct (rows t) as [|first rest] eqn:E; [rewrite E; reflexivity|].
  destruct (1 <? length first); [|rewrite E; reflexivity].
  cbn [rows with_rows]. rewrite length_map. reflexivity.
Qed.

Lemma deleteColumnOf_keeps_a_column i n t :
  rectangular n t -> 1 <= n ->
  forall cells, In cells (rows (deleteColumnOf i t)) -> 1 <= length cells.
Proof.
  unfold rectangular, deleteColumnOf. intros R L cells.
  destruct (rows t) as [|first rest] eqn:E.
  - rewrite E. intros [].
  - pose proof (R first (or_introl eq_refl)) as F.
    destruct (Nat.ltb_spec 1 (length first)) as [G|G].
    + cbn [rows with_rows]. intros I. apply in_map_iff in I.
      destruct I as (c0 & Hc & I). pose proof (R c0 I) as C0. subst cells.
      unfold inRange.
      destruct (_ && _) eqn:B; [|lia].
      apply andb_true_iff in B. destruct B as [B1 B2].
      apply Z.leb_le in B1. apply Z.ltb_lt in B2.
      rewrite length_removeNth by lia. lia.
    + rewrite E. intros I. rewrite (R cells I). exact L.
Qed.

(** C6.  When the table at place [k] of the document has exactly one
    row, [deleteTableRow] leaves it as it is, and when each of its rows
    has exactly one cell, so does [deleteTableColumn], whatever table
    reference and index are passed: row count and cell counts are those
    of before.  Hence a table keeps a row once it has one, and a table
    whose rows all have the same positive number of cells keeps a cell
    in every row. *)
Theorem delete_last_row_or_column_refused
  (s : state) (tableElement : option nat) (index : option Z)
  (k : nat) (t : table) :
  nth_error (tables s) k = Some t ->
  (rowCount t = 1 ->
   nth_error (tables (deleteTableRow tableElement index s)) k = Some t)
  /\ (oneColumn t ->
      nth_error (tables (deleteTableColumn tableElement index s)) k = Some t)
  /\ (1 <= rowCount t ->
      exists t', nth_error (tables (deleteTableRow tableElement index s)) k
                 = Some t'
                 /\ 1 <= rowCount t')
  /\ (forall n, rectangular n t -> 1 <= n ->
      exists t', nth_error (tables (deleteTableColumn tableElement index s)) k
                 = Some t'
                 /\ rowCount t' = rowCount t
                 /\ forall cells, In cells (rows t') -> 1 <= length cells).
Proof.
  intros N. split; [|split; [|split]].
  - intros E. unfold deleteTableRow.
    destruct (resolveTable tableElement s) as [u|]; [|exact N].
    apply nth_error_update_fixed; [exact N|].
    apply deleteRowOf_one_row, E.
  - intros E. unfold deleteTableColumn.
    destruct (resolveTable tableElement s) as [u|]; [|exact N].
    apply nth_error_update_fixed; [exact N|].
    apply deleteColumnOf_one_column, E.
  - intros L. unfold deleteTableRow.
    destruct (resolveTable tableElement s) as [u|]; [|eauto].
    change (tables (postMessage Editor.ContentChanged
                      (updateTable u (deleteRowOf index) s)))
      with (tables (updateTable u (deleteRowOf index) s)).
    rewrite tables_updateTable, nth_error_map, N. cbn [option_map].
    destruct (Nat.eqb (t_uid t) u); eexists; (split; [reflexivity|]).
    + apply deleteRowOf_keeps_a_row, L.
    + exact L.
  - intros n R L. unfold deleteTableColumn.
    destruct (resolveTable tableElement s) as [u|].
    + change (tables (postMessage Editor.ContentChanged
                        (updateTable u (deleteColumnOf index) s)))
        with (tables (updateTable u (deleteColumnOf index) s)).
      rewrite tables_updateTable, nth_error_map, N. cbn [option_map].
      destruct (Nat.eqb (t_uid t) u); eexists; (split; [reflexivity|]).
      * split; [apply deleteColumnOf_rows|].
        eapply deleteColumnOf_keeps_a_column; eassumption.
      * split; [reflexivity|]. intros cells I. rewrite (R cells I). exact L.
    + exists t. split; [exact N|]. split; [reflexivity|].
      intros cells I. rewrite (R cells I). exact L.
Qed.

(** The active table of one row and one cell: both deletions, called as
    the host calls them, are refused. *)
Lemma delete_last_row_or_column_refused_witness :
  let t := {| t_uid := 1; className := js "no-wrap"; marginLeft := [];
              marginTop := []; rows := [[js " "]];
              handles := [resizeHandle; dragHandle] |} in
  nth_error (tables (deleteTableRow (activeTable oneActiveTable) None
                       oneActiveTable)) 0 = Some t
  /\ nth_error (tables (deleteTableColumn (activeTable oneActiveTable) None
                          oneActiveTable)) 0 = Some t.
Proof.
  cbn zeta.
  set (t := {| t_uid := 1; className := js "no-wrap"; marginLeft := [];
               marginTop := []; rows := [[js " "]];
               handles := [resizeHandle; dragHandle] |}).
  assert (N : nth_error (tables oneActiveTable) 0 = Some t) by reflexivity.
  destruct (delete_last_row_or_column_refused oneActiveTable
              (activeTable oneActiveTable) None 0 N) as (A & B & _).
  split.
  - apply A. reflexivity.
  - apply B. intros cells [E|[]]. subst cells. reflexivity.
Defined.

(** What [activateTable] does to the class attribute when none of the
    four alignment classes occurs in it. *)
Lemma currentAlignment_default cls :
  (forall c, In c alignmentClasses -> includes c cls = false) ->
  currentAlignment cls = js "no-wrap".
Proof.
  intros H. unfold currentAlignment, alignmentClasses. cbn [map fold_left].
  rewrite !H; [reflexivity|..]; cbn; tauto.
Qed.

Lemma deactivate_own_handles hs :
  NoDup hs ->
  (forall h, In h hs -> h = resizeHandle \/ h = dragHandle) ->
  removeFirst dragHandle (removeFirst resizeHandle hs) = [].
Proof.
  intros D O. destruct hs as [|a [|b [|c r]]].
  - reflexivity.
  - destruct (O a (or_introl eq_refl)); subst a; reflexivity.
  - destruct (O a (or_introl eq_refl)); subst a;
      destruct (O b (or_intror (or_introl eq_refl))); subst b;
      try reflexivity;
      inversion D as [|? ? N _]; exfalso; apply N; left; reflexivity.
  - exfalso.
    assert (Oa := O a (or_introl eq_refl)).
    assert (Ob := O b (or_intror (or_introl eq_refl))).
    assert (Oc := O c (or_intror (or_intror (or_introl eq_refl)))).
    inversion D as [|? ? Na D1]. inversion D1 as [|? ? Nb _]. subst.
    cbn in Na, Nb.
    destruct Oa, Ob, Oc; subst; tauto.
Qed.

(** The click listener deactivates before it activates: once a click on
    a table that is not the active one has been handled, no other table
    carries a handle. *)
Lemma click_activation_exclusive u s :
  Forall ownHandles (tables s) ->
  activeTable s <> Some u ->
  activeTable (clickEditor (Some u) s) = Some u
  /\ forall t, In t (tables (clickEditor (Some u) s)) ->
               t_uid t <> u -> carriesHandles t = false.
Proof.
  intros O A. unfold clickEditor.
  assert (G : match activeTable s with
              | Some a => Nat.eqb a u
              | None => false
              end = false).
  { destruct (activeTable s) as [a|]; [|reflexivity].
    apply Nat.eqb_neq. intros E. apply A. subst a. reflexivity. }
  rewrite G. split.
  - reflexivity.
  - intros t I Ne.
    change (In t (tables (activateTable u (deactivateAllTables s)))) in I.
    unfold activateTable in I. rewrite tables_updateTable in I.
    apply in_map_iff in I. destruct I as (t0 & E & I).
    assert (T0 : tables (with_activeTable (Some u) (deactivateAllTables s))
                 = map (fun t =>
                          with_handles
                            (removeFirst dragHandle
                               (removeFirst resizeHandle (handles t))) t)
                     (tables s)).
    { unfold deactivateAllTables. destruct (activeTable _); reflexivity. }
    rewrite T0 in I. apply in_map_iff in I. destruct I as (t1 & E1 & I1).
    rewrite Forall_forall in O. destruct (O t1 I1) as [D Ow].
    rewrite (deactivate_own_handles D Ow) in E1.
    assert (U : t_uid t0 = t_uid t1) by (subst t0; reflexivity).
    destruct (Nat.eqb_spec (t_uid t0) u) as [Eu|Nu].
    + exfalso. apply Ne. subst t. cbn. exact Eu.
    + subst t t0. reflexivity.
Qed.

(** C8 (the code departs from the claim).  With a table active,
    [insertTable(1, 1)] and its deferred callback activate the new table
    without deactivating the old one: both tables carry the two handles
    afterwards.  A click on the new table instead leaves the handles on
    that table only. *)
Theorem insertTable_leaves_two_tables_with_handles :
  map carriesHandles (tables oneActiveTable) = [true]
  /\ activeTable oneActiveTable = Some 1
  /\ map carriesHandles (tables secondTableInserted) = [true; true]
  /\ activeTable secondTableInserted = Some 2
  /\ map carriesHandles (tables secondTableClicked) = [false; true]
  /\ activeTable secondTableClicked = Some 2.
Proof. repeat split; reflexivity. Qed.

End TableClaims.

(* ================================================================== *)
(** ** Content installation: the claim about [setContent] *)

Module ContentClaims.
Import Js Dom Editor.

Section FirstNode.
Variable u : nat.
Variable tag : jsstring.
Variable attrs : list attr.

Lemma bottomIs_withKids f ks fs :
  bottomIs u tag attrs (f :: fs) -> bottomIs u tag attrs (withKids f ks :: fs).
Proof. destruct fs; exact (fun H => H). Qed.

Lemma bottomIs_push g st :
  bottomIs u tag attrs st -> bottomIs u tag attrs (g :: st).
Proof. destruct st as [|f fs]; [intros []|exact (fun H => H)]. Qed.

Lemma closeFrame_bottom f ks :
  f_uid f = u /\ f_tag f = tag /\ f_attrs f = attrs ->
  exists ks', closeFrame (withKids f ks) = Elem u tag attrs ks'.
Proof.
  intros (E1 & E2 & E3). unfold closeFrame. cbn.
  rewrite E1, E2, E3. eauto.
Qed.

Lemma firstIs_appendNode n st top :
  firstIs u tag attrs [] st top ->
  firstIs u tag attrs [] (fst (appendNode n st top)) (snd (appendNode n st top)).
Proof.
  intros [(pre & ks & E)|[[E B]|(? & ? & ? & X)]]; [| |discriminate].
  - left. destruct st as [|f fs]; cbn.
    + exists (n :: pre), ks. rewrite E. reflexivity.
    + exists pre, ks. exact E.
  - destruct st as [|f fs]; [destruct B|]. right. left.
    cbn [appendNode fst snd].
    split; [exact E|]. apply bottomIs_withKids, B.
Qed.

Lemma appendChars_last c d pre e :
  isText e = false ->
  exists pre', fst (appendChars c d (pre ++ [e])) = pre' ++ [e].
Proof.
  intros T. destruct pre as [|x r]; cbn.
  - destruct e; [discriminate|]. exists [Text c d]. reflexivity.
  - destruct x.
    + eexists (_ :: r). reflexivity.
    + eexists (_ :: _ :: r). reflexivity.
Qed.

Lemma firstIs_closeUntil x st : forall extra top,
  firstIs u tag attrs [] st top ->
  firstIs u tag attrs [] (fst (closeUntil x extra st top))
    (snd (closeUntil x extra st top)).
Proof.
  induction st as [|f fs IH]; intros extra top F.
  - destruct F as [(pre & ks & E)|[[E B]|(? & ? & ? & X)]];
      [|destruct B|discriminate].
    left. cbn. exists (extra ++ pre), ks. rewrite E, app_assoc. reflexivity.
  - cbn [closeUntil].
    set (n := closeFrame (withKids f (extra ++ f_kids f))).
    assert (G : firstIs u tag attrs [] fs top
                \/ (fs = [] /\ top = []
                    /\ exists ks, n = Elem u tag attrs ks)).
    { destruct F as [F|[[E B]|(? & X & ?)]]; [left; left; exact F| |discriminate].
      destruct fs as [|g gs].
      - right. split; [reflexivity|]. split; [exact E|].
        exact (closeFrame_bottom f (extra ++ f_kids f) B).
      - left. right. left. split; [exact E|exact B]. }
    destruct (Js.eqb (f_tag f) x).
    + destruct G as [G|(E1 & E2 & ks & E3)].
      * apply firstIs_appendNode, G.
      * subst fs top. left. cbn. exists [], ks. rewrite E3. reflexivity.
    + destruct G as [G|(E1 & E2 & ks & E3)].
      * apply IH, G.
      * subst fs top. left. cbn. exists [], ks. rewrite E3. reflexivity.
Qed.

Lemma firstIs_closeAll st : forall extra top,
  firstIs u tag attrs extra st top ->
  exists ks rest, rev (closeAll extra st top) = Elem u tag attrs ks :: rest.
Proof.
  induction st as [|f fs IH]; intros extra top F.
  - cbn. destruct F as [(pre & ks & E)|[[E B]|(E & ? & ks & X)]].
    + subst top. rewrite app_assoc, rev_app_distr. cbn. eauto.
    + destruct B.
    + subst top extra. cbn. eauto.
  - cbn [closeAll]. apply IH.
    destruct F as [F|[[E B]|(? & X & ?)]]; [left; exact F| |discriminate].
    destruct fs as [|g gs].
    + right. right. split; [exact E|]. split; [reflexivity|].
      destruct (closeFrame_bottom f (extra ++ f_kids f) B) as [ks K].
      exists ks. rewrite K. reflexivity.
    + right. left. split; [exact E|exact B].
Qed.

Lemma build_first toks : forall st top c,
  firstIs u tag attrs [] st top ->
  exists ks rest, fst (build toks st top c) = Elem u tag attrs ks :: rest.
Proof.
  induction toks as [|tok r IH]; intros st top c F.
  - cbn. apply firstIs_closeAll, F.
  - destruct tok as [d|t a|t]; cbn [build].
    + destruct st as [|f fs].
      * destruct F as [(pre & ks & E)|[[E B]|(? & ? & ? & X)]];
          [|destruct B|discriminate].
        destruct (@appendChars_last c d pre (Elem u tag attrs ks) eq_refl)
          as [pre' P].
        subst top. destruct (appendChars c d (pre ++ [Elem u tag attrs ks]))
          as [ks' c']. cbn in P. subst ks'.
        apply IH. left. eauto.
      * destruct (appendChars c d (f_kids f)) as [ks' c']. apply IH.
        destruct F as [F|[[E B]|(? & X & ?)]]; [left; exact F| |discriminate].
        right. left. split; [exact E|]. apply bottomIs_withKids, B.
    + destruct (isVoid t).
      * pose proof (firstIs_appendNode (Elem c t a []) F) as A.
        destruct (appendNode (Elem c t a []) st top) as [st' top'].
        apply IH, A.
      * apply IH.
        destruct F as [F|[[E B]|(E & X & ks & Y)]]; [left; exact F| |discriminate].
        right. left. split; [exact E|]. apply bottomIs_push, B.
    + destruct (existsb _ st).
      * pose proof (firstIs_closeUntil t [] F) as A.
        destruct (closeUntil t [] st top) as [st' top'].
        apply IH, A.
      * apply IH, F.
Qed.
End FirstNode.

(** A fragment whose markup begins with [<div>] has a [div] element as
    its first node. *)
Lemma parse_div_first rest c :
  exists ks more,
    fst (parseHTML (js "<div>" ++ rest) c) = Elem c (js "div") [] ks :: more.
Proof.
  unfold parseHTML.
  change (lex (MText []) (js "<div>" ++ rest))
    with (TOpen (js "div") [] :: lex (MText []) rest).
  cbn [build]. change (isVoid (js "div")) with false. cbv iota.
  apply build_first.
  right. left. split; [reflexivity|]. cbn. repeat split; reflexivity.
Qed.

Lemma trimEnd_last a e :
  isWhiteSpace e = false -> trimEnd (a ++ [e]) = a ++ [e].
Proof.
  intros W. unfold trimEnd. rewrite rev_app_distr. cbn. rewrite W.
  cbn. rewrite rev_involutive. reflexivity.
Qed.

Lemma trim_wrapped html :
  trim (js "<div>" ++ html ++ js "</div>") = js "<div>" ++ html ++ js "</div>".
Proof.
  unfold trim.
  change (trimStart (js "<div>" ++ html ++ js "</div>"))
    with (js "<div>" ++ html ++ js "</div>").
  change (js "</div>") with (js "</div" ++ [62%N]).
  rewrite !app_assoc. apply trimEnd_last. reflexivity.
Qed.

Lemma wrapMarkup_cases html :
  (startsWithBlock (trim html) = false
   /\ wrapMarkup html = js "<div>" ++ html ++ js "</div>")
  \/ (startsWithBlock (trim html) = true /\ wrapMarkup html = html).
Proof.
  unfold wrapMarkup, startsWithBlock.
  destruct (startsWith (js "<div") (trim html)),
    (startsWith (js "<p") (trim html)),
    (startsWith (js "<h") (trim html)),
    (startsWith (js "<ul") (trim html)),
    (startsWith (js "<ol") (trim html)),
    (startsWith (js "<table") (trim html)); cbn; tauto.
Qed.

Lemma editor_setInnerHTML m s :
  editor (setInnerHTML m s) = fst (parseHTML m (nextUid s)).
Proof. unfold setInnerHTML. destruct (parseHTML m (nextUid s)). reflexivity. Qed.

Lemma editor_setContent html s :
  editor (setContent html s)
  = fst (parseHTML (installedMarkup html) (nextUid s)).
Proof.
  unfold setContent, installedMarkup. destruct (isBlank html).
  - apply editor_setInnerHTML.
  - change (editor (setInnerHTML (wrapMarkup html) s)
            = fst (parseHTML (wrapMarkup html) (nextUid s))).
    apply editor_setInnerHTML.
Qed.

(** C9 as the specification states it fails: markup that starts with a
    recognized prefix is installed as it is, and nothing makes it parse
    to a block.  [setContent("<p")] leaves the root without any child. *)
Lemma setContent_prefix_without_block :
  ~ (forall html s, rootHasBlockChild (setContent html s)).
Proof.
  intros H. destruct (H (js "<p") initial) as (n & I & _).
  exact I.
Qed.

(** Markup of a complete element that starts with [<p] and is not a
    block: it becomes the only child of the root. *)
Lemma setContent_inline_first :
  editor (setContent (js "<progress></progress>") initial)
  = [Elem 1 (js "progress") [] []].
Proof. reflexivity. Qed.

(** C9, amended.  Empty or blank markup makes the document exactly one
    empty block.  Markup whose trimmed form starts with none of the six
    prefixes is wrapped in a [div] before it is installed, and the root
    then has that [div] as its first child.  Markup that starts with one
    of the prefixes is installed as it is.  In every case the installed
    markup starts with one of the six prefixes, and in the first two the
    root has a block-level child. *)
Theorem setContent_installs_block (html : jsstring) (s : state) :
  (isBlank html = true ->
   editor (setContent html s)
   = [Elem (nextUid s) (js "div") [] [Elem (S (nextUid s)) (js "br") [] []]])
  /\ (isBlank html = false -> startsWithBlock (trim html) = false ->
      editor (setContent html s)
      = fst (parseHTML (js "<div>" ++ html ++ js "</div>") (nextUid s))
      /\ exists ks more,
          editor (setContent html s)
          = Elem (nextUid s) (js "div") [] ks :: more)
  /\ (isBlank html = false -> startsWithBlock (trim html) = true ->
      editor (setContent html s) = fst (parseHTML html (nextUid s)))
  /\ startsWithBlock (trim (installedMarkup html)) = true
  /\ (isBlank html = true \/ startsWithBlock (trim html) = false ->
      rootHasBlockChild (setContent html s)).
Proof.
  assert (A : isBlank html = true ->
              editor (setContent html s)
              = [Elem (nextUid s) (js "div") []
                   [Elem (S (nextUid s)) (js "br") [] []]]).
  { intros B. rewrite editor_setContent. unfold installedMarkup.
    rewrite B. reflexivity. }
  assert (W : isBlank html = false -> startsWithBlock (trim html) = false ->
              editor (setContent html s)
              = fst (parseHTML (js "<div>" ++ html ++ js "</div>") (nextUid s))
              /\ exists ks more,
                  editor (setContent html s)
                  = Elem (nextUid s) (js "div") [] ks :: more).
  { intros B N. rewrite editor_setContent. unfold installedMarkup. rewrite B.
    destruct (wrapMarkup_cases html) as [[_ E]|[E _]]; [|congruence].
    rewrite E. split; [reflexivity|]. apply parse_div_first. }
  split; [exact A|]. split; [exact W|]. split; [|split].
  - intros B Y. rewrite editor_setContent. unfold installedMarkup. rewrite B.
    destruct (wrapMarkup_cases html) as [[E _]|[_ E]]; [congruence|].
    rewrite E. reflexivity.
  - unfold installedMarkup. destruct (isBlank html); [reflexivity|].
    destruct (wrapMarkup_cases html) as [[_ E]|[Y E]]; rewrite E.
    + rewrite trim_wrapped. reflexivity.
    + exact Y.
  - intros [B|N].
    + eexists. rewrite (A B). split; [left; reflexivity|reflexivity].
    + destruct (isBlank html) eqn:B.
      * eexists. rewrite (A eq_refl). split; [left; reflexivity|reflexivity].
      * destruct (W eq_refl N) as [_ (ks & more & E)].
        eexists. rewrite E. split; [left; reflexivity|reflexivity].
Qed.

(** The empty markup of a new document, and plain text that has to be
    wrapped. *)
Lemma setContent_installs_block_witness :
  editor (setContent [] initial)
  = [Elem 1 (js "div") [] [Elem 2 (js "br") [] []]]
  /\ (exists ks more,
        editor (setContent (js "Hello world") initial)
        = Elem 1 (js "div") [] ks :: more)
  /\ rootHasBlockChild (setContent (js "Hello world") initial).
Proof.
  destruct (setContent_installs_block [] initial) as (A & _).
  destruct (setContent_installs_block (js "Hello world") initial)
    as (_ & W & _ & _ & R).
  split; [exact (A eq_refl)|].
  split; [exact (proj2 (W eq_refl eq_refl))|].
  apply R. right. reflexivity.
Defined.

End ContentClaims.

(* ================================================================== *)
(** ** Selection codec: the claim about [restoreSelection] *)

Module SelectionClaims.
Import Js Dom Editor.

Lemma textLength_cons u d rest :
  textLength ((u, d) :: rest) = length d + textLength rest.
Proof. unfold textLength. cbn. apply length_app. Qed.

(** The loop finds the first text node that reaches the offset, provided
    the offset is not beyond the text that is left. *)
Lemma walkToOffset_finds texts : forall cur k,
  texts <> [] ->
  cur <= k -> k <= cur + textLength texts ->
  exists pre u d post,
    texts = pre ++ (u, d) :: post
    /\ walkToOffset texts k cur
       = Some {| b_node := Text u d;
                 b_offset := k - (cur + textLength pre) |}
    /\ cur + textLength pre <= k
    /\ k <= cur + textLength pre + length d.
Proof.
  induction texts as [|[u d] rest IH]; intros cur k Ne L1 L2; [congruence|].
  rewrite textLength_cons in L2. cbn [walkToOffset].
  destruct (Nat.leb_spec k (cur + length d)) as [G|G].
  - exists [], u, d, rest. cbn. rewrite Nat.add_0_r.
    repeat split; try reflexivity; lia.
  - destruct rest as [|p rest'].
    { cbn in L2. lia. }
    destruct (IH (cur + length d) k) as (pre & u' & d' & post & E & W & B1 & B2).
    + discriminate.
    + lia.
    + lia.
    + exists ((u, d) :: pre), u', d', post. rewrite E.
      split; [reflexivity|]. rewrite textLength_cons.
      split; [|split; lia].
      rewrite <- E, W. do 2 f_equal. lia.
Qed.

Lemma no_text_children ks :
  flat_map textNodes ks = [] -> forall n, In n ks -> isText n = false.
Proof.
  intros E n I. destruct n as [u d|]; [|reflexivity].
  exfalso. apply in_split in I. destruct I as (a & b & I). subst ks.
  rewrite flat_map_app in E. cbn in E.
  destruct (flat_map textNodes a); discriminate.
Qed.

Lemma last_Some_In {A : Type} (l : list A) x :
  last (map Some l) None = Some x -> In x l.
Proof.
  induction l as [|a r IH]; [discriminate|].
  cbn [map last]. destruct r as [|b r'].
  - cbn. intros E. injection E as E. left. exact E.
  - intros E. right. apply IH. exact E.
Qed.

(** The position the lookup returns for an offset within the text. *)
Lemma getNodeAndOffset_at u t a ks k :
  k <= length (textContent ks) ->
  let root := Elem u t a ks in
  atOffset root (getNodeAndOffsetAtCharacterOffset root k) k
  /\ boundaryOk (getNodeAndOffsetAtCharacterOffset root k) = true.
Proof.
  intros L root. unfold getNodeAndOffsetAtCharacterOffset, atOffset.
  change (textNodes root) with (walkText ks).
  change (childNodes root) with ks.
  unfold textContent in L.
  destruct (walkText ks) as [|p rest] eqn:E.
  - cbn [walkToOffset]. cbn in L. assert (k = 0) by lia. subst k.
    destruct (last (map Some ks) None) as [lastNode|] eqn:La.
    + pose proof (no_text_children ks E lastNode (last_Some_In ks La)) as T.
      destruct lastNode; [discriminate|].
      split; [right; repeat split; reflexivity|].
      unfold boundaryOk. cbn. apply Nat.leb_refl.
    + destruct ks as [|x r].
      * split; [right; repeat split; reflexivity|reflexivity].
      * exfalso. clear -La. revert x La.
        induction r as [|y r IH]; intros x La; [discriminate|].
        apply (IH y). exact La.
  - destruct (@walkToOffset_finds (p :: rest) 0 k)
      as (pre & u' & d' & post & E' & W & B1 & B2).
    + discriminate.
    + lia.
    + exact L.
    + rewrite W. cbn in B1, B2 |- *. split.
      * left. exists pre, u', d', post. unfold textLength in *.
        repeat split; try assumption.
      * unfold boundaryOk. cbn. apply Nat.leb_le. unfold textLength in *. lia.
Qed.



End SelectionClaims.

(* ================================================================== *)
(** ** What the serialization shows of the text of a document *)

Module TextFacts.
Import Js Dom JsFacts DomFacts.

Lemma escapeText_app a b : escapeText (a ++ b) = escapeText a ++ escapeText b.
Proof.
  induction a as [|c a IH]; [reflexivity|].
  cbn [app escapeText]. rewrite IH, app_assoc. reflexivity.
Qed.

Lemma escapeText_plain t :
  (forall c, In c t -> isMarkupChar c = false) -> escapeText t = t.
Proof.
  induction t as [|c t IH]; intros P; [reflexivity|].
  cbn [escapeText]. rewrite IH by (intros c' I; apply P; right; exact I).
  pose proof (P c (or_introl eq_refl)) as M. unfold isMarkupChar in M.
  apply orb_false_iff in M. destruct M as [M M4].
  apply orb_false_iff in M. destruct M as [M M3].
  apply orb_false_iff in M. destruct M as [M1 M2].
  rewrite M1, M2, M3, M4. reflexivity.
Qed.

(** An occurrence of plain text in the data of a text node shows in what
    the serializer writes for the node. *)
Lemma occursIn_escapeText t d :
  (forall c, In c t -> isMarkupChar c = false) ->
  occursIn t d -> occursIn t (escapeText d).
Proof.
  intros P (a & b & E). subst d. rewrite !escapeText_app.
  rewrite (escapeText_plain t P). exists (escapeText a), (escapeText b).
  reflexivity.
Qed.

Lemma occursIn_flat_map {A : Type} (f : A -> jsstring) t x l :
  In x l -> occursIn t (f x) -> occursIn t (flat_map f l).
Proof.
  intros I O. apply in_split in I. destruct I as (l1 & l2 & E). subst l.
  rewrite flat_map_app. cbn [flat_map].
  apply occursIn_app_r, occursIn_app_l, O.
Qed.

Lemma forallb_In {A : Type} (f : A -> bool) l x :
  forallb f l = true -> In x l -> f x = true.
Proof. intros F I. rewrite forallb_forall in F. apply F, I. Qed.

Lemma serialize_shows_text t n :
  voidsEmpty n = true ->
  forall u d, In (u, d) (textNodes n) ->
              occursIn t (escapeText d) -> occursIn t (serialize n).
Proof.
  induction n as [v d0|v tag a ks IH] using node_induction; intros V u d I O.
  - cbn in I. destruct I as [I|[]]. injection I as _ I. subst d0. exact O.
  - cbn [textNodes] in I. apply in_flat_map in I. destruct I as (k & Ik & I).
    cbn [voidsEmpty] in V. apply andb_true_iff in V. destruct V as [V1 V2].
    cbn [serialize]. destruct (isVoid tag).
    + cbn in V1. destruct ks; [destruct Ik|discriminate].
    + rewrite Forall_forall in IH.
      pose proof (IH k Ik (forallb_In _ _ _ V2 Ik) u d I O) as Ok.
      do 4 apply occursIn_app_r. apply occursIn_app_l.
      eapply occursIn_flat_map; eassumption.
Qed.

Lemma innerHTML_shows_text t root :
  forallb voidsEmpty root = true ->
  forall u d, In (u, d) (walkText root) ->
              occursIn t (escapeText d) -> occursIn t (innerHTML root).
Proof.
  intros V u d I O. unfold walkText in I. apply in_flat_map in I.
  destruct I as (k & Ik & I). unfold innerHTML.
  eapply occursIn_flat_map; [exact Ik|].
  eapply serialize_shows_text; [|exact I|exact O].
  exact (forallb_In _ _ _ V Ik).
Qed.

(** *** The parser gives no children to void elements *)

Lemma forallb_rev {A : Type} (f : A -> bool) l :
  forallb f (rev l) = forallb f l.
Proof.
  induction l as [|x r IH]; [reflexivity|].
  cbn. rewrite forallb_app, IH. cbn. rewrite andb_true_r. apply andb_comm.
Qed.

Lemma closeFrame_ok f extra :
  frameOk f = true -> forallb voidsEmpty extra = true ->
  voidsEmpty (closeFrame (withKids f (extra ++ f_kids f))) = true.
Proof.
  unfold frameOk, closeFrame. intros F X.
  apply andb_true_iff in F. destruct F as [F1 F2].
  cbn [voidsEmpty withKids f_uid f_tag f_attrs f_kids].
  rewrite F1, forallb_rev, forallb_app, X, F2. reflexivity.
Qed.

Lemma appendNode_ok n st top :
  voidsEmpty n = true ->
  forallb frameOk st = true -> forallb voidsEmpty top = true ->
  forallb frameOk (fst (appendNode n st top)) = true
  /\ forallb voidsEmpty (snd (appendNode n st top)) = true.
Proof.
  intros N S T. destruct st as [|f fs]; cbn [appendNode fst snd forallb].
  - rewrite N, T. split; reflexivity.
  - cbn [forallb] in S. apply andb_true_iff in S. destruct S as [S1 S2].
    split; [|exact T]. rewrite S2, andb_true_r.
    unfold frameOk in *. cbn [withKids f_tag f_kids forallb].
    apply andb_true_iff in S1. destruct S1 as [S1 S3].
    rewrite S1, N, S3. reflexivity.
Qed.

Lemma appendChars_ok c d ks :
  forallb voidsEmpty ks = true ->
  forallb voidsEmpty (fst (appendChars c d ks)) = true.
Proof.
  intros K. destruct ks as [|[u d0|u t a k] r]; cbn in *; exact K.
Qed.

Lemma closeUntil_ok x st : forall extra top,
  forallb voidsEmpty extra = true ->
  forallb frameOk st = true -> forallb voidsEmpty top = true ->
  forallb frameOk (fst (closeUntil x extra st top)) = true
  /\ forallb voidsEmpty (snd (closeUntil x extra st top)) = true.
Proof.
  induction st as [|f fs IH]; intros extra top X S T.
  - cbn. rewrite forallb_app, X, T. split; reflexivity.
  - cbn [closeUntil]. cbn [forallb] in S. apply andb_true_iff in S.
    destruct S as [S1 S2].
    pose proof (closeFrame_ok f extra S1 X) as N.
    destruct (Js.eqb (f_tag f) x).
    + apply appendNode_ok; assumption.
    + apply IH; [cbn [forallb]; rewrite N; reflexivity|exact S2|exact T].
Qed.

Lemma closeAll_ok st : forall extra top,
  forallb voidsEmpty extra = true ->
  forallb frameOk st = true -> forallb voidsEmpty top = true ->
  forallb voidsEmpty (closeAll extra st top) = true.
Proof.
  induction st as [|f fs IH]; intros extra top X S T.
  - cbn. rewrite forallb_app, X, T. reflexivity.
  - cbn [closeAll]. cbn [forallb] in S. apply andb_true_iff in S.
    destruct S as [S1 S2].
    apply IH; [|exact S2|exact T].
    cbn [forallb]. rewrite (closeFrame_ok f extra S1 X). reflexivity.
Qed.

Lemma build_ok toks : forall st top c,
  forallb frameOk st = true -> forallb voidsEmpty top = true ->
  forallb voidsEmpty (fst (build toks st top c)) = true.
Proof.
  induction toks as [|tok r IH]; intros st top c S T.
  - cbn. rewrite forallb_rev. apply closeAll_ok; [reflexivity|exact S|exact T].
  - destruct tok as [d|t a|t]; cbn [build].
    + destruct st as [|f fs].
      * pose proof (appendChars_ok c d top T) as A.
        destruct (appendChars c d top) as [ks c']. apply IH; [reflexivity|exact A].
      * cbn [forallb] in S. apply andb_true_iff in S. destruct S as [S1 S2].
        unfold frameOk in S1. apply andb_true_iff in S1. destruct S1 as [S1 S3].
        pose proof (appendChars_ok c d (f_kids f) S3) as A.
        destruct (appendChars c d (f_kids f)) as [ks c']. apply IH; [|exact T].
        cbn [forallb]. rewrite S2, andb_true_r.
        unfold frameOk. cbn [withKids f_tag f_kids fst] in *.
        rewrite S1, A. reflexivity.
    + destruct (isVoid t) eqn:V.
      * assert (N : voidsEmpty (Elem c t a []) = true).
        { cbn [voidsEmpty forallb]. rewrite V. reflexivity. }
        pose proof (appendNode_ok (Elem c t a []) st top N S T) as [A B].
        destruct (appendNode (Elem c t a []) st top) as [st' top'].
        apply IH; assumption.
      * apply IH; [|exact T]. cbn [forallb]. rewrite S, andb_true_r.
        unfold frameOk. cbn [f_tag f_kids forallb]. rewrite V. reflexivity.
    + destruct (existsb _ st).
      * pose proof (closeUntil_ok t st [] top eq_refl S T) as [A B].
        destruct (closeUntil t [] st top) as [st' top'].
        apply IH; assumption.
      * apply IH; assumption.
Qed.

Lemma parseHTML_ok m c : forallb voidsEmpty (fst (parseHTML m c)) = true.
Proof. unfold parseHTML. apply build_ok; reflexivity. Qed.

End TextFacts.

(* ================================================================== *)
(** ** Search engine: the claims about search and replace-all *)

Module SearchClaims.
Import Js Dom Editor JsFacts TextFacts.

Lemma indexOfAt_bounds t : forall s i j,
  t <> [] -> indexOfAt t s i = Some j -> i <= j < i + length s.
Proof.
  induction s as [|c s IH]; intros i j Ne H; cbn [indexOfAt] in H.
  - destruct (startsWith t []) eqn:E; [|discriminate].
    destruct t; [congruence|discriminate].
  - destruct (startsWith t (c :: s)).
    + injection H as H. subst j. cbn. lia.
    + apply IH in H; [|exact Ne]. cbn. lia.
Qed.

Lemma indexOf_bounds t s from j :
  t <> [] -> indexOf t s from = Some j -> from <= j < length s.
Proof.
  unfold indexOf. intros Ne H. apply indexOfAt_bounds in H; [|exact Ne].
  rewrite length_skipn in H. lia.
Qed.

(** The inner loop of the search ends before its fuel does: with any
    larger supply of rounds it records the same matches. *)
Lemma scanMatches_enough_fuel t content : forall fuel fuel' index,
  t <> [] ->
  (forall i, index = Some i -> length content - i < fuel
                               /\ length content - i < fuel'
                               /\ i < length content) ->
  scanMatches fuel t content index = scanMatches fuel' t content index.
Proof.
  induction fuel as [|fuel IH]; intros fuel' index Ne B.
  - destruct index as [i|]; [|destruct fuel'; reflexivity].
    destruct (B i eq_refl). lia.
  - destruct index as [i|]; [|destruct fuel'; reflexivity].
    destruct (B i eq_refl) as (B1 & B2 & B3).
    destruct fuel' as [|fuel']; [lia|].
    cbn [scanMatches]. f_equal. apply IH; [exact Ne|].
    intros j E. apply indexOf_bounds in E; [|exact Ne]. lia.
Qed.

Lemma matchesInNode_fuel t u content fuel :
  t <> [] -> length content < fuel ->
  matchesInNode t (u, content)
  = map (fun index => (u, index))
      (scanMatches fuel t content (indexOf t content 0)).
Proof.
  intros Ne L. unfold matchesInNode. cbn [fst snd]. f_equal.
  apply scanMatches_enough_fuel; [exact Ne|].
  intros i E. apply indexOf_bounds in E; [|exact Ne]. lia.
Qed.

Lemma skipn_tail {A : Type} (l : list A) : forall i x r,
  skipn i l = x :: r -> skipn (S i) l = r.
Proof.
  induction l as [|y l IH]; intros i x r E.
  - destruct i; discriminate.
  - destruct i as [|i]; cbn in E.
    + injection E as _ E. subst r. reflexivity.
    + cbn [skipn]. apply (IH i x r E).
Qed.

Lemma scanMatches_done fuel t content : scanMatches fuel t content None = [].
Proof. destruct fuel; reflexivity. Qed.

(** What the inner loop records of a text node: every index at which
    the term occurs, whether or not the occurrences overlap. *)
Lemma scanMatches_all t content : t <> [] ->
  forall s i fuel,
    skipn i content = s -> i + length s = length content ->
    length s < fuel ->
    scanMatches fuel t content (indexOfAt t s i) = occurrencesAt t s i.
Proof.
  intros Ne. induction s as [|x r IH]; intros i fuel E L F.
  - cbn [indexOfAt occurrencesAt].
    destruct (startsWith t []) eqn:S; [|apply scanMatches_done].
    destruct t; [congruence|discriminate].
  - cbn [indexOfAt occurrencesAt]. cbn [length] in L, F.
    pose proof (skipn_tail content i E) as E'.
    destruct (startsWith t (x :: r)).
    + destruct fuel as [|fuel]; [lia|]. cbn [scanMatches app]. f_equal.
      unfold indexOf. replace (i + 1) with (S i) by lia. rewrite E'.
      rewrite Nat.min_l by lia. apply IH; [exact E'|lia|lia].
    + cbn [app]. apply IH; [exact E'|lia|lia].
Qed.

Lemma matchesInNode_all t u content :
  t <> [] ->
  matchesInNode t (u, content)
  = map (fun index => (u, index)) (occurrencesAt t content 0).
Proof.
  intros Ne. unfold matchesInNode. cbn [fst snd]. f_equal.
  unfold indexOf. cbn [skipn Nat.min].
  apply scanMatches_all; [exact Ne|reflexivity|reflexivity|lia].
Qed.

Lemma matchesInNode_none term tn :
  ~ occursIn term (snd tn) -> matchesInNode term tn = [].
Proof.
  intros N. unfold matchesInNode. rewrite (indexOf_None N). reflexivity.
Qed.

Lemma flat_map_all_nil {A B : Type} (f : A -> list B) l :
  (forall x, In x l -> f x = []) -> flat_map f l = [].
Proof.
  induction l as [|x r IH]; intros H; [reflexivity|].
  cbn. rewrite (H x (or_introl eq_refl)), IH; [reflexivity|].
  intros y I. apply H. right. exact I.
Qed.

Lemma clearSearch_no_highlight s :
  list_sum (map countHighlights (editor s)) = 0 ->
  snd (clearSearch s)
  = with_currentSearchText []
      (with_searchIndex (-1)%Z (with_searchResults [] s)).
Proof.
  intros Z. unfold clearSearch. cbn [editor with_currentSearchText
    with_searchIndex with_searchResults]. rewrite Z. reflexivity.
Qed.

(** A search for a term that occurs in no text node, in a document
    without highlights, finds nothing and touches nothing but the search
    variables. *)
Lemma search_without_occurrence term s :
  term <> [] ->
  list_sum (map countHighlights (editor s)) = 0 ->
  (forall u d, In (u, d) (walkText (editor s)) -> ~ occursIn term d) ->
  searchAndHighlight term s = Returned 0 (searchReset term s).
Proof.
  intros Ne Z No. unfold searchAndHighlight.
  rewrite (clearSearch_no_highlight s Z).
  destruct term as [|c t]; [congruence|].
  cbn [editor with_currentSearchText with_searchIndex with_searchResults].
  rewrite flat_map_all_nil.
  - reflexivity.
  - intros [u d] I. apply matchesInNode_none. apply (No u d I).
Qed.

Lemma sharesNoChar_spec a b :
  sharesNoChar a b = true -> forall c, In c a -> ~ In c b.
Proof.
  unfold sharesNoChar. intros H c I J.
  rewrite forallb_forall in H. specialize (H c I).
  apply negb_true_iff in H.
  assert (E : existsb (N.eqb c) b = true).
  { apply existsb_exists. exists c. split; [exact J|apply N.eqb_refl]. }
  congruence.
Qed.

Lemma hasDollar_spec t : hasDollar t = false -> ~ In 36%N t.
Proof.
  unfold hasDollar. intros H I.
  assert (E : existsb (N.eqb 36) t = true).
  { apply existsb_exists. exists 36%N. split; [exact I|reflexivity]. }
  congruence.
Qed.

Lemma plainText_spec t :
  plainText t = true -> forall c, In c t -> isMarkupChar c = false.
Proof.
  unfold plainText. intros H c I. rewrite forallb_forall in H.
  apply negb_true_iff, H, I.
Qed.


(** The same failure through the serialization: the text [x&y] is
    written [x&amp;y], in which the term [&y] does not occur, so nothing
    is replaced and the second search finds the term where it was. *)
Lemma replaceAll_misses_escaped_text :
  let s2 := stateOf (replaceAll (js "&y") (js "z") (docOf "x&amp;y")) in
  getContent s2 = js "<div>x&amp;y</div>"
  /\ exists s3, searchAndHighlight (js "&y") s2 = Returned 1 s3.
Proof.
  split.
  - vm_compute. reflexivity.
  - eexists. vm_compute. reflexivity.
Qed.

(** And through the template: [$&] in the replacement stands for the
    match, so replacing [x] by [$&] puts every [x] back. *)
Lemma replaceAll_dollar_template :
  let s2 := stateOf (replaceAll (js "x") (js "$&") (docOf "x")) in
  getContent s2 = js "<div>x</div>"
  /\ exists s3, searchAndHighlight (js "x") s2 = Returned 1 s3.
Proof.
  split.
  - vm_compute. reflexivity.
  - eexists. vm_compute. reflexivity.
Qed.



(** C5 (the code departs from the claim).  The inner loop resumes its
    scan one character after the start of a match, so it records
    occurrences that overlap; the highlighting loop then splits the text
    node at the later match first and, at the earlier one, asks
    [splitText] for more characters than are left.  In [<div>aaa</div>]
    the term [aa] is recorded at 0 and at 1, and the call ends with
    IndexSizeError, one highlight made, no current match and nothing
    returned.  Without overlap, as for [cat] in [cat cat dog], the
    count is returned and match 0 is current. *)
Theorem search_overlapping_occurrences_throws :
  matchesInNode (js "aa") (2, js "aaa") = [(2, 0); (2, 1)]
  /\ (exists s',
        searchAndHighlight (js "aa") (docOf "aaa") = Thrown IndexSizeError s'
        /\ length (searchResults s') = 1
        /\ searchIndex s' = (-1)%Z
        /\ map erase (editor s')
           = [Elem 0 (js "div") []
                [Text 0 []; Text 0 (js "a");
                 highlightSpan 0 [Text 0 (js "aa")]; Text 0 []]])
  /\ (exists s',
        searchAndHighlight (js "cat") (docOf "cat cat dog") = Returned 2 s'
        /\ length (searchResults s') = 2
        /\ searchIndex s' = 0%Z).
Proof.
  split; [reflexivity|]. split.
  - eexists. split; [vm_compute; reflexivity|].
    repeat split; vm_compute; reflexivity.
  - eexists. split; [vm_compute; reflexivity|].
    repeat split; vm_compute; reflexivity.
Qed.

End SearchClaims.

(* ================================================================== *)
(** ** History manager: how undo, redo and recording compose *)

Module HistoryMore.
Import Js Dom Editor HistoryFacts.

Lemma at_in_range {A : Type} (l : list A) (i : Z) :
  (0 <= i < lengthZ l)%Z -> exists e, at_ l i = Some e.
Proof.
  intros [L U]. unfold at_, lengthZ in *.
  destruct (Z.ltb_spec i 0); [lia|].
  destruct (nth_error l (Z.to_nat i)) as [e|] eqn:E; [exists e; reflexivity|].
  apply nth_error_None in E. lia.
Qed.

Lemma customRedo_at_end s :
  historyIndex s = (lengthZ (editorHistory s) - 1)%Z ->
  customRedo s = (false, s).
Proof.
  intros E. destruct (customRedo_spec s) as [[R _]|(_ & _ & L & _)];
    [exact R|lia].
Qed.

(** An undo or a redo that went through leaves the replay flag set. *)
Lemma replayEntry_flag s :
  isPerformingUndoRedo (snd (replayEntry s)) = isPerformingUndoRedo s.
Proof.
  unfold replayEntry.
  destruct (at_ (editorHistory s) (historyIndex s)) as [e|]; [|reflexivity].
  cbn [snd]. destruct (selection e); cbn; apply setInnerHTML_flag.
Qed.

Lemma customUndo_sets_flag s :
  fst (customUndo s) = true ->
  isPerformingUndoRedo (snd (customUndo s)) = true
  /\ In (10, TaskResetUndoRedoFlag) (timers (snd (customUndo s))).
Proof.
  unfold customUndo.
  destruct ((length (editorHistory s) =? 0) || (historyIndex s <=? 0)%Z);
    [discriminate|].
  set (s2 := with_historyIndex _ _).
  pose proof (replayEntry_flag s2) as F.
  destruct (replayEntry s2) as [ok s3]. cbn [fst snd] in *. intros _.
  split; [exact F|]. cbn. apply in_or_app. right. left. reflexivity.
Qed.

Lemma userEdit_replaying doc sel s :
  isPerformingUndoRedo s = true ->
  histOf (userEdit doc sel s) = histOf s
  /\ posted (userEdit doc sel s) = posted s ++ [ContentChanged]
  /\ editor (userEdit doc sel s) = doc.
Proof.
  intros F. unfold userEdit, dispatchInput.
  set (s0 := with_nextUid _ _).
  assert (F0 : isPerformingUndoRedo s0 = true) by exact F.
  rewrite F0. repeat split.
Qed.

(** X1.  Right after an entry has been recorded there is nothing to
    redo: [customRedo] answers [false] and changes nothing, be the
    entry recorded by [createHistoryEntry] itself or by the [input]
    listener after a user edit. *)
Theorem customRedo_after_record (s : state) :
  isPerformingUndoRedo s = false ->
  customRedo (createHistoryEntry s) = (false, createHistoryEntry s)
  /\ forall doc sel,
       customRedo (userEdit doc sel s) = (false, userEdit doc sel s).
Proof.
  intros F. split.
  - apply customRedo_at_end.
    destruct (createHistoryEntry_fresh s F) as (A & _). exact A.
  - intros doc sel. apply customRedo_at_end.
    exact (proj1 (HistoryClaims.userEdit_last doc sel s F)).
Qed.

Lemma customRedo_after_record_witness :
  customRedo (createHistoryEntry branchPoint)
  = (false, createHistoryEntry branchPoint)
  /\ customRedo (userEdit (divOf 5 "c") None branchPoint)
     = (false, userEdit (divOf 5 "c") None branchPoint).
Proof.
  destruct (@customRedo_after_record branchPoint) as [A B].
  - reflexivity.
  - split; [exact A|apply B].
Defined.

(** X2.  While the cursor invariant holds, [customUndo] answers [true]
    exactly when the cursor is behind the first entry and [customRedo]
    exactly when it is before the last one: the [catch] branch of
    neither is ever taken. *)
Theorem undo_redo_succeed_iff (s : state) :
  historyInv s ->
  (fst (customUndo s) = true <-> (0 < historyIndex s)%Z)
  /\ (fst (customRedo s) = true
      <-> (historyIndex s < lengthZ (editorHistory s) - 1)%Z).
Proof.
  intros H. split; split.
  - intros T. destruct (customUndo_spec s) as [[E _]|(_ & _ & L & _)];
      [rewrite E in T; discriminate|exact L].
  - intros L. destruct (customUndo_spec s) as [[_ [E|E]]|(_ & _ & _ & K)].
    + destruct H as [[_ H]|H]; [lia|]. rewrite E in H. cbn in H. lia.
    + lia.
    + destruct (@at_in_range _ (editorHistory s) (historyIndex s - 1))
        as [e He].
      * destruct H as [[_ H]|H]; lia.
      * exact (proj1 (K e He)).
  - intros T. destruct (customRedo_spec s) as [[E _]|(_ & _ & L & _)];
      [rewrite E in T; discriminate|exact L].
  - intros L. destruct (customRedo_spec s) as [[_ [E|E]]|(_ & _ & _ & K)].
    + destruct H as [[_ H]|H]; [|rewrite E in H; cbn in H; lia].
      rewrite E in L. cbn in L. lia.
    + lia.
    + destruct (@at_in_range _ (editorHistory s) (historyIndex s + 1))
        as [e He].
      * destruct H as [[_ H]|H]; lia.
      * exact (proj1 (K e He)).
Qed.

Lemma undo_redo_succeed_iff_witness :
  fst (customUndo branchPoint) = false
  /\ fst (customRedo branchPoint) = true.
Proof.
  destruct (@undo_redo_succeed_iff branchPoint) as [[A _] [_ B]].
  - right. vm_compute. split; congruence.
  - split.
    + destruct (fst (customUndo branchPoint)) eqn:E; [|reflexivity].
      specialize (A eq_refl). vm_compute in A. discriminate.
    + apply B. vm_compute. reflexivity.
Defined.

(** X3.  From any entry but the first, an undo followed by a redo
    succeeds, leaves the entries and the cursor as they were, and
    installs the document from the markup recorded in the entry under
    the cursor. *)
Theorem redo_after_undo (s : state) :
  historyInv s -> (0 < historyIndex s)%Z ->
  let s' := snd (customRedo (snd (customUndo s))) in
  fst (customUndo s) = true
  /\ fst (customRedo (snd (customUndo s))) = true
  /\ histOf s' = histOf s
  /\ exists e,
       at_ (editorHistory s) (historyIndex s) = Some e
       /\ getContent s' = innerHTML (fst (parseHTML (content e) 0)).
Proof.
  intros H L. cbn zeta.
  assert (B : (0 <= historyIndex s < lengthZ (editorHistory s))%Z).
  { destruct H as [[_ H]|H]; lia. }
  destruct (customUndo_spec s) as [[_ [E|E]]|(U1 & U2 & _ & UK)].
  { rewrite E in B. cbn in B. lia. }
  { lia. }
  destruct (@at_in_range _ (editorHistory s) (historyIndex s - 1)) as [e0 He0];
    [lia|].
  split; [exact (proj1 (UK e0 He0))|].
  set (s1 := snd (customUndo s)) in *.
  destruct (customRedo_spec s1) as [[_ [E|E]]|(R1 & R2 & _ & RK)].
  { rewrite U1 in E. rewrite E in B. cbn in B. lia. }
  { rewrite U1, U2 in E. lia. }
  destruct (at_in_range (editorHistory s) B) as [e He].
  assert (He1 : at_ (editorHistory s1) (historyIndex s1 + 1) = Some e).
  { rewrite U1, U2. replace (historyIndex s - 1 + 1)%Z with (historyIndex s)
      by lia. exact He. }
  destruct (RK e He1) as [T Ed].
  split; [exact T|]. split.
  - unfold histOf. rewrite R1, R2, U1, U2. f_equal. lia.
  - exists e. split; [exact He|].
    unfold getContent. rewrite Ed. apply DomFacts.innerHTML_parse_uid.
Qed.

Lemma redo_after_undo_witness :
  let s := applyEdits [(divOf 1 "a", None); (divOf 3 "ab", None)] initial in
  histOf (snd (customRedo (snd (customUndo s)))) = histOf s
  /\ fst (customRedo (snd (customUndo s))) = true.
Proof.
  cbn zeta.
  destruct (@redo_after_undo
              (applyEdits [(divOf 1 "a", None); (divOf 3 "ab", None)] initial))
    as (_ & B & C & _).
  - right. vm_compute. split; congruence.
  - vm_compute. reflexivity.
  - split; [exact C|exact B].
Defined.

(** X4.  An undo that went through sets the replay flag and defers its
    reset by 10 ms.  A user edit that arrives before the reset is
    installed and reported to the host but not recorded: entries and
    cursor stay as the undo left them.  Once the deferred reset has
    run, edits are recorded again. *)
Theorem edit_during_replay_not_recorded
  (s : state) (doc : list node) (sel : option range) :
  fst (customUndo s) = true ->
  let s1 := snd (customUndo s) in
  In (10, TaskResetUndoRedoFlag) (timers s1)
  /\ histOf (userEdit doc sel s1) = histOf s1
  /\ editor (userEdit doc sel s1) = doc
  /\ posted (userEdit doc sel s1) = posted s1 ++ [ContentChanged]
  /\ let s2 := userEdit doc sel (runTask TaskResetUndoRedoFlag s1) in
     exists e, at_ (editorHistory s2) (historyIndex s2) = Some e
               /\ content e = innerHTML doc.
Proof.
  intros T. cbn zeta. destruct (customUndo_sets_flag s T) as [F I].
  destruct (userEdit_replaying doc sel _ F) as (A & B & C).
  split; [exact I|]. split; [exact A|]. split; [exact C|]. split; [exact B|].
  destruct (@HistoryClaims.userEdit_last doc sel
              (runTask TaskResetUndoRedoFlag (snd (customUndo s))))
    as (_ & e & He & Ce).
  - reflexivity.
  - exists e. split; [exact He|]. rewrite Ce.
    unfold getContent, userEdit, dispatchInput.
    set (s0 := with_nextUid _ _).
    assert (F0 : isPerformingUndoRedo s0 = false) by reflexivity.
    rewrite F0.
    destruct (createHistoryEntry_fresh s0 F0) as (_ & _ & Ed & _).
    change (innerHTML (editor (createHistoryEntry s0)) = innerHTML doc).
    rewrite Ed. reflexivity.
Qed.

Lemma edit_during_replay_not_recorded_witness :
  let s := applyEdits [(divOf 1 "a", None); (divOf 3 "ab", None)] initial in
  histOf (userEdit (divOf 5 "c") None (snd (customUndo s)))
  = histOf (snd (customUndo s)).
Proof.
  cbn zeta.
  destruct (@edit_during_replay_not_recorded
              (applyEdits [(divOf 1 "a", None); (divOf 3 "ab", None)] initial)
              (divOf 5 "c") None) as (_ & B & _).
  - vm_compute. reflexivity.
  - exact B.
Defined.

End HistoryMore.

(* ================================================================== *)
(** ** Selection codec: positions, bounds and the round trip *)

Module SelectionMore.
Import Js Dom Editor.

Lemma textLength_app a b : textLength (a ++ b) = textLength a + textLength b.
Proof. unfold textLength. rewrite flat_map_app. apply length_app. Qed.

Lemma textLength_one u d : textLength [(u, d)] = length d.
Proof. unfold textLength. cbn. rewrite app_nil_r. reflexivity. Qed.

(** The identity of a text node is one of the identities of the tree. *)
Lemma textNodes_uids u d n : In (u, d) (textNodes n) -> In u (uids n).
Proof.
  induction n as [v d0|v t a ks IH] using DomFacts.node_induction.
  - cbn. intros [E|[]]. injection E as E _. left. exact E.
  - cbn [textNodes uids]. intros I. right.
    apply in_flat_map in I. destruct I as (k & Ik & I).
    apply in_flat_map. exists k. split; [exact Ik|].
    rewrite Forall_forall in IH. apply (IH k Ik I).
Qed.

Lemma walkText_uids u d ks :
  In (u, d) (flat_map textNodes ks) -> In u (flat_map uids ks).
Proof.
  intros I. apply in_flat_map in I. destruct I as (k & Ik & I).
  apply in_flat_map. exists k. split; [exact Ik|].
  apply (textNodes_uids _ _ _ I).
Qed.

Lemma walkToOffset_ok texts : forall k cur b,
  walkToOffset texts k cur = Some b ->
  boundaryOk b = true
  /\ exists u d, b_node b = Text u d /\ In (u, d) texts.
Proof.
  induction texts as [|[u d] rest IH]; intros k cur b; [discriminate|].
  cbn [walkToOffset].
  destruct (Nat.leb_spec k (cur + length d)) as [G|G].
  - intros E. injection E as E. subst b. split.
    + unfold boundaryOk. cbn. apply Nat.leb_le. lia.
    + exists u, d. split; [reflexivity|left; reflexivity].
  - intros E. destruct (IH _ _ _ E) as [A (u' & d' & B & C)].
    split; [exact A|]. exists u', d'. split; [exact B|right; exact C].
Qed.

(** X5.  Whatever offset it is asked for, also one beyond the text,
    [getNodeAndOffsetAtCharacterOffset] answers with a boundary point
    that [setStart] and [setEnd] accept: its node is a text node of the
    root or the root itself, and its offset does not exceed the length
    of that node. *)
Theorem position_lookup_in_bounds (root : node) (charOffset : nat) :
  let b := getNodeAndOffsetAtCharacterOffset root charOffset in
  boundaryOk b = true
  /\ (b_node b = root
      \/ exists u d, b_node b = Text u d /\ In (u, d) (textNodes root)).
Proof.
  cbn zeta. unfold getNodeAndOffsetAtCharacterOffset.
  destruct (walkToOffset (textNodes root) charOffset 0) as [b|] eqn:W.
  - destruct (walkToOffset_ok _ _ _ W) as [A B]. split; [exact A|right; exact B].
  - destruct (last (map Some (childNodes root)) None) as [lastNode|] eqn:La.
    + destruct lastNode as [u d|u t a ks].
      * split; [unfold boundaryOk; cbn; apply Nat.leb_refl|].
        right. exists u, d. split; [reflexivity|].
        apply SelectionClaims.last_Some_In in La.
        destruct root as [v d0|v t a ks]; [destruct La|].
        cbn [childNodes] in La. cbn [textNodes].
        apply in_flat_map. exists (Text u d). split; [exact La|].
        left. reflexivity.
      * split; [|left; reflexivity].
        unfold boundaryOk. cbn [b_offset b_node].
        destruct root; cbn; [reflexivity|apply Nat.leb_refl].
    + split; [reflexivity|left; reflexivity].
Qed.

(** What the character count of [saveSelection] can be. *)
Lemma charsBeforeIn_bound u off n : forall acc,
  match charsBeforeIn u off n acc with
  | inr a => acc <= a <= acc + textLength (textNodes n)
  | inl a => a = acc + textLength (textNodes n)
  end.
Proof.
  induction n as [v d|v t a ks IH] using DomFacts.node_induction; intros acc.
  - cbn [charsBeforeIn textNodes]. rewrite textLength_one.
    destruct (Nat.eqb v u); lia.
  - cbn [charsBeforeIn textNodes].
    destruct (Nat.eqb v u).
    + assert (E : textLength (flat_map textNodes ks)
                  = length (textContent (firstn off ks))
                    + length (textContent (skipn off ks))).
      { unfold textContent, walkText, textLength.
        rewrite <- length_app, <- !flat_map_app, firstn_skipn. reflexivity. }
      rewrite E. lia.
    + revert acc. induction IH as [|k r Hk _ IHr]; intros acc.
      * cbn. unfold textLength. cbn. lia.
      * cbn [flat_map]. rewrite textLength_app.
        specialize (Hk acc).
        destruct (charsBeforeIn u off k acc) as [acc'|a'] eqn:E.
        -- specialize (IHr acc').
           match goal with
           | |- match ?x with _ => _ end =>
               match type of IHr with
               | match ?y with _ => _ end => change x with y
               end
           end.
           destruct ((fix go (ks : list node) (acc : nat) : nat + nat :=
                        match ks with
                        | [] => inl acc
                        | k :: r =>
                            match charsBeforeIn u off k acc with
                            | inl acc' => go r acc'
                            | inr a => inr a
                            end
                        end) r acc'); lia.
        -- lia.
Qed.

(** X6.  For a selection whose boundary points lie in the editor, the
    offsets [saveSelection] records never exceed the length of the text
    of the document, and the end offset of a collapsed selection is its
    start offset. *)
Theorem saveSelection_within_text
  (s : state) (r : range) (sel : selectionInfo) :
  docSelection s = Some r ->
  In (uidOf (b_node (r_start r))) (uids (editorElement s)) ->
  In (uidOf (b_node (r_end r))) (uids (editorElement s)) ->
  saveSelection s = Some sel ->
  sel_start sel <= length (textContent (editor s))
  /\ sel_end sel <= length (textContent (editor s))
  /\ (sel_collapsed sel = true -> sel_end sel = sel_start sel).
Proof.
  intros Er _ _. unfold saveSelection. rewrite Er.
  intros E. injection E as E. subst sel. cbn [sel_start sel_end sel_collapsed].
  assert (B : forall b, charsBefore s b <= length (textContent (editor s))).
  { intros b. unfold charsBefore.
    pose proof (charsBeforeIn_bound (uidOf (b_node b)) (b_offset b)
                  (editorElement s) 0) as H.
    change (textLength (textNodes (editorElement s)))
      with (length (textContent (editor s))) in H.
    destruct (charsBeforeIn _ _ _ _); lia. }
  split; [apply B|]. split.
  - destruct (rangeCollapsed r); apply B.
  - intros C. rewrite C. reflexivity.
Qed.

Lemma saveSelection_within_text_witness :
  let caret := {| b_node := Text 2 (js "Hello"); b_offset := 5 |} in
  let s :=
    with_docSelection (Some {| r_start := caret; r_end := caret |})
      (docOf "Hello") in
  saveSelection s
  = Some {| sel_start := 5; sel_end := 5; sel_collapsed := true |}
  /\ 5 <= length (textContent (editor s)).
Proof.
  cbn zeta. split; [vm_compute; reflexivity|].
  refine (proj1 (@saveSelection_within_text
                   (with_docSelection
                      (Some {| r_start := {| b_node := Text 2 (js "Hello");
                                             b_offset := 5 |};
                               r_end := {| b_node := Text 2 (js "Hello");
                                           b_offset := 5 |} |})
                      (docOf "Hello"))
                   {| r_start := {| b_node := Text 2 (js "Hello");
                                    b_offset := 5 |};
                      r_end := {| b_node := Text 2 (js "Hello");
                                  b_offset := 5 |} |}
                   {| sel_start := 5; sel_end := 5; sel_collapsed := true |}
                   _ _ _ _)).
  - reflexivity.
  - vm_compute. tauto.
  - vm_compute. tauto.
  - vm_compute. reflexivity.
Defined.

(** The count for an identity that is not in the tree. *)
Lemma charsBeforeIn_missing u off n : forall acc,
  ~ In u (uids n) ->
  charsBeforeIn u off n acc = inl (acc + textLength (textNodes n)).
Proof.
  induction n as [v d|v t a ks IH] using DomFacts.node_induction;
    intros acc N.
  - cbn [charsBeforeIn textNodes]. rewrite textLength_one.
    destruct (Nat.eqb_spec v u) as [E|E]; [|reflexivity].
    exfalso. apply N. left. exact E.
  - cbn [charsBeforeIn textNodes].
    destruct (Nat.eqb_spec v u) as [E|E].
    { exfalso. apply N. left. exact E. }
    assert (Nk : ~ In u (flat_map uids ks)).
    { intros I. apply N. right. exact I. }
    clear N E. revert acc. induction IH as [|k r Hk _ IHr]; intros acc.
    + cbn. unfold textLength. cbn. f_equal. lia.
    + cbn [flat_map] in Nk |- *. rewrite textLength_app.
      rewrite Hk by (intros I; apply Nk, in_or_app; left; exact I).
      rewrite IHr by (intros I; apply Nk, in_or_app; right; exact I).
      f_equal. lia.
Qed.

Lemma NoDup_app_parts {A : Type} (a b : list A) :
  NoDup (a ++ b) ->
  NoDup a /\ NoDup b /\ forall x, In x a -> ~ In x b.
Proof.
  induction a as [|x a IH]; cbn; intros D.
  - split; [constructor|]. split; [exact D|]. intros x [].
  - inversion D as [|? ? N D']. subst.
    destruct (IH D') as (Da & Db & Dab).
    split; [|split; [exact Db|]].
    + constructor; [|exact Da]. intros I. apply N, in_or_app. left. exact I.
    + intros y [E|I]; [|apply Dab, I]. subst y.
      intros I. apply N, in_or_app. right. exact I.
Qed.

(** The count for a text node of a tree whose nodes have identities of
    their own: the text before the node and the part of its data before
    the offset. *)
Lemma charsBeforeIn_found u d off n :
  NoDup (uids n) ->
  forall acc pre post,
    textNodes n = pre ++ (u, d) :: post ->
    charsBeforeIn u off n acc
    = inr (acc + textLength pre + Nat.min off (length d)).
Proof.
  induction n as [v d0|v t a ks IH] using DomFacts.node_induction;
    intros D acc pre post E.
  - cbn [textNodes] in E. destruct pre as [|p pre].
    + cbn in E. injection E as E1 E2 _. subst v d0.
      cbn [charsBeforeIn]. rewrite Nat.eqb_refl. unfold textLength. cbn.
      f_equal. lia.
    + cbn in E. injection E as _ E. destruct pre; discriminate.
  - cbn [textNodes uids] in E, D. inversion D as [|? ? Nv Dk]. subst.
    assert (Iu : In u (flat_map uids ks)).
    { apply (walkText_uids u d). rewrite E. apply in_or_app. right. left.
      reflexivity. }
    cbn [charsBeforeIn].
    destruct (Nat.eqb_spec v u) as [Ev|Ev]; [subst v; tauto|].
    clear Nv Ev Iu D. revert acc pre E.
    induction IH as [|k r Hk _ IHr]; intros acc pre E.
    + destruct pre; discriminate.
    + cbn [flat_map] in Dk, E.
      destruct (NoDup_app_parts _ _ Dk) as (D1 & D2 & D12).
      apply app_eq_app in E. destruct E as (l & [[E1 E2]|[E1 E2]]).
      * destruct l as [|x l].
        -- rewrite app_nil_r in E1. cbn in E2.
           assert (Nk : ~ In u (uids k)).
           { intros I. apply (D12 u I). apply (walkText_uids u d).
             rewrite <- E2. left. reflexivity. }
           rewrite (@charsBeforeIn_missing u off k acc Nk).
           rewrite (IHr D2 (acc + textLength (textNodes k)) [] (eq_sym E2)).
           rewrite E1. unfold textLength at 2. cbn. f_equal. lia.
        -- cbn in E2. injection E2 as E2 E3. subst x.
           rewrite (Hk D1 acc pre l E1). reflexivity.
      * assert (Nk : ~ In u (uids k)).
        { intros I. apply (D12 u I). apply (walkText_uids u d).
          rewrite E2. apply in_or_app. right. left. reflexivity. }
        rewrite (@charsBeforeIn_missing u off k acc Nk).
        rewrite (IHr D2 (acc + textLength (textNodes k)) l E2).
        rewrite E1, textLength_app. f_equal. lia.
Qed.

(** A position with [k] characters of text before it is saved as
    [k]. *)
Lemma charsBefore_atOffset s b k :
  wellIdentified s -> atOffset (editorElement s) b k -> charsBefore s b = k.
Proof.
  intros W [(pre & u & d & post & E & B & L1 & L2)|(E & K & B)];
    subst b; unfold charsBefore; cbn [b_node b_offset uidOf].
  - rewrite (@charsBeforeIn_found u d _ (editorElement s) W 0 pre post E).
    change (length (flat_map snd pre)) with (textLength pre) in *. lia.
  - subst k. unfold editorElement at 1. cbn [uidOf].
    unfold editorElement. cbn [charsBeforeIn childNodes].
    rewrite Nat.eqb_refl, firstn_all.
    unfold textContent.
    change (walkText (editor s)) with (textNodes (editorElement s)).
    rewrite E. reflexivity.
Qed.

Lemma charsBefore_same s b1 b2 :
  uidOf (b_node b1) = uidOf (b_node b2) -> b_offset b1 = b_offset b2 ->
  charsBefore s b1 = charsBefore s b2.
Proof. unfold charsBefore. intros E1 E2. rewrite E1, E2. reflexivity. Qed.



End SelectionMore.

(* ================================================================== *)
(** ** Search engine: clearing, navigation, counting *)

Module SearchMore.
Import Js Dom Editor JsFacts HistoryFacts.

Lemma textContent_app a b :
  textContent (a ++ b) = textContent a ++ textContent b.
Proof. unfold textContent, walkText. rewrite !flat_map_app. reflexivity. Qed.

Lemma textContent_cons k r :
  textContent (k :: r) = textContent [k] ++ textContent r.
Proof. apply (textContent_app [k] r). Qed.

Lemma textContent_elem u t a ks : textContent [Elem u t a ks] = textContent ks.
Proof. unfold textContent, walkText. cbn. rewrite app_nil_r. reflexivity. Qed.

Lemma textContent_text u d : textContent [Text u d] = d.
Proof. unfold textContent, walkText. cbn. apply app_nil_r. Qed.

(** The loop over the children inside [unwrapHighlights] is
    [unwrapAll]. *)
Lemma unwrapHighlights_elem u t a ks c :
  hasClass highlightClass (Elem u t a ks) = false ->
  unwrapHighlights (Elem u t a ks) c
  = let '(ks', c') := unwrapAll ks c in (Elem u t a ks', c').
Proof.
  intros H. cbn [unwrapHighlights]. rewrite H.
  assert (G : forall ks c,
             (fix go (ks : list node) (c : nat) : list node * nat :=
                match ks with
                | [] => ([], c)
                | k :: r =>
                    let '(k', c1) := unwrapHighlights k c in
                    let '(r', c2) := go r c1 in (k' :: r', c2)
                end) ks c = unwrapAll ks c).
  { clear. induction ks as [|k r IH]; intros c; [reflexivity|].
    cbn [unwrapAll]. destruct (unwrapHighlights k c) as [k' c1].
    rewrite IH. reflexivity. }
  rewrite G. reflexivity.
Qed.

Lemma unwrapAll_text ks :
  Forall (fun n => forall c,
            textContent [fst (unwrapHighlights n c)] = textContent [n]) ks ->
  forall c, textContent (fst (unwrapAll ks c)) = textContent ks.
Proof.
  induction 1 as [|k r Hk _ IHr]; intros c; [reflexivity|].
  cbn [unwrapAll]. specialize (Hk c).
  destruct (unwrapHighlights k c) as [k' c1]. specialize (IHr c1).
  destruct (unwrapAll r c1) as [r' c2]. cbn [fst] in *.
  rewrite textContent_cons, (textContent_cons k r), Hk, IHr. reflexivity.
Qed.

Lemma unwrapHighlights_text n : forall c,
  textContent [fst (unwrapHighlights n c)] = textContent [n].
Proof.
  induction n as [u d|u t a ks IH] using DomFacts.node_induction; intros c.
  - reflexivity.
  - destruct (hasClass highlightClass (Elem u t a ks)) eqn:H.
    + cbn [unwrapHighlights]. rewrite H. cbn [fst].
      apply textContent_text.
    + rewrite (unwrapHighlights_elem u t a ks c H).
      pose proof (unwrapAll_text IH c) as T.
      destruct (unwrapAll ks c) as [ks' c']. cbn [fst] in *.
      rewrite !textContent_elem. exact T.
Qed.

Lemma unwrapAll_count ks :
  Forall (fun n => forall c,
            countHighlights (fst (unwrapHighlights n c)) = 0) ks ->
  forall c, list_sum (map countHighlights (fst (unwrapAll ks c))) = 0.
Proof.
  induction 1 as [|k r Hk _ IHr]; intros c; [reflexivity|].
  cbn [unwrapAll]. specialize (Hk c).
  destruct (unwrapHighlights k c) as [k' c1]. specialize (IHr c1).
  destruct (unwrapAll r c1) as [r' c2]. cbn [fst] in *.
  change (countHighlights k' + list_sum (map countHighlights r') = 0).
  rewrite Hk, IHr. reflexivity.
Qed.

Lemma unwrapHighlights_count n : forall c,
  countHighlights (fst (unwrapHighlights n c)) = 0.
Proof.
  induction n as [u d|u t a ks IH] using DomFacts.node_induction; intros c.
  - reflexivity.
  - destruct (hasClass highlightClass (Elem u t a ks)) eqn:H.
    + cbn [unwrapHighlights]. rewrite H. reflexivity.
    + rewrite (unwrapHighlights_elem u t a ks c H).
      pose proof (unwrapAll_count IH c) as T.
      destruct (unwrapAll ks c) as [ks' c']. cbn [fst] in *.
      cbn [countHighlights].
      change (hasClass highlightClass (Elem u t a ks'))
        with (hasClass highlightClass (Elem u t a ks)).
      rewrite H, T. reflexivity.
Qed.

Lemma mergeText_text ns : textContent (mergeText ns) = textContent ns.
Proof.
  induction ns as [|n r IH]; [reflexivity|].
  destruct n as [u d|u t a ks].
  - cbn [mergeText]. rewrite (textContent_cons (Text u d) r), textContent_text.
    destruct d as [|x d]; [exact IH|].
    rewrite <- IH.
    destruct (mergeText r) as [|[v d'|v t a ks] r'].
    + rewrite textContent_cons, textContent_text. reflexivity.
    + rewrite textContent_cons, (textContent_cons (Text v d') r'),
        !textContent_text, app_assoc. reflexivity.
    + rewrite textContent_cons, textContent_text. reflexivity.
  - cbn [mergeText]. rewrite textContent_cons, (textContent_cons _ r), IH.
    reflexivity.
Qed.

Lemma mergeText_count ns :
  list_sum (map countHighlights (mergeText ns))
  = list_sum (map countHighlights ns).
Proof.
  induction ns as [|n r IH]; [reflexivity|].
  destruct n as [u d|u t a ks].
  - change (list_sum (map countHighlights (Text u d :: r)))
      with (list_sum (map countHighlights r)).
    rewrite <- IH. cbn [mergeText].
    destruct d as [|x d]; [reflexivity|].
    destruct (mergeText r) as [|[v d'|v t a ks] r']; reflexivity.
  - cbn [mergeText].
    change (countHighlights (Elem u t a ks)
            + list_sum (map countHighlights (mergeText r))
            = countHighlights (Elem u t a ks)
              + list_sum (map countHighlights r)).
    rewrite IH. reflexivity.
Qed.

Lemma map_normalize_text ks :
  Forall (fun n => textContent [normalizeNode n] = textContent [n]) ks ->
  textContent (map normalizeNode ks) = textContent ks.
Proof.
  induction 1 as [|k r Hk _ IHr]; [reflexivity|].
  cbn [map]. rewrite textContent_cons, (textContent_cons k r), Hk, IHr.
  reflexivity.
Qed.

Lemma normalizeNode_text n : textContent [normalizeNode n] = textContent [n].
Proof.
  induction n as [u d|u t a ks IH] using DomFacts.node_induction;
    [reflexivity|].
  cbn [normalizeNode]. rewrite !textContent_elem, mergeText_text.
  apply map_normalize_text, IH.
Qed.

Lemma normalize_text root : textContent (normalize root) = textContent root.
Proof.
  unfold normalize. rewrite mergeText_text. apply map_normalize_text.
  apply Forall_forall. intros n _. apply normalizeNode_text.
Qed.

Lemma map_normalize_count ks :
  Forall (fun n => countHighlights (normalizeNode n) = countHighlights n) ks ->
  list_sum (map countHighlights (map normalizeNode ks))
  = list_sum (map countHighlights ks).
Proof.
  induction 1 as [|k r Hk _ IHr]; [reflexivity|].
  change (countHighlights (normalizeNode k)
          + list_sum (map countHighlights (map normalizeNode r))
          = countHighlights k + list_sum (map countHighlights r)).
  rewrite Hk, IHr. reflexivity.
Qed.

Lemma normalizeNode_count n :
  countHighlights (normalizeNode n) = countHighlights n.
Proof.
  induction n as [u d|u t a ks IH] using DomFacts.node_induction;
    [reflexivity|].
  cbn [normalizeNode countHighlights].
  change (hasClass highlightClass (Elem u t a (mergeText (map normalizeNode ks))))
    with (hasClass highlightClass (Elem u t a ks)).
  rewrite mergeText_count, (map_normalize_count IH). reflexivity.
Qed.

Lemma normalize_count root :
  list_sum (map countHighlights (normalize root))
  = list_sum (map countHighlights root).
Proof.
  unfold normalize. rewrite mergeText_count. apply map_normalize_count.
  apply Forall_forall. intros n _. apply normalizeNode_count.
Qed.

Lemma clearSearch_text (s : state) :
  textContent (editor (snd (clearSearch s))) = textContent (editor s)
  /\ list_sum (map countHighlights (editor (snd (clearSearch s)))) = 0.
Proof.
  unfold clearSearch.
  cbn [editor nextUid with_currentSearchText with_searchIndex
       with_searchResults].
  destruct (Nat.ltb_spec 0 (list_sum (map countHighlights (editor s))))
    as [L|L].
  - pose proof (@unwrapAll_text (editor s)) as T.
    pose proof (@unwrapAll_count (editor s)) as C.
    destruct (unwrapAll (editor s) (nextUid s)) as [ks c] eqn:U.
    cbn [snd fst editor with_nextUid with_editor].
    rewrite normalize_text, normalize_count.
    specialize (T (proj2 (Forall_forall _ _)
                     (fun n _ => unwrapHighlights_text n)) (nextUid s)).
    specialize (C (proj2 (Forall_forall _ _)
                     (fun n _ => unwrapHighlights_count n)) (nextUid s)).
    rewrite U in T, C. cbn [fst] in T, C. split; assumption.
  - cbn [snd editor with_currentSearchText with_searchIndex
         with_searchResults]. split; [reflexivity|lia].
Qed.

(** X8.  [clearSearch] removes every highlight element and resets the
    three search variables, and the text of the document is the same
    before and after, whether or not there was a highlight to
    remove. *)
Theorem clearSearch_keeps_text (s : state) :
  let s' := snd (clearSearch s) in
  textContent (editor s') = textContent (editor s)
  /\ list_sum (map countHighlights (editor s')) = 0
  /\ searchResults s' = [] /\ searchIndex s' = (-1)%Z
  /\ currentSearchText s' = []
  /\ (fst (clearSearch s) = true
      <-> 0 < list_sum (map countHighlights (editor s))).
Proof.
  cbn zeta. destruct (clearSearch_text s) as [T C].
  split; [exact T|]. split; [exact C|].
  unfold clearSearch.
  cbn [editor nextUid with_currentSearchText with_searchIndex
       with_searchResults].
  destruct (Nat.ltb_spec 0 (list_sum (map countHighlights (editor s))))
    as [L|L].
  - destruct (unwrapAll (editor s) (nextUid s)) as [ks c].
    cbn [snd fst]. repeat split; intros _; exact L.
  - cbn [snd fst]. repeat split; try reflexivity; try lia.
Qed.

(** *** Navigation *)

Lemma selectSearchResult_spec (i : Z) (s : state) :
  searchResults s <> [] ->
  let j := Z.max 0 (Z.min i (lengthZ (searchResults s) - 1)) in
  exists span,
    at_ (searchResults s) j = Some span
    /\ selectSearchResult i s
       = (true,
          with_docSelection
            (Some {| r_start := {| b_node := span; b_offset := 0 |};
                     r_end := {| b_node := span;
                                 b_offset := nodeLength span |} |})
            (with_searchIndex j s)).
Proof.
  intros Ne j. unfold selectSearchResult.
  assert (L : (length (searchResults s) =? 0) = false).
  { destruct (searchResults s); [congruence|reflexivity]. }
  rewrite L. cbn [searchResults with_searchIndex].
  destruct (@HistoryMore.at_in_range _ (searchResults s) j) as [span Hs].
  - apply Nat.eqb_neq in L. unfold j, lengthZ. lia.
  - exists span. split; [exact Hs|]. subst j. rewrite Hs. reflexivity.
Qed.

Lemma findNext_spec (s : state) :
  (0 <= searchIndex s < lengthZ (searchResults s))%Z ->
  let n := lengthZ (searchResults s) in
  let j := ((searchIndex s + 1) mod n)%Z in
  exists span,
    at_ (searchResults s) j = Some span
    /\ findNext s
       = (true,
          with_docSelection
            (Some {| r_start := {| b_node := span; b_offset := 0 |};
                     r_end := {| b_node := span;
                                 b_offset := nodeLength span |} |})
            (with_searchIndex j s)).
Proof.
  intros B n j. unfold findNext.
  assert (Ne : searchResults s <> []).
  { intros E. rewrite E in B. cbn in B. lia. }
  assert (L : (length (searchResults s) =? 0) = false).
  { destruct (searchResults s); [congruence|reflexivity]. }
  rewrite L. cbn [searchResults searchIndex with_searchIndex]. fold n.
  assert (J : j = if (n <=? searchIndex s + 1)%Z then 0%Z
                  else (searchIndex s + 1)%Z).
  { unfold j. destruct (Z.leb_spec n (searchIndex s + 1)).
    - replace (searchIndex s + 1)%Z with n by (unfold n in *; lia).
      apply Z.mod_same. unfold n in *. lia.
    - apply Z.mod_small. unfold n in *. lia. }
  set (s2 := if (n <=? searchIndex s + 1)%Z then _ else _).
  assert (S2 : s2 = with_searchIndex j s).
  { unfold s2. rewrite J.
    destruct (n <=? searchIndex s + 1)%Z; [reflexivity|].
    destruct s; reflexivity. }
  rewrite S2. cbn [searchIndex with_searchIndex].
  destruct (@selectSearchResult_spec j (with_searchIndex j s))
    as (span & A & R); [exact Ne|].
  cbn [searchResults with_searchIndex] in A, R. fold n in A, R.
  assert (Jb : (0 <= j < n)%Z) by (apply Z.mod_pos_bound; unfold n in *; lia).
  replace (Z.max 0 (Z.min j (n - 1))) with j in A, R by lia.
  exists span. split; [exact A|]. rewrite R. reflexivity.
Qed.

Lemma findPrevious_spec (s : state) :
  (0 <= searchIndex s < lengthZ (searchResults s))%Z ->
  let n := lengthZ (searchResults s) in
  let j := ((searchIndex s - 1) mod n)%Z in
  exists span,
    at_ (searchResults s) j = Some span
    /\ findPrevious s
       = (true,
          with_docSelection
            (Some {| r_start := {| b_node := span; b_offset := 0 |};
                     r_end := {| b_node := span;
                                 b_offset := nodeLength span |} |})
            (with_searchIndex j s)).
Proof.
  intros B n j. unfold findPrevious.
  assert (Ne : searchResults s <> []).
  { intros E. rewrite E in B. cbn in B. lia. }
  assert (L : (length (searchResults s) =? 0) = false).
  { destruct (searchResults s); [congruence|reflexivity]. }
  rewrite L. cbn [searchResults searchIndex with_searchIndex]. fold n.
  assert (J : j = if (searchIndex s - 1 <? 0)%Z then (n - 1)%Z
                  else (searchIndex s - 1)%Z).
  { unfold j. destruct (Z.ltb_spec (searchIndex s - 1) 0).
    - replace (searchIndex s - 1)%Z with (n - 1 + (-1) * n)%Z by lia.
      rewrite Z.mod_add by (unfold n in *; lia).
      apply Z.mod_small. unfold n in *. lia.
    - apply Z.mod_small. unfold n in *. lia. }
  set (s2 := if (searchIndex s - 1 <? 0)%Z then _ else _).
  assert (S2 : s2 = with_searchIndex j s).
  { unfold s2. rewrite J.
    destruct (searchIndex s - 1 <? 0)%Z; [reflexivity|].
    destruct s; reflexivity. }
  rewrite S2. cbn [searchIndex with_searchIndex].
  destruct (@selectSearchResult_spec j (with_searchIndex j s))
    as (span & A & R); [exact Ne|].
  cbn [searchResults with_searchIndex] in A, R. fold n in A, R.
  assert (Jb : (0 <= j < n)%Z) by (apply Z.mod_pos_bound; unfold n in *; lia).
  replace (Z.max 0 (Z.min j (n - 1))) with j in A, R by lia.
  exists span. split; [exact A|]. rewrite R. reflexivity.
Qed.



(** X10.  With a current match among [n] results, [m] calls of
    [findNext] move the index by [m] modulo [n]; after [n] calls the
    current match is the one it was. *)
Theorem findNext_cycle (s : state) (m : nat) :
  (0 <= searchIndex s < lengthZ (searchResults s))%Z ->
  let next := fun s => snd (findNext s) in
  let n := lengthZ (searchResults s) in
  searchIndex (Nat.iter m next s) = ((searchIndex s + Z.of_nat m) mod n)%Z
  /\ searchResults (Nat.iter m next s) = searchResults s
  /\ searchIndex (Nat.iter (length (searchResults s)) next s) = searchIndex s.
Proof.
  intros B next n.
  assert (Np : (0 < n)%Z) by (unfold n; lia).
  assert (G : forall k,
             searchIndex (Nat.iter k next s)
             = ((searchIndex s + Z.of_nat k) mod n)%Z
             /\ searchResults (Nat.iter k next s) = searchResults s).
  { induction k as [|k [IH1 IH2]].
    - cbn [Nat.iter]. rewrite Z.add_0_r, Z.mod_small by exact B.
      split; reflexivity.
    - rewrite Nat.iter_succ. set (s1 := Nat.iter k next s) in *.
      assert (B1 : (0 <= searchIndex s1 < lengthZ (searchResults s1))%Z).
      { rewrite IH1, IH2. apply Z.mod_pos_bound. exact Np. }
      destruct (findNext_spec s1 B1) as (sp & _ & R).
      change (next s1) with (snd (findNext s1)). rewrite R. cbn [snd].
      cbn [searchIndex searchResults with_docSelection with_searchIndex].
      rewrite IH2. fold n. split; [|reflexivity].
      rewrite IH1, Zplus_mod_idemp_l. f_equal. lia. }
  split; [exact (proj1 (G m))|]. split; [exact (proj2 (G m))|].
  rewrite (proj1 (G (length (searchResults s)))).
  change (Z.of_nat (length (searchResults s))) with n.
  replace (searchIndex s + n)%Z with (searchIndex s + 1 * n)%Z by lia.
  rewrite Z.mod_add by lia. apply Z.mod_small. exact B.
Qed.

Lemma findNext_cycle_witness :
  let s := stateOf (searchAndHighlight (js "a") (docOf "a b a")) in
  searchIndex (Nat.iter 2 (fun s => snd (findNext s)) s) = searchIndex s.
Proof.
  cbn zeta.
  destruct (@findNext_cycle
              (stateOf (searchAndHighlight (js "a") (docOf "a b a"))) 0)
    as (_ & _ & C).
  - vm_compute. split; congruence.
  - exact C.
Defined.

(** *** What a search counts *)

Lemma occurrencesAt_spec t : forall s i j,
  In j (occurrencesAt t s i)
  <-> i <= j /\ j < i + length s /\ startsWith t (skipn (j - i) s) = true.
Proof.
  induction s as [|c r IH]; intros i j.
  - cbn. split; [tauto|]. intros (A & B & _). lia.
  - cbn [occurrencesAt]. rewrite in_app_iff, IH. cbn [length]. split.
    + intros [H|(A & B & C)].
      * destruct (startsWith t (c :: r)) eqn:S; [|destruct H].
        destruct H as [H|[]]. subst j. rewrite Nat.sub_diag.
        split; [lia|]. split; [lia|exact S].
      * split; [lia|]. split; [lia|].
        replace (j - i) with (S (j - S i)) by lia. exact C.
    + intros (A & B & C). destruct (Nat.eq_dec i j) as [E|E].
      * left. subst j. rewrite Nat.sub_diag in C. cbn [skipn] in C.
        rewrite C. left. reflexivity.
      * right. split; [lia|]. split; [lia|].
        replace (j - i) with (S (j - S i)) in C by lia. exact C.
Qed.

(** X11.  The number a search for a non-empty term returns is the
    number of places, counted text node by text node, at which the
    term starts in the data of the node: occurrences that overlap are
    counted each, and one that runs from one text node into the next
    is not found. *)
Theorem search_counts_places_in_text_nodes
  (term : jsstring) (s : state) (n : nat) (s' : state) :
  term <> [] ->
  searchAndHighlight term s = Returned n s' ->
  n = length
        (flat_map (fun tn => occurrencesAt term (snd tn) 0)
           (walkText (editor (snd (clearSearch s)))))
  /\ forall d j,
       In j (occurrencesAt term d 0)
       <-> j < length d /\ startsWith term (skipn j d) = true.
Proof.
  intros Ne R. split.
  - unfold searchAndHighlight in R. destruct term as [|c t]; [congruence|].
    set (s2 := with_searchIndex _ _) in R.
    destruct (highlightLoop (c :: t) _ s2) as [v s3|e s3]; [|discriminate].
    injection R as R _. subst n.
    change (editor s2) with (editor (snd (clearSearch s))).
    induction (walkText (editor (snd (clearSearch s)))) as [|[u d] r IH];
      [reflexivity|].
    cbn [flat_map]. rewrite !length_app, IH.
    rewrite (SearchClaims.matchesInNode_all u d Ne), length_map. reflexivity.
  - intros d j. rewrite occurrencesAt_spec, Nat.sub_0_r. cbn. split.
    + intros (_ & A & B). split; assumption.
    + intros (A & B). split; [lia|]. split; assumption.
Qed.

Lemma search_counts_places_in_text_nodes_witness :
  exists s',
    searchAndHighlight (js "ab") (docOf "ab cab") = Returned 2 s'
    /\ 2 = length
             (flat_map (fun tn => occurrencesAt (js "ab") (snd tn) 0)
                (walkText (editor (snd (clearSearch (docOf "ab cab")))))).
Proof.
  eexists. split; [vm_compute; reflexivity|].
  refine (proj1 (@search_counts_places_in_text_nodes (js "ab")
                   (docOf "ab cab") 2 _ _ _)).
  - discriminate.
  - vm_compute. reflexivity.
Defined.

(** *** Replace-all *)

Lemma no_occurrence_scan whole term tmpl : forall s pos,
  ~ occursIn term s ->
  replaceScan whole term tmpl pos 0 s = s /\ matchScan term 0 s = 0.
Proof.
  induction s as [|c r IH]; intros pos N; [split; reflexivity|].
  cbn [replaceScan matchScan].
  destruct (startsWith term (c :: r)) eqn:W.
  - exfalso. apply N. apply startsWith_iff in W. destruct W as [x W].
    exists [], x. exact W.
  - destruct (IH (S pos)) as [A B].
    + intros O. apply N. apply (occursIn_app_r [c]) in O. exact O.
    + rewrite A, B. split; reflexivity.
Qed.

Lemma indexOfAt_occurs t : forall s i,
  occursIn t s -> indexOfAt t s i <> None.
Proof.
  induction s as [|c r IH]; intros i O; cbn [indexOfAt].
  - apply occursIn_nil in O. subst t. discriminate.
  - destruct (startsWith t (c :: r)) eqn:W; [discriminate|].
    apply occursIn_cons in O. destruct O as [O|O]; [congruence|].
    apply IH, O.
Qed.

Lemma createHistoryEntry_frame s :
  posted (createHistoryEntry s) = posted s
  /\ timers (createHistoryEntry s) = timers s
  /\ editor (createHistoryEntry s) = editor s
  /\ nextUid (createHistoryEntry s) = nextUid s.
Proof.
  unfold createHistoryEntry. destruct (isPerformingUndoRedo s);
    repeat split.
Qed.

Lemma clearSearch_frame s :
  posted (snd (clearSearch s)) = posted s
  /\ timers (snd (clearSearch s)) = timers s
  /\ histOf (snd (clearSearch s)) = histOf s
  /\ isPerformingUndoRedo (snd (clearSearch s)) = isPerformingUndoRedo s.
Proof.
  unfold clearSearch.
  cbn [editor nextUid with_currentSearchText with_searchIndex
       with_searchResults].
  destruct (0 <? list_sum (map countHighlights (editor s))).
  - destruct (unwrapAll (editor s) (nextUid s)). repeat split.
  - repeat split.
Qed.

Lemma setInnerHTML_frame m s :
  posted (setInnerHTML m s) = posted s
  /\ timers (setInnerHTML m s) = timers s
  /\ editor (setInnerHTML m s) = fst (parseHTML m (nextUid s)).
Proof.
  unfold setInnerHTML. destruct (parseHTML m (nextUid s)). repeat split.
Qed.

(** X12.  When the term occurs nowhere in the markup of the document,
    [replaceAll] returns 0 and writes the markup back as it was; all the
    same it tells the host that the content changed, defers a history
    entry, and (outside a replay) has recorded one for the content
    before. *)
Theorem replaceAll_without_occurrence
  (term repl : jsstring) (s : state) :
  term <> [] ->
  let s2 := snd (clearSearch (createHistoryEntry s)) in
  ~ occursIn term (getContent s2) ->
  exists s',
    replaceAll term repl s = Returned 0 s'
    /\ editor s' = fst (parseHTML (getContent s2) (nextUid s2))
    /\ posted s' = posted s ++ [ContentChanged]
    /\ timers s' = timers s ++ [(0, TaskCreateHistoryEntry)]
    /\ (isPerformingUndoRedo s = false ->
        exists e,
          at_ (editorHistory s') (historyIndex s') = Some e
          /\ content e = getContent s).
Proof.
  intros Ne s2 N. unfold replaceAll.
  destruct term as [|c t] eqn:Et; [congruence|]. rewrite <- Et in *.
  fold s2. rewrite compileLiteral_escape.
  unfold replaceGlobal, matchCount.
  destruct (@no_occurrence_scan (innerHTML (editor s2)) term repl
              (innerHTML (editor s2)) 0 N) as [A B].
  rewrite A, B. eexists. split; [reflexivity|].
  destruct (setInnerHTML_frame (innerHTML (editor s2)) s2) as (P3 & T3 & E3).
  destruct (clearSearch_frame (createHistoryEntry s)) as (P2 & T2 & H2 & _).
  destruct (createHistoryEntry_frame s) as (P1 & T1 & _).
  fold s2 in P2, T2, H2.
  split; [exact E3|]. split; [|split].
  - cbn [posted postMessage setTimeout]. rewrite P3, P2, P1. reflexivity.
  - cbn [timers postMessage setTimeout]. rewrite T3, T2, T1. reflexivity.
  - intros F. destruct (createHistoryEntry_fresh s F) as (_ & Hat & _).
    exists {| content := innerHTML (editor s); selection := saveSelection s;
              timestamp := now s |}.
    split; [|reflexivity].
    cbn [editorHistory historyIndex postMessage setTimeout].
    pose proof (setInnerHTML_hist (innerHTML (editor s2)) s2) as H3.
    unfold histOf in H3, H2. injection H3 as H3a H3b.
    injection H2 as H2a H2b. rewrite H3a, H3b, H2a, H2b. exact Hat.
Qed.

Lemma replaceAll_without_occurrence_witness :
  exists s',
    replaceAll (js "xyz") (js "q") (docOf "Hello") = Returned 0 s'
    /\ posted s' = posted (docOf "Hello") ++ [ContentChanged].
Proof.
  destruct (@replaceAll_without_occurrence (js "xyz") (js "q")
              (docOf "Hello")) as (s' & A & _ & B & _).
  - discriminate.
  - intros O. apply (indexOfAt_occurs 0) in O. vm_compute in O. congruence.
  - exists s'. split; [exact A|exact B].
Defined.

Lemma replace_count_scan term tmpl :
  term <> [] ->
  forall s k,
    length (replacePlain term tmpl k s) + matchScan term k s * length term
    + Nat.min k (length s)
    = length s + matchScan term k s * length tmpl.
Proof.
  intros Ne. induction s as [|c r IH]; intros k.
  - cbn. lia.
  - cbn [replacePlain matchScan length]. destruct k as [|k].
    + destruct (startsWith term (c :: r)) eqn:W.
      * specialize (IH (length term - 1)).
        apply startsWith_iff in W. destruct W as [x W].
        assert (L : length term <= S (length r)).
        { change (S (length r)) with (length (c :: r)). rewrite W, length_app.
          lia. }
        assert (P : 0 < length term).
        { destruct term; [congruence|cbn; lia]. }
        rewrite length_app. nia.
      * specialize (IH 0). cbn [length]. lia.
    + specialize (IH k). lia.
Qed.



End SearchMore.

(* ================================================================== *)
(** ** Search engine: the text of the document is left alone *)

Module SearchText.
Import Js Dom Editor SearchMore.

Lemma textIds_app a b : textIds (a ++ b) = textIds a ++ textIds b.
Proof. unfold textIds, walkText. rewrite flat_map_app, map_app. reflexivity. Qed.

Lemma textIds_cons k r : textIds (k :: r) = textIds [k] ++ textIds r.
Proof. apply (textIds_app [k] r). Qed.

Lemma textIds_elem u t a ks : textIds [Elem u t a ks] = textIds ks.
Proof. unfold textIds, walkText. cbn. rewrite app_nil_r. reflexivity. Qed.

Lemma textIds_text u d : textIds [Text u d] = [u].
Proof. reflexivity. Qed.

(** *** Identities while highlights are taken out *)

(** What unwrapping does to the identities of the text nodes: those
    that stay are old ones, the new ones are taken from [c] on. *)
Lemma unwrapAll_ids ks :
  Forall (fun n => forall c,
            (forall x, In x (textIds [n]) -> x < c) ->
            NoDup (textIds [n]) ->
            c <= snd (unwrapHighlights n c)
            /\ NoDup (textIds [fst (unwrapHighlights n c)])
            /\ forall x, In x (textIds [fst (unwrapHighlights n c)]) ->
                 (In x (textIds [n]) \/ c <= x)
                 /\ x < snd (unwrapHighlights n c)) ks ->
  forall c,
    (forall x, In x (textIds ks) -> x < c) ->
    NoDup (textIds ks) ->
    c <= snd (unwrapAll ks c)
    /\ NoDup (textIds (fst (unwrapAll ks c)))
    /\ forall x, In x (textIds (fst (unwrapAll ks c))) ->
         (In x (textIds ks) \/ c <= x) /\ x < snd (unwrapAll ks c).
Proof.
  induction 1 as [|k r Hk _ IHr]; intros c B D.
  - cbn. split; [lia|]. split; [constructor|]. intros x [].
  - rewrite textIds_cons in B, D.
    destruct (SelectionMore.NoDup_app_parts _ _ D) as (D1 & D2 & D12).
    cbn [unwrapAll].
    destruct (Hk c) as (K1 & K2 & K3).
    { intros x I. apply B, in_or_app. left. exact I. }
    { exact D1. }
    destruct (unwrapHighlights k c) as [k' c1]. cbn [fst snd] in K1, K2, K3.
    destruct (IHr c1) as (R1 & R2 & R3).
    { intros x I. assert (x < c) by (apply B, in_or_app; right; exact I). lia. }
    { exact D2. }
    destruct (unwrapAll r c1) as [r' c2]. cbn [fst snd] in *.
    split; [lia|]. rewrite textIds_cons. split.
    + apply NoDup_app; [exact K2|exact R2|].
      intros x I1 I2. destruct (K3 x I1) as [[O1|O1] L1];
        destruct (R3 x I2) as [[O2|O2] L2].
      * apply (D12 x O1 O2).
      * assert (x < c) by (apply B, in_or_app; left; exact O1). lia.
      * assert (x < c) by (apply B, in_or_app; right; exact O2). lia.
      * lia.
    + intros x I. rewrite (textIds_cons k r).
      apply in_app_or in I. destruct I as [I|I].
      * destruct (K3 x I) as [[O|O] L].
        -- split; [left; apply in_or_app; left; exact O|lia].
        -- split; [right; exact O|lia].
      * destruct (R3 x I) as [[O|O] L].
        -- split; [left; apply in_or_app; right; exact O|lia].
        -- split; [right; lia|lia].
Qed.

Lemma unwrapHighlights_ids n : forall c,
  (forall x, In x (textIds [n]) -> x < c) ->
  NoDup (textIds [n]) ->
  c <= snd (unwrapHighlights n c)
  /\ NoDup (textIds [fst (unwrapHighlights n c)])
  /\ forall x, In x (textIds [fst (unwrapHighlights n c)]) ->
       (In x (textIds [n]) \/ c <= x) /\ x < snd (unwrapHighlights n c).
Proof.
  induction n as [u d|u t a ks IH] using DomFacts.node_induction;
    intros c B D.
  - cbn [unwrapHighlights fst snd]. split; [lia|]. split; [exact D|].
    intros x I. split; [left; exact I|apply B, I].
  - destruct (hasClass highlightClass (Elem u t a ks)) eqn:H.
    + cbn [unwrapHighlights]. rewrite H. cbn [fst snd].
      rewrite textIds_text. split; [lia|]. split.
      * constructor; [intros []|constructor].
      * intros x [E|[]]. subst x. split; [right|]; lia.
    + rewrite (unwrapHighlights_elem u t a ks c H).
      rewrite textIds_elem in B, D.
      pose proof (unwrapAll_ids IH B D) as T.
      destruct (unwrapAll ks c) as [ks' c']. cbn [fst snd] in *.
      rewrite !textIds_elem. exact T.
Qed.

(** *** Identities under [normalize] *)

Lemma mergeText_ids ns :
  incl (textIds (mergeText ns)) (textIds ns)
  /\ (NoDup (textIds ns) -> NoDup (textIds (mergeText ns))).
Proof.
  induction ns as [|n r [IH1 IH2]].
  - split; [apply incl_refl|exact (fun D => D)].
  - destruct n as [u d|u t a ks].
    + cbn [mergeText]. rewrite (textIds_cons (Text u d) r), textIds_text.
      cbn [app]. destruct d as [|x d].
      * split; [apply incl_tl, IH1|].
        intros D. inversion D. apply IH2. assumption.
      * destruct (mergeText r) as [|[v d'|v t a ks] r'].
        -- split.
           ++ intros y [E|[]]. left. exact E.
           ++ intros _. constructor; [intros []|constructor].
        -- rewrite (textIds_cons (Text v d') r'), textIds_text in IH1, IH2.
           rewrite textIds_cons, textIds_text. cbn [app] in *.
           assert (S1 : incl (textIds r') (textIds r)).
           { intros y I. apply IH1. right. exact I. }
           split.
           ++ intros y [E|I]; [left; exact E|right; apply S1, I].
           ++ intros D. inversion D as [|? ? N D']. subst.
              constructor.
              ** intros I. apply N, S1, I.
              ** specialize (IH2 D'). inversion IH2. assumption.
        -- rewrite textIds_cons, textIds_text. cbn [app]. split.
           ++ intros y [E|I]; [left; exact E|right; apply IH1, I].
           ++ intros D. inversion D as [|? ? N D']. subst.
              constructor; [intros I; apply N, IH1, I|apply IH2, D'].
    + cbn [mergeText].
      rewrite textIds_cons, (textIds_cons (Elem u t a ks) r). split.
      * apply incl_app; [apply incl_appl, incl_refl|apply incl_appr, IH1].
      * intros D.
        destruct (SelectionMore.NoDup_app_parts _ _ D) as (D1 & D2 & D12).
        apply NoDup_app; [exact D1|apply IH2, D2|].
        intros y I1 I2. apply (D12 y I1), IH1, I2.
Qed.

Lemma map_normalize_ids ks :
  Forall (fun n =>
            incl (textIds [normalizeNode n]) (textIds [n])
            /\ (NoDup (textIds [n]) -> NoDup (textIds [normalizeNode n])))
    ks ->
  incl (textIds (map normalizeNode ks)) (textIds ks)
  /\ (NoDup (textIds ks) -> NoDup (textIds (map normalizeNode ks))).
Proof.
  induction 1 as [|k r [K1 K2] _ [R1 R2]].
  - split; [apply incl_refl|exact (fun D => D)].
  - cbn [map]. rewrite textIds_cons, (textIds_cons k r). split.
    + apply incl_app; [apply incl_appl, K1|apply incl_appr, R1].
    + intros D.
      destruct (SelectionMore.NoDup_app_parts _ _ D) as (D1 & D2 & D12).
      apply NoDup_app; [apply K2, D1|apply R2, D2|].
      intros y I1 I2. apply (D12 y (K1 y I1)), R1, I2.
Qed.

Lemma normalizeNode_ids n :
  incl (textIds [normalizeNode n]) (textIds [n])
  /\ (NoDup (textIds [n]) -> NoDup (textIds [normalizeNode n])).
Proof.
  induction n as [u d|u t a ks IH] using DomFacts.node_induction.
  - split; [apply incl_refl|exact (fun D => D)].
  - cbn [normalizeNode]. rewrite !textIds_elem.
    destruct (map_normalize_ids IH) as [M1 M2].
    destruct (mergeText_ids (map normalizeNode ks)) as [G1 G2].
    split.
    + intros y I. apply M1, G1, I.
    + intros D. apply G2, M2, D.
Qed.

Lemma normalize_ids root :
  incl (textIds (normalize root)) (textIds root)
  /\ (NoDup (textIds root) -> NoDup (textIds (normalize root))).
Proof.
  unfold normalize.
  destruct (@map_normalize_ids root) as [M1 M2].
  { apply Forall_forall. intros n _. apply normalizeNode_ids. }
  destruct (mergeText_ids (map normalizeNode root)) as [G1 G2].
  split.
  - intros y I. apply M1, G1, I.
  - intros D. apply G2, M2, D.
Qed.

Lemma textIdsFresh_iff s :
  textIdsFresh s
  <-> NoDup (textIds (editor s))
      /\ forall x, In x (textIds (editor s)) -> x < nextUid s.
Proof.
  unfold textIdsFresh, textIds. split; intros [D B]; (split; [exact D|]).
  - intros x I. apply in_map_iff in I. destruct I as (p & E & I).
    subst x. apply B, I.
  - intros p I. apply B. apply in_map. exact I.
Qed.

Lemma clearSearch_fresh s :
  textIdsFresh s -> textIdsFresh (snd (clearSearch s)).
Proof.
  rewrite !textIdsFresh_iff. intros [D B]. unfold clearSearch.
  cbn [editor nextUid with_currentSearchText with_searchIndex
       with_searchResults].
  destruct (0 <? list_sum (map countHighlights (editor s))).
  - destruct (@unwrapAll_ids (editor s)) with (c := nextUid s)
      as (U1 & U2 & U3).
    { apply Forall_forall. intros n _. apply unwrapHighlights_ids. }
    { exact B. }
    { exact D. }
    destruct (unwrapAll (editor s) (nextUid s)) as [ks c].
    cbn [fst snd editor nextUid with_nextUid with_editor] in *.
    destruct (normalize_ids ks) as [N1 N2]. split.
    + apply N2, U2.
    + intros x I. apply (U3 x), N1, I.
  - cbn [snd]. split; [exact D|exact B].
Qed.

(** *** Identities and text while matches are wrapped *)

Lemma flat_map_flat_map {A B C : Type} (f : B -> list C) (g : A -> list B) l :
  flat_map f (flat_map g l) = flat_map (fun x => flat_map f (g x)) l.
Proof.
  induction l as [|x r IH]; [reflexivity|].
  cbn. rewrite flat_map_app, IH. reflexivity.
Qed.

(** The text nodes after the text node [u] has been replaced. *)
Lemma substText_walk u f n :
  walkText (substText u f n)
  = flat_map (fun p => if Nat.eqb (fst p) u then walkText (f (snd p))
                       else [p]) (textNodes n).
Proof.
  induction n as [v d|v t a ks IH] using DomFacts.node_induction.
  - cbn [substText textNodes flat_map fst snd].
    destruct (Nat.eqb v u); rewrite app_nil_r; [reflexivity|].
    unfold walkText. cbn. reflexivity.
  - cbn [substText textNodes]. unfold walkText at 1. cbn [flat_map textNodes].
    rewrite app_nil_r, !flat_map_flat_map.
    apply DomFacts.flat_map_ext_Forall. exact IH.
Qed.

Lemma substText_walk_root u f root :
  walkText (flat_map (substText u f) root)
  = flat_map (fun p => if Nat.eqb (fst p) u then walkText (f (snd p))
                       else [p]) (walkText root).
Proof.
  unfold walkText at 1 3. rewrite !flat_map_flat_map.
  apply DomFacts.flat_map_ext_Forall, Forall_forall. intros n _.
  apply (substText_walk u f n).
Qed.

Lemma flat_map_foreign u (g : jsstring -> list (nat * jsstring)) l :
  ~ In u (map fst l) ->
  flat_map (fun p : nat * jsstring =>
              if Nat.eqb (fst p) u then g (snd p) else [p]) l = l.
Proof.
  induction l as [|p r IH]; intros N; [reflexivity|].
  cbn [flat_map]. destruct (Nat.eqb_spec (fst p) u) as [E|E].
  - exfalso. apply N. left. exact E.
  - rewrite IH; [reflexivity|]. intros I. apply N. right. exact I.
Qed.

Lemma findText_split u root data :
  NoDup (textIds root) ->
  findText u root = Some data ->
  exists pre post,
    walkText root = pre ++ (u, data) :: post
    /\ ~ In u (map fst pre) /\ ~ In u (map fst post).
Proof.
  unfold findText, textIds. generalize (walkText root). intros l D F.
  induction l as [|p r IH]; [discriminate|].
  cbn [find] in F. destruct (Nat.eqb_spec (fst p) u) as [E|E].
  - cbn in F. injection F as F. exists [], r. destruct p as [v d].
    cbn in E, F. subst v d. split; [reflexivity|]. split; [intros []|].
    inversion D. assumption.
  - cbn [map] in D. inversion D as [|? ? N D']. subst.
    destruct (IH D' F) as (pre & post & E1 & N1 & N2).
    exists (p :: pre), post. rewrite E1. split; [reflexivity|].
    split; [|exact N2]. intros [I|I]; [congruence|tauto].
Qed.

(** Replacing the text node [u], which holds [data], by nodes whose
    text nodes are [new]. *)
Lemma substText_replaces u root data new nodes :
  NoDup (textIds root) ->
  findText u root = Some data ->
  walkText nodes = new ->
  exists pre post,
    walkText root = pre ++ (u, data) :: post
    /\ walkText (flat_map (substText u (fun _ => nodes)) root)
       = pre ++ new ++ post
    /\ ~ In u (map fst pre) /\ ~ In u (map fst post).
Proof.
  intros D F W. destruct (findText_split u root D F)
    as (pre & post & E & N1 & N2).
  exists pre, post. split; [exact E|]. split; [|split; assumption].
  rewrite substText_walk_root, E, flat_map_app. cbn [flat_map fst snd].
  rewrite Nat.eqb_refl, W.
  rewrite (flat_map_foreign u (fun _ => new) pre N1).
  rewrite (flat_map_foreign u (fun _ => new) post N2). reflexivity.
Qed.

Lemma NoDup_insert {A : Type} (x : A) a b :
  NoDup (a ++ b) -> ~ In x (a ++ b) -> NoDup (a ++ x :: b).
Proof.
  induction a as [|y a IH]; cbn; intros D N.
  - constructor; assumption.
  - inversion D as [|? ? Ny D']. subst. constructor.
    + intros I. apply in_app_or in I. destruct I as [I|[E|I]].
      * apply Ny, in_or_app. left. exact I.
      * apply N. left. symmetry. exact E.
      * apply Ny, in_or_app. right. exact I.
    + apply IH; [exact D'|]. intros I. apply N. right. exact I.
Qed.

(** One round of the highlighting loop, whether it comes to its end or
    raises: the text stays, and so does the freshness of the
    identities. *)
Lemma highlightMatch_keeps term m s :
  textIdsFresh s ->
  textIdsFresh (stateOf (highlightMatch term m s))
  /\ textContent (editor (stateOf (highlightMatch term m s)))
     = textContent (editor s).
Proof.
  intros Fr. pose proof Fr as Fr0. apply textIdsFresh_iff in Fr.
  destruct Fr as [D B]. destruct m as [u index]. unfold highlightMatch.
  destruct (findText u (editor s)) as [data|] eqn:F; [|split; [exact Fr0|reflexivity]].
  destruct (length data <? index); [split; [exact Fr0|reflexivity]|].
  set (c := nextUid s).
  set (nodeData := firstn index data).
  set (beforeData := skipn index data).
  assert (Ed : data = nodeData ++ beforeData).
  { symmetry. apply firstn_skipn. }
  destruct (length beforeData <? length term).
  - cbn [stateOf].
    destruct (@substText_replaces u (editor s) data
                [(u, nodeData); (c, beforeData)]
                [Text u nodeData; Text c beforeData] D F eq_refl)
      as (pre & post & E & W & N1 & N2).
    cbn [editor nextUid with_nextUid with_editor].
    unfold textIds in D, B. rewrite E in D, B.
    rewrite map_app in D, B. cbn [map fst] in D, B.
    split.
    + apply textIdsFresh_iff. cbn [editor nextUid with_nextUid with_editor].
      unfold textIds. rewrite W, !map_app. cbn [map fst app]. split.
      * change (map fst pre ++ u :: c :: map fst post)
          with (map fst pre ++ [u] ++ c :: map fst post).
        rewrite app_assoc. apply NoDup_insert.
        -- rewrite <- app_assoc. exact D.
        -- rewrite <- app_assoc. intros I. apply B in I. unfold c in I. lia.
      * intros x I.
        assert (x = c \/ In x (map fst pre ++ u :: map fst post)).
        { apply in_app_or in I. destruct I as [I|[I|[I|I]]].
          - right. apply in_or_app. left. exact I.
          - right. apply in_or_app. right. left. exact I.
          - left. symmetry. exact I.
          - right. apply in_or_app. right. right. exact I. }
        destruct H as [H|H]; [subst x; lia|].
        apply B in H. unfold c. lia.
    + unfold textContent. rewrite W, E, !flat_map_app. cbn [flat_map snd].
      rewrite Ed, <- !app_assoc. reflexivity.
  - cbn [stateOf].
    set (matchData := skipn (length term) beforeData).
    set (inner := firstn (length term) beforeData).
    assert (Eb : beforeData = inner ++ matchData).
    { symmetry. apply firstn_skipn. }
    destruct (@substText_replaces u (editor s) data
                [(u, nodeData); (c, inner); (S c, matchData)]
                [Text u nodeData; highlightSpan (S (S c)) [Text c inner];
                 Text (S c) matchData] D F)
      as (pre & post & E & W & N1 & N2).
    { unfold walkText. cbn. reflexivity. }
    cbn [editor nextUid with_nextUid with_editor with_searchResults].
    unfold textIds in D, B. rewrite E in D, B.
    rewrite map_app in D, B. cbn [map fst] in D, B.
    split.
    + apply textIdsFresh_iff.
      cbn [editor nextUid with_nextUid with_editor with_searchResults].
      unfold textIds. rewrite W, !map_app. cbn [map fst app]. split.
      * change (map fst pre ++ u :: c :: S c :: map fst post)
          with (map fst pre ++ [u] ++ c :: S c :: map fst post).
        rewrite app_assoc. apply NoDup_insert.
        -- change (S c :: map fst post) with ([] ++ S c :: map fst post).
           rewrite <- app_assoc. cbn [app].
           change (map fst pre ++ u :: S c :: map fst post)
             with (map fst pre ++ [u] ++ S c :: map fst post).
           rewrite app_assoc. apply NoDup_insert.
           ++ rewrite <- app_assoc. exact D.
           ++ rewrite <- app_assoc. intros I. apply B in I. unfold c in I. lia.
        -- rewrite <- app_assoc. cbn [app]. intros I.
           apply in_app_or in I. destruct I as [I|[I|[I|I]]].
           ++ assert (c < nextUid s)
                by (apply B, in_or_app; left; exact I).
              unfold c in *. lia.
           ++ assert (u < nextUid s)
                by (apply B, in_or_app; right; left; reflexivity).
              unfold c in *. lia.
           ++ lia.
           ++ assert (c < nextUid s)
                by (apply B, in_or_app; right; right; exact I).
              unfold c in *. lia.
      * intros x I.
        assert (x = c \/ x = S c
                \/ In x (map fst pre ++ u :: map fst post)).
        { apply in_app_or in I. destruct I as [I|[I|[I|[I|I]]]].
          - right. right. apply in_or_app. left. exact I.
          - right. right. apply in_or_app. right. left. exact I.
          - left. symmetry. exact I.
          - right. left. symmetry. exact I.
          - right. right. apply in_or_app. right. right. exact I. }
        destruct H as [H|[H|H]]; [subst x; lia|subst x; lia|].
        apply B in H. unfold c. lia.
    + unfold textContent. rewrite W, E, !flat_map_app. cbn [flat_map snd].
      rewrite Ed, Eb, <- !app_assoc. reflexivity.
Qed.

Lemma highlightLoop_keeps term todo : forall s,
  textIdsFresh s ->
  textIdsFresh (stateOf (highlightLoop term todo s))
  /\ textContent (editor (stateOf (highlightLoop term todo s)))
     = textContent (editor s).
Proof.
  induction todo as [|m rest IH]; intros s Fr.
  - split; [exact Fr|reflexivity].
  - cbn [highlightLoop].
    destruct (highlightMatch_keeps term m Fr) as [F1 T1].
    destruct (highlightMatch term m s) as [v s1|e s1]; cbn [stateOf] in *.
    + destruct (IH s1 F1) as [F2 T2]. split; [exact F2|congruence].
    + split; [exact F1|exact T1].
Qed.

(** X14.  In a document whose text nodes have identities of their own,
    a search leaves the text of the document as it was, whatever the
    term, whether highlights of an earlier search were there, and
    whether the call returns or raises; and the identities stay
    fresh. *)
Theorem search_keeps_text (term : jsstring) (s : state) :
  textIdsFresh s ->
  let s' := stateOf (searchAndHighlight term s) in
  textContent (editor s') = textContent (editor s)
  /\ textIdsFresh s'.
Proof.
  intros Fr. cbn zeta.
  pose proof (clearSearch_fresh Fr) as F1.
  destruct (clearSearch_text s) as (T1 & _).
  unfold searchAndHighlight. set (s1 := snd (clearSearch s)) in *.
  destruct term as [|c t]; [split; [exact T1|exact F1]|].
  set (s2 := with_searchIndex _ _).
  assert (F2 : textIdsFresh s2) by exact F1.
  set (matches := flat_map _ _).
  destruct (highlightLoop_keeps (c :: t) (rev matches) F2) as [F3 T3].
  destruct (highlightLoop (c :: t) (rev matches) s2) as [v s3|e s3];
    cbn [stateOf] in *.
  - assert (E4 : forall s4 : state,
              s4 = (if 0 <? length (searchResults s3)
                    then snd (selectSearchResult 0 (with_searchIndex 0 s3))
                    else s3) ->
              editor s4 = editor s3 /\ nextUid s4 = nextUid s3).
    { intros s4 E. subst s4. destruct (0 <? length (searchResults s3));
        [|split; reflexivity].
      unfold selectSearchResult. cbn [searchResults with_searchIndex].
      destruct (length (searchResults s3) =? 0); [split; reflexivity|].
      destruct (at_ _ _); split; reflexivity. }
    destruct (E4 _ eq_refl) as [Ee En].
    split.
    + rewrite Ee, T3. exact T1.
    + unfold textIdsFresh in *. rewrite Ee, En. exact F3.
  - split; [rewrite T3; exact T1|exact F3].
Qed.

Lemma search_keeps_text_witness :
  textContent (editor (stateOf (searchAndHighlight (js "aa") (docOf "aaa"))))
  = js "aaa"
  /\ textContent
       (editor (stateOf (searchAndHighlight (js "l") (docOf "Hello"))))
     = js "Hello".
Proof.
  split.
  - refine (proj1 (@search_keeps_text (js "aa") (docOf "aaa") _)).
    split; [vm_compute; repeat constructor; cbn; intuition congruence|].
    vm_compute. intros p [E|[]]. subst p. cbn. lia.
  - refine (proj1 (@search_keeps_text (js "l") (docOf "Hello") _)).
    split; [vm_compute; repeat constructor; cbn; intuition congruence|].
    vm_compute. intros p [E|[]]. subst p. cbn. lia.
Defined.

End SearchText.

(* ================================================================== *)
(** ** Content installation: wrapping, plain text, the first load *)

Module ContentMore.
Import Js Dom Editor SearchMore.

(** *** [wrapUnwrappedText] *)

Lemma wrapKids_spec ks : forall c,
  (forall u d, In (Text u d) (fst (wrapKids ks c)) -> trim d = [])
  /\ textContent (fst (wrapKids ks c)) = textContent ks
  /\ length (fst (wrapKids ks c)) = length ks
  /\ (forall c', fst (wrapKids (fst (wrapKids ks c)) c') = fst (wrapKids ks c))
  /\ (forall n, In n ks -> isText n = false -> In n (fst (wrapKids ks c))).
Proof.
  induction ks as [|k r IH]; intros c.
  - cbn. repeat split; try tauto.
  - cbn [wrapKids]. destruct k as [u d|u t a ks].
    + destruct (trim d) as [|x d'] eqn:T.
      * destruct (IH c) as (A & B & C & D & E).
        destruct (wrapKids r c) as [r' c1] eqn:W. cbn [fst] in *.
        split; [|split; [|split; [|split]]].
        -- intros v e [I|I]; [|apply (A v e I)].
           injection I as _ I. subst e. exact T.
        -- rewrite textContent_cons, (textContent_cons _ r), B. reflexivity.
        -- cbn. rewrite C. reflexivity.
        -- intros c'. cbn [wrapKids]. rewrite T. specialize (D c').
           destruct (wrapKids r' c') as [r'' c2]. cbn [fst] in *.
           rewrite D. reflexivity.
        -- intros n [I|I] N; [subst n; discriminate|].
           right. apply (E n I N).
      * destruct (IH (S c)) as (A & B & C & D & E).
        destruct (wrapKids r (S c)) as [r' c1] eqn:W. cbn [fst] in *.
        split; [|split; [|split; [|split]]].
        -- intros v e [I|I]; [discriminate|apply (A v e I)].
        -- rewrite textContent_cons, (textContent_cons _ r), B.
           rewrite textContent_elem. reflexivity.
        -- cbn. rewrite C. reflexivity.
        -- intros c'. cbn [wrapKids]. specialize (D c').
           destruct (wrapKids r' c') as [r'' c2]. cbn [fst] in *.
           rewrite D. reflexivity.
        -- intros n [I|I] N; [subst n; discriminate|].
           right. apply (E n I N).
    + destruct (IH c) as (A & B & C & D & E).
      destruct (wrapKids r c) as [r' c1] eqn:W. cbn [fst] in *.
      split; [|split; [|split; [|split]]].
      * intros v e [I|I]; [discriminate|apply (A v e I)].
      * rewrite textContent_cons, (textContent_cons _ r), B. reflexivity.
      * cbn. rewrite C. reflexivity.
      * intros c'. cbn [wrapKids]. specialize (D c').
        destruct (wrapKids r' c') as [r'' c2]. cbn [fst] in *.
        rewrite D. reflexivity.
      * intros n [I|I] N; [left; exact I|right; apply (E n I N)].
Qed.

Lemma editor_wrapUnwrappedText s :
  editor (wrapUnwrappedText s) = fst (wrapKids (editor s) (nextUid s)).
Proof.
  unfold wrapUnwrappedText. destruct (wrapKids (editor s) (nextUid s)).
  reflexivity.
Qed.

(** X15.  Once [wrapUnwrappedText] has run, every text node that is a
    child of the editor holds white space only; the elements that were
    children of the editor still are, the editor has as many children
    as before, and the text of the document is unchanged.  Running it
    again changes nothing. *)
Theorem wrapUnwrappedText_wraps_text (s : state) :
  let s' := wrapUnwrappedText s in
  (forall u d, In (Text u d) (editor s') -> trim d = [])
  /\ (forall n, In n (editor s) -> isText n = false -> In n (editor s'))
  /\ length (editor s') = length (editor s)
  /\ textContent (editor s') = textContent (editor s)
  /\ editor (wrapUnwrappedText s') = editor s'.
Proof.
  cbn zeta. rewrite (editor_wrapUnwrappedText (wrapUnwrappedText s)).
  rewrite !editor_wrapUnwrappedText.
  destruct (wrapKids_spec (editor s) (nextUid s)) as (A & B & C & D & E).
  split; [exact A|]. split; [exact E|]. split; [exact C|].
  split; [exact B|]. apply D.
Qed.

(** *** Plain text through [setContent] and [getContent] *)

Lemma trimStart_incl s : incl (trimStart s) s.
Proof.
  induction s as [|c r IH]; [apply incl_refl|].
  cbn [trimStart]. destruct (isWhiteSpace c); [|apply incl_refl].
  apply incl_tl, IH.
Qed.

Lemma trim_incl s : incl (trim s) s.
Proof.
  unfold trim, trimEnd. intros c I.
  apply in_rev, trimStart_incl, in_rev in I.
  apply trimStart_incl, I.
Qed.

Lemma startsWith_other_head x p c r :
  c <> x -> startsWith (x :: p) (c :: r) = false.
Proof.
  intros N. cbn [startsWith].
  destruct (N.eqb_spec x c); [congruence|reflexivity].
Qed.

Lemma wrapMarkup_text (t : jsstring) :
  ~ In 60%N t -> wrapMarkup t = js "<div>" ++ t ++ js "</div>".
Proof.
  intros N. unfold wrapMarkup.
  destruct (trim t) as [|c r] eqn:T; [reflexivity|].
  assert (C : c <> 60%N).
  { intros E. apply N, trim_incl. rewrite T, E. left. reflexivity. }
  change (js "<div") with (60%N :: js "div").
  change (js "<p") with (60%N :: js "p").
  change (js "<h") with (60%N :: js "h").
  change (js "<ul") with (60%N :: js "ul").
  change (js "<ol") with (60%N :: js "ol").
  change (js "<table") with (60%N :: js "table").
  rewrite !(startsWith_other_head _ _ C). reflexivity.
Qed.

Lemma lex_text (t : jsstring) : forall acc,
  ~ In 60%N t ->
  lex (MText acc) (t ++ js "</div>")
  = flushText (acc ++ t) ++ [TClose (js "div")].
Proof.
  induction t as [|c r IH]; intros acc N.
  - rewrite app_nil_r. reflexivity.
  - cbn [app lex]. destruct (N.eqb_spec c 60) as [E|E].
    + exfalso. apply N. left. exact E.
    + rewrite IH by (intros I; apply N; right; exact I).
      rewrite <- app_assoc. reflexivity.
Qed.

(** Reading the four character references of the serializer. *)
Lemma decode_amp x : decodeScan 0 (js "&amp;" ++ x) = 38%N :: decodeScan 0 x.
Proof. reflexivity. Qed.

Lemma decode_nbsp x : decodeScan 0 (js "&nbsp;" ++ x) = 160%N :: decodeScan 0 x.
Proof. reflexivity. Qed.

Lemma decode_lt x : decodeScan 0 (js "&lt;" ++ x) = 60%N :: decodeScan 0 x.
Proof. reflexivity. Qed.

Lemma decode_gt x : decodeScan 0 (js "&gt;" ++ x) = 62%N :: decodeScan 0 x.
Proof. reflexivity. Qed.

Lemma decode_other c x :
  c <> 38%N -> decodeScan 0 (c :: x) = c :: decodeScan 0 x.
Proof.
  intros C. cbn [decodeScan].
  change (js "&amp;") with (38%N :: js "amp;").
  change (js "&lt;") with (38%N :: js "lt;").
  change (js "&gt;") with (38%N :: js "gt;").
  change (js "&nbsp;") with (38%N :: js "nbsp;").
  change (js "&quot;") with (38%N :: js "quot;").
  rewrite !(startsWith_other_head _ _ C). reflexivity.
Qed.

(** The parser reads back what the serializer wrote for a text. *)
Lemma decodeEntities_escapeText (t : jsstring) :
  decodeEntities (escapeText t) = t.
Proof.
  unfold decodeEntities. induction t as [|c r IH]; [reflexivity|].
  cbn [escapeText].
  destruct (N.eqb_spec c 38) as [E|E38];
    [subst c; rewrite decode_amp, IH; reflexivity|].
  destruct (N.eqb_spec c 160) as [E|E160];
    [subst c; rewrite decode_nbsp, IH; reflexivity|].
  destruct (N.eqb_spec c 60) as [E|E60];
    [subst c; rewrite decode_lt, IH; reflexivity|].
  destruct (N.eqb_spec c 62) as [E|E62];
    [subst c; rewrite decode_gt, IH; reflexivity|].
  cbn [app]. rewrite (decode_other _ E38), IH. reflexivity.
Qed.

Lemma escapeText_no_lt (t : jsstring) : ~ In 60%N (escapeText t).
Proof.
  induction t as [|c r IH]; [intros []|].
  cbn [escapeText]. intros I. apply in_app_or in I.
  destruct I as [I|I]; [|exact (IH I)].
  destruct (N.eqb_spec c 38); [vm_compute in I; intuition discriminate|].
  destruct (N.eqb_spec c 160); [vm_compute in I; intuition discriminate|].
  destruct (N.eqb_spec c 60); [vm_compute in I; intuition discriminate|].
  destruct (N.eqb_spec c 62); [vm_compute in I; intuition discriminate|].
  destruct I as [I|[]]. congruence.
Qed.

Lemma escapeText_nil (t : jsstring) : escapeText t = [] -> t = [].
Proof.
  destruct t as [|c r]; [reflexivity|]. cbn [escapeText].
  destruct (N.eqb c 38); [discriminate|].
  destruct (N.eqb c 160); [discriminate|].
  destruct (N.eqb c 60); [discriminate|].
  destruct (N.eqb c 62); discriminate.
Qed.

(** The document made of one block of text. *)
Lemma parse_wrapped_text (t : jsstring) c :
  t <> [] ->
  fst (parseHTML (js "<div>" ++ escapeText t ++ js "</div>") c)
  = [Elem c (js "div") [] [Text (S c) t]].
Proof.
  intros Ne. unfold parseHTML.
  change (lex (MText []) (js "<div>" ++ escapeText t ++ js "</div>"))
    with (TOpen (js "div") []
          :: lex (MText []) (escapeText t ++ js "</div>")).
  rewrite (@lex_text (escapeText t) [] (escapeText_no_lt t)). cbn [app].
  assert (F : flushText (escapeText t) = [TText t]).
  { destruct (escapeText t) as [|x e] eqn:E.
    - apply escapeText_nil in E. congruence.
    - cbn [flushText]. rewrite <- E, decodeEntities_escapeText.
      reflexivity. }
  rewrite F. reflexivity.
Qed.

(** The document and the markup after [setContent] of the markup of a
    text. *)
Lemma setContent_escaped_text_parts (t : jsstring) (s : state) :
  isBlank (escapeText t) = false ->
  editor (setContent (escapeText t) s)
  = [Elem (nextUid s) (js "div") [] [Text (S (nextUid s)) t]]
  /\ getContent (setContent (escapeText t) s)
     = js "<div>" ++ escapeText t ++ js "</div>".
Proof.
  intros Bl.
  assert (Ne : t <> []) by (intros E; subst t; discriminate).
  assert (Ed : editor (setContent (escapeText t) s)
               = [Elem (nextUid s) (js "div") [] [Text (S (nextUid s)) t]]).
  { rewrite ContentClaims.editor_setContent. unfold installedMarkup.
    rewrite Bl, (@wrapMarkup_text (escapeText t) (escapeText_no_lt t)).
    apply parse_wrapped_text; assumption. }
  split; [exact Ed|].
  unfold getContent. rewrite Ed. unfold innerHTML.
  cbn [flat_map serialize].
  change (isVoid (js "div")) with false. cbv iota.
  cbn [flat_map serialize serializeAttr].
  rewrite !app_nil_r. reflexivity.
Qed.

(** X16.  [setContent] of the markup the serializer writes for a text
    (with [&], [<], [>] and the no-break space as character
    references; the text holding no carriage return and no NUL, which
    the parser of the platform rewrites), when that markup is not
    blank, installs one [div] holding one text node with the text.
    [getContent] then returns the same markup between [<div>] and
    [</div>], which for text free of those four characters is the text
    itself, and the deferred [wrapUnwrappedText] finds nothing to
    wrap. *)
Theorem setContent_escaped_text (t : jsstring) (s : state) :
  isBlank (escapeText t) = false ->
  ~ In 13%N t -> ~ In 0%N t ->
  let s' := setContent (escapeText t) s in
  editor s' = [Elem (nextUid s) (js "div") [] [Text (S (nextUid s)) t]]
  /\ textContent (editor s') = t
  /\ getContent s' = js "<div>" ++ escapeText t ++ js "</div>"
  /\ (plainText t = true -> getContent s' = js "<div>" ++ t ++ js "</div>")
  /\ timers s' = timers s ++ [(0, TaskWrapUnwrappedText)]
  /\ editor (runTask TaskWrapUnwrappedText s') = editor s'.
Proof.
  intros Bl _ _. cbn zeta.
  destruct (setContent_escaped_text_parts t s Bl) as [Ed G].
  split; [exact Ed|]. split; [|split; [exact G|split; [|split]]].
  - rewrite Ed. unfold textContent, walkText. cbn. rewrite !app_nil_r.
    reflexivity.
  - intros P. rewrite G.
    rewrite (TextFacts.escapeText_plain t (SearchClaims.plainText_spec t P)).
    reflexivity.
  - unfold setContent. rewrite Bl. cbn [timers setTimeout].
    unfold setInnerHTML. destruct (parseHTML _ _). reflexivity.
  - cbn [runTask]. rewrite editor_wrapUnwrappedText, Ed. reflexivity.
Qed.

Lemma setContent_escaped_text_witness :
  escapeText (js "a < b") = js "a &lt; b"
  /\ getContent (setContent (js "a &lt; b") initial)
     = js "<div>a &lt; b</div>"
  /\ textContent (editor (setContent (js "a &lt; b") initial)) = js "a < b".
Proof.
  split; [reflexivity|].
  destruct (@setContent_escaped_text (js "a < b") initial)
    as (_ & A & B & _).
  - reflexivity.
  - vm_compute. intuition congruence.
  - vm_compute. intuition congruence.
  - split; [exact B|exact A].
Defined.

(** *** The first load *)

(** X17.  After the [DOMContentLoaded] listeners the markup of the
    editor is never blank: a blank editor has been given the empty
    block [<div><br></div>], any other is as it was; and the first
    history entry is deferred by 100 ms. *)
Theorem loaded_editor_not_blank (s : state) :
  let s' := domContentLoaded s in
  trim (getContent s') <> []
  /\ (trim (getContent s) = [] -> getContent s' = js "<div><br></div>")
  /\ (trim (getContent s) <> [] -> editor s' = editor s)
  /\ timers s' = timers s ++ [(100, TaskCreateHistoryEntry)].
Proof.
  cbn zeta. unfold domContentLoaded, getContent.
  assert (G : innerHTML (editor (setInnerHTML (js "<div><br></div>") s))
              = js "<div><br></div>").
  { rewrite ContentClaims.editor_setInnerHTML, DomFacts.innerHTML_parse_uid.
    reflexivity. }
  destruct (trim (innerHTML (editor s))) as [|c r] eqn:T.
  - cbn [editor setTimeout timers]. rewrite G.
    split; [discriminate|]. split; [reflexivity|].
    split; [congruence|].
    unfold setInnerHTML. destruct (parseHTML _ _). reflexivity.
  - cbn [editor setTimeout timers]. rewrite T.
    split; [discriminate|]. split; [discriminate|].
    split; reflexivity.
Qed.

End ContentMore.

(* ================================================================== *)
(** ** Table controller: rows and columns added, tables removed *)

Module TableMore.
Import Js Table.

Lemma length_insertAt {A : Type} (x : A) : forall i l,
  length (insertAt i x l) = S (length l).
Proof.
  induction i as [|i IH]; intros l; [reflexivity|].
  destruct l as [|y r]; [reflexivity|]. cbn. rewrite IH. reflexivity.
Qed.

Lemma removeNth_insertAt {A : Type} (x : A) : forall i l,
  i <= length l -> removeNth i (insertAt i x l) = l.
Proof.
  induction i as [|i IH]; intros l L; [reflexivity|].
  destruct l as [|y r]; [cbn in L; lia|].
  cbn in L |- *. rewrite IH by lia. reflexivity.
Qed.

Lemma nth_error_insertAt {A : Type} (x : A) : forall i l,
  i <= length l -> nth_error (insertAt i x l) i = Some x.
Proof.
  induction i as [|i IH]; intros l L; [reflexivity|].
  destruct l as [|y r]; [cbn in L; lia|].
  cbn in L |- *. apply IH. lia.
Qed.

Lemma In_insertAt {A : Type} (x y : A) : forall i l,
  In y (insertAt i x l) -> y = x \/ In y l.
Proof.
  induction i as [|i IH]; intros l I.
  - destruct I as [I|I]; [left; symmetry; exact I|right; exact I].
  - destruct l as [|z r].
    + destruct I as [I|[]]. left. symmetry. exact I.
    + destruct I as [I|I]; [right; left; exact I|].
      destruct (IH r I) as [E|J]; [left; exact E|right; right; exact J].
Qed.

Lemma insertionIndex_in (i n : nat) :
  i <= n -> insertionIndex (Z.of_nat i) n = Some i.
Proof.
  intros L. unfold insertionIndex.
  destruct (Z.eqb_spec (Z.of_nat i) (-1)); [lia|].
  destruct (Z.leb_spec 0 (Z.of_nat i)); [|lia].
  destruct (Z.leb_spec (Z.of_nat i) (Z.of_nat n)); [|lia].
  cbn. rewrite Nat2Z.id. reflexivity.
Qed.

Lemma insertionIndex_out (p : Z) (n : nat) :
  (p < -1 \/ Z.of_nat n < p)%Z -> insertionIndex p n = None.
Proof.
  intros O. unfold insertionIndex.
  destruct (Z.eqb_spec p (-1)); [lia|].
  destruct (Z.leb_spec 0 p); destruct (Z.leb_spec p (Z.of_nat n));
    try reflexivity; lia.
Qed.

Lemma insertionIndex_some (p : Z) (n i : nat) :
  insertionIndex p n = Some i ->
  i <= n /\ (p = (-1)%Z /\ i = n \/ p = Z.of_nat i).
Proof.
  unfold insertionIndex.
  destruct (Z.eqb_spec p (-1)) as [E|E].
  - intros Hi. injection Hi as <-.
    split; [lia|left; split; [exact E|reflexivity]].
  - destruct (Z.leb_spec 0 p); destruct (Z.leb_spec p (Z.of_nat n));
      try discriminate.
    cbn. intros Hi. injection Hi as <-. split; [lia|right; lia].
Qed.

Lemma with_rows_back r t : with_rows (rows t) (with_rows r t) = t.
Proof. destruct t. reflexivity. Qed.

Lemma with_rows_same t : with_rows (rows t) t = t.
Proof. destruct t. reflexivity. Qed.

(** The index at which a position asks for the new item, in a
    collection of [n] items. *)
Lemma addRowOf_at (position : option Z) (i : nat) (t : table) :
  1 <= rowCount t -> i <= rowCount t ->
  position = Some (Z.of_nat i)
  \/ (i = rowCount t /\ (position = None \/ position = Some (-1)%Z)) ->
  addRowOf position t
  = Some (with_rows
            (insertAt i
               (repeat (js " ")
                  (match i with
                   | O => 0
                   | S _ => length (hd [] (rows t))
                   end)) (rows t)) t).
Proof.
  unfold rowCount, addRowOf. intros L1 L2 P.
  destruct (rows t) as [|first rest] eqn:E; [cbn in L1; lia|].
  assert (G : insertionIndex
                match position with
                | Some p => p
                | None => Z.of_nat (length (first :: rest))
                end (length (first :: rest)) = Some i).
  { destruct P as [P|[Ei [P|P]]]; subst position.
    - apply insertionIndex_in, L2.
    - subst i. apply insertionIndex_in. lia.
    - subst i. reflexivity. }
  rewrite G. reflexivity.
Qed.

(** X18.  On a table with at least one row whose rows all have [n]
    cells, [addTableRow] with a position from 1 to the number of rows,
    or with none (which appends, as does [-1]), puts one row of [n]
    cells holding a space at that place: the other rows keep their
    order and the table stays rectangular. *)
Theorem addTableRow_keeps_rectangular
  (position : option Z) (i n : nat) (t : table) :
  rectangular n t -> 1 <= i <= rowCount t ->
  position = Some (Z.of_nat i)
  \/ (i = rowCount t /\ (position = None \/ position = Some (-1)%Z)) ->
  exists t',
    addRowOf position t = Some t'
    /\ rowCount t' = S (rowCount t)
    /\ nth_error (rows t') i = Some (repeat (js " ") n)
    /\ removeNth i (rows t') = rows t
    /\ rectangular n t'.
Proof.
  intros R [L1 L2] P.
  rewrite (@addRowOf_at position i t) by (try assumption; lia).
  destruct i as [|i']; [lia|].
  assert (F : length (hd [] (rows t)) = n).
  { unfold rowCount in L2. destruct (rows t) as [|first rest] eqn:E;
      [cbn in L2; lia|].
    cbn. apply R. rewrite E. left. reflexivity. }
  rewrite F. eexists. split; [reflexivity|].
  unfold rowCount in *. cbn [rows with_rows].
  split; [apply length_insertAt|].
  split; [apply nth_error_insertAt; exact L2|].
  split; [apply removeNth_insertAt; exact L2|].
  intros cells I. cbn [rows with_rows] in I.
  apply In_insertAt in I. destruct I as [I|I].
  - subst cells. apply repeat_length.
  - apply R, I.
Qed.

Lemma addTableRow_keeps_rectangular_witness :
  let t := {| t_uid := 1; className := js "no-wrap"; marginLeft := [];
              marginTop := [];
              rows := [[js "a"; js "b"]; [js "c"; js "d"]];
              handles := [] |} in
  option_map rows (addRowOf (Some 1%Z) t)
  = Some [[js "a"; js "b"]; [js " "; js " "]; [js "c"; js "d"]].
Proof.
  cbn zeta.
  destruct (@addTableRow_keeps_rectangular (Some 1%Z) 1 2
              {| t_uid := 1; className := js "no-wrap"; marginLeft := [];
                 marginTop := [];
                 rows := [[js "a"; js "b"]; [js "c"; js "d"]];
                 handles := [] |}) as (t' & A & _).
  - intros cells [E|[E|[]]]; subst cells; reflexivity.
  - cbn. lia.
  - left. reflexivity.
  - rewrite A. cbn [option_map]. vm_compute in A. injection A as A.
    subst t'. reflexivity.
Defined.

(** X19.  [addTableRow] with position 0 puts a row without any cell
    before the first row: the loop that fills the new row runs up to
    [rows[0].cells.length], and [rows[0]] is by then the new row. *)
Theorem addTableRow_first_has_no_cells (t : table) :
  1 <= rowCount t ->
  exists t',
    addRowOf (Some 0%Z) t = Some t'
    /\ rows t' = [] :: rows t
    /\ forall n, 1 <= n -> ~ rectangular n t'.
Proof.
  intros L.
  rewrite (@addRowOf_at (Some 0%Z) 0 t) by (try lia; left; reflexivity).
  eexists. split; [reflexivity|]. cbn [rows with_rows insertAt repeat].
  split; [reflexivity|].
  intros n N R. specialize (R [] (or_introl eq_refl)). cbn in R. lia.
Qed.

Lemma addTableRow_first_has_no_cells_witness :
  let t := {| t_uid := 1; className := js "no-wrap"; marginLeft := [];
              marginTop := []; rows := [[js "a"; js "b"]]; handles := [] |} in
  option_map rows (addRowOf (Some 0%Z) t) = Some [[]; [js "a"; js "b"]].
Proof.
  cbn zeta.
  destruct (@addTableRow_first_has_no_cells
              {| t_uid := 1; className := js "no-wrap"; marginLeft := [];
                 marginTop := []; rows := [[js "a"; js "b"]];
                 handles := [] |}) as (t' & A & B & _).
  - cbn. lia.
  - rewrite A. cbn [option_map]. rewrite B. reflexivity.
Defined.

(** X20.  [deleteTableRow] undoes [addTableRow]: when a row has been
    added at a position (none, or an index other than [-1]), deleting
    at the same position gives the table back as it was. *)
Theorem deleteRow_after_addRow (position : option Z) (t t' : table) :
  position <> Some (-1)%Z ->
  addRowOf position t = Some t' ->
  deleteRowOf position t' = t.
Proof.
  intros P A. unfold addRowOf in A.
  destruct (rows t) as [|first rest] eqn:E.
  { injection A as A. subst t'. unfold deleteRowOf. rewrite E. reflexivity. }
  set (len := length (first :: rest)) in *.
  destruct (insertionIndex _ len) as [i|] eqn:G; [|discriminate].
  injection A as A. apply insertionIndex_some in G. destruct G as [Li G].
  set (x := repeat _ _) in A. subst t'.
  unfold deleteRowOf. cbn [rows with_rows]. rewrite length_insertAt.
  fold len.
  assert (L1 : (1 <? S len) = true) by (apply Nat.ltb_lt; unfold len; cbn; lia).
  rewrite L1.
  assert (Ix : match position with
               | Some i0 => i0
               | None => (Z.of_nat (S len) - 1)%Z
               end = Z.of_nat i).
  { destruct position as [p|].
    - destruct G as [[G _]|G]; [congruence|exact G].
    - destruct G as [[G _]|G]; lia. }
  rewrite Ix. unfold inRange.
  destruct (Z.leb_spec 0 (Z.of_nat i)); [|lia].
  destruct (Z.ltb_spec (Z.of_nat i) (Z.of_nat (S len))); [|lia].
  cbn [andb]. rewrite Nat2Z.id, removeNth_insertAt by exact Li.
  rewrite <- E. apply with_rows_back.
Qed.

Lemma deleteRow_after_addRow_witness :
  let t := {| t_uid := 1; className := js "no-wrap"; marginLeft := [];
              marginTop := [];
              rows := [[js "a"; js "b"]; [js "c"; js "d"]];
              handles := [] |} in
  exists t', addRowOf None t = Some t' /\ deleteRowOf None t' = t.
Proof.
  cbn zeta. eexists. split; [reflexivity|].
  apply (@deleteRow_after_addRow None); [discriminate|reflexivity].
Defined.

(** *** Columns *)

Lemma insertCells_rectangular (position : option Z) (n i : nat) :
  i <= n ->
  position = Some (Z.of_nat i)
  \/ (i = n /\ (position = None \/ position = Some (-1)%Z)) ->
  forall rs,
    (forall cells, In cells rs -> length cells = n) ->
    insertCells position rs = (map (insertAt i (js " ")) rs, true).
Proof.
  intros L P. induction rs as [|cells rest IH]; intros R; [reflexivity|].
  cbn [insertCells map].
  assert (Lc : length cells = n) by (apply R; left; reflexivity).
  assert (G : insertionIndex
                match position with
                | Some p => p
                | None => Z.of_nat (length cells)
                end (length cells) = Some i).
  { rewrite Lc. destruct P as [P|[Ei [P|P]]]; subst position.
    - apply insertionIndex_in, L.
    - subst i. apply insertionIndex_in. lia.
    - subst i. reflexivity. }
  rewrite G, IH by (intros c I; apply R; right; exact I). reflexivity.
Qed.

(** X21.  On a table whose rows all have [n] cells, [addTableColumn]
    with a position from 0 to [n], or with none (which appends, as does
    [-1]), gives every row one more cell, holding a space, at that
    place, and comes to its end: the table stays rectangular, with
    [n + 1] columns and the rows it had. *)
Theorem addTableColumn_keeps_rectangular
  (position : option Z) (i n : nat) (t : table) :
  rectangular n t -> i <= n ->
  position = Some (Z.of_nat i)
  \/ (i = n /\ (position = None \/ position = Some (-1)%Z)) ->
  exists rs,
    insertCells position (rows t) = (rs, true)
    /\ length rs = rowCount t
    /\ rectangular (S n) (with_rows rs t)
    /\ map (removeNth i) rs = rows t
    /\ forall cells, In cells rs -> nth_error cells i = Some (js " ").
Proof.
  intros R L P. exists (map (insertAt i (js " ")) (rows t)).
  split; [apply (insertCells_rectangular L P), R|].
  split; [apply length_map|]. split; [|split].
  - intros cells I. cbn [rows with_rows] in I. apply in_map_iff in I.
    destruct I as (c0 & E & I). subst cells. rewrite length_insertAt.
    f_equal. apply R, I.
  - rewrite map_map. rewrite <- (map_id (rows t)) at 2.
    apply map_ext_in. intros c0 I. apply removeNth_insertAt.
    rewrite (R c0 I). exact L.
  - intros cells I. apply in_map_iff in I. destruct I as (c0 & E & I).
    subst cells. apply nth_error_insertAt. rewrite (R c0 I). exact L.
Qed.

Lemma addTableColumn_keeps_rectangular_witness :
  insertCells None [[js "a"; js "b"]; [js "c"; js "d"]]
  = ([[js "a"; js "b"; js " "]; [js "c"; js "d"; js " "]], true).
Proof.
  destruct (@addTableColumn_keeps_rectangular None 2 2
              {| t_uid := 1; className := js "no-wrap"; marginLeft := [];
                 marginTop := [];
                 rows := [[js "a"; js "b"]; [js "c"; js "d"]];
                 handles := [] |}) as (rs & A & _).
  - intros cells [E|[E|[]]]; subst cells; reflexivity.
  - lia.
  - right. split; [reflexivity|left; reflexivity].
  - cbn [rows] in A. rewrite A. f_equal. vm_compute in A.
    injection A as A. symmetry. exact A.
Defined.

(** X22.  [deleteTableColumn] undoes [addTableColumn] on a table whose
    rows all have the same number of cells, at least one: when a column
    has been added at a position (none, or an index from 0 to the
    number of columns), deleting at the same position gives the table
    back as it was. *)
Theorem deleteColumn_after_addColumn
  (position : option Z) (i n : nat) (t : table) :
  rectangular n t -> 1 <= n -> i <= n ->
  position = Some (Z.of_nat i) \/ (i = n /\ position = None) ->
  exists rs,
    insertCells position (rows t) = (rs, true)
    /\ deleteColumnOf position (with_rows rs t) = t.
Proof.
  intros R N L P. exists (map (insertAt i (js " ")) (rows t)). split.
  - apply (insertCells_rectangular L); [|exact R].
    destruct P as [P|[E P]]; [left; exact P|right; split; [exact E|left; exact P]].
  - set (ins := insertAt i (js " ")).
    destruct (rows t) as [|first rest] eqn:E.
    { unfold deleteColumnOf. cbn [map rows with_rows]. rewrite <- E.
      apply with_rows_same. }
    assert (Lf : length first = n) by (apply R; rewrite E; left; reflexivity).
    assert (M : map (fun cells =>
                       if inRange (Z.of_nat i) (length cells)
                       then removeNth i cells else cells)
                  (map ins (first :: rest)) = first :: rest).
    { rewrite map_map. rewrite <- (map_id (first :: rest)) at 2.
      apply map_ext_in. intros c0 I. unfold ins. rewrite length_insertAt.
      assert (Lc : length c0 = n) by (apply R; rewrite E; exact I).
      unfold inRange.
      destruct (Z.leb_spec 0 (Z.of_nat i)); [|lia].
      destruct (Z.ltb_spec (Z.of_nat i) (Z.of_nat (S (length c0)))); [|lia].
      cbn [andb]. apply removeNth_insertAt. lia. }
    assert (L1 : (1 <? S (length first)) = true) by (apply Nat.ltb_lt; lia).
    assert (Ix : match position with
                 | Some i0 => i0
                 | None => (Z.of_nat (S (length first)) - 1)%Z
                 end = Z.of_nat i).
    { destruct P as [P|[Ei P]]; subst position; [reflexivity|lia]. }
    unfold deleteColumnOf. cbn [rows with_rows].
    remember (map ins (first :: rest)) as rs eqn:Ers.
    destruct rs as [|r0 rs0]; [discriminate|].
    assert (Li : length r0 = S (length first)).
    { cbn [map] in Ers. injection Ers as E0 _. subst r0.
      apply length_insertAt. }
    rewrite !Li, L1, Ix, Nat2Z.id, M, <- E. apply with_rows_back.
Qed.

Lemma deleteColumn_after_addColumn_witness :
  let t := {| t_uid := 1; className := js "no-wrap"; marginLeft := [];
              marginTop := [];
              rows := [[js "a"; js "b"]; [js "c"; js "d"]];
              handles := [] |} in
  deleteColumnOf (Some 1%Z)
    (with_rows (fst (insertCells (Some 1%Z) (rows t))) t) = t.
Proof.
  cbn zeta.
  destruct (@deleteColumn_after_addColumn (Some 1%Z) 1 2
              {| t_uid := 1; className := js "no-wrap"; marginLeft := [];
                 marginTop := [];
                 rows := [[js "a"; js "b"]; [js "c"; js "d"]];
                 handles := [] |}) as (rs & A & B).
  - intros cells [E|[E|[]]]; subst cells; reflexivity.
  - lia.
  - lia.
  - left. reflexivity.
  - rewrite A. exact B.
Defined.

(** *** Positions out of range *)

Lemma lookup_updateTable u f s t :
  (forall t0, t_uid (f t0) = t_uid t0) ->
  lookupTable u s = Some t ->
  lookupTable u (updateTable u f s) = Some (f t).
Proof.
  intros U. unfold lookupTable. rewrite TableClaims.tables_updateTable.
  generalize (tables s) as l.
  induction l as [|t1 r IH]; intros Lk; [discriminate|].
  cbn [find map] in Lk |- *.
  destruct (Nat.eqb_spec (t_uid t1) u) as [E1|E1].
  - injection Lk as Lk. subst t1. rewrite U.
    destruct (Nat.eqb_spec (t_uid t) u); [reflexivity|congruence].
  - destruct (Nat.eqb_spec (t_uid t1) u); [congruence|]. apply IH, Lk.
Qed.

(** X23.  A position below [-1], or beyond the number of rows of a
    table that has rows, makes [addTableRow] raise IndexSizeError with
    nothing changed and no message sent; a position below [-1], or
    beyond the number of cells of the first row, makes
    [addTableColumn] raise it before any cell has been added. *)
Theorem add_out_of_range_raises (u : nat) (p : Z) (s : state) (t : table) :
  lookupTable u s = Some t -> 1 <= rowCount t ->
  ((p < -1 \/ Z.of_nat (rowCount t) < p)%Z ->
   addTableRow (Some u) (Some p) s = Raised Editor.IndexSizeError s)
  /\ ((p < -1 \/ Z.of_nat (length (hd [] (rows t))) < p)%Z ->
      exists s',
        addTableColumn (Some u) (Some p) s = Raised Editor.IndexSizeError s'
        /\ posted s' = posted s
        /\ lookupTable u s' = Some t).
Proof.
  intros Lk L. unfold rowCount in *. split; intros O.
  - unfold addTableRow. cbn [resolveTable]. rewrite Lk. unfold addRowOf.
    destruct (rows t) as [|first rest] eqn:E; [cbn in L; lia|].
    rewrite (insertionIndex_out _ O). reflexivity.
  - assert (G : insertCells (Some p) (rows t) = (rows t, false)).
    { destruct (rows t) as [|first rest] eqn:E; [cbn in L; lia|].
      cbn [insertCells]. cbn [hd] in O.
      rewrite (insertionIndex_out _ O). reflexivity. }
    unfold addTableColumn. cbn [resolveTable]. rewrite Lk, G.
    eexists. split; [reflexivity|]. split; [reflexivity|].
    rewrite (@lookup_updateTable u (with_rows (rows t)) s t);
      [rewrite with_rows_same; reflexivity| |exact Lk].
    intros t0. reflexivity.
Qed.

Lemma add_out_of_range_raises_witness :
  addTableRow (Some 1) (Some 5%Z) oneActiveTable
  = Raised Editor.IndexSizeError oneActiveTable.
Proof.
  refine (proj1 (@add_out_of_range_raises 1 5%Z oneActiveTable _ _ _) _).
  - vm_compute. reflexivity.
  - cbn. lia.
  - right. cbn. lia.
Defined.

(** *** Removing a table *)

(** X24.  [deleteTable] of a table of the document takes that table
    out and leaves the others, resets the reference to the active
    table, and tells the host of the deletion and of the change, in
    that order.  With no active table left, the commands of the table
    toolbar, which pass that reference, do nothing at all. *)
Theorem deleteTable_then_commands (u : nat) (s s' : state) :
  deleteTable (Some u) s = Done s' ->
  (forall t, In t (tables s') <-> In t (tables s) /\ t_uid t <> u)
  /\ length (tables s') < length (tables s)
  /\ activeTable s' = None
  /\ posted s' = posted s ++ [Editor.TableDeleted; Editor.ContentChanged]
  /\ (forall p, addTableRow None p s' = Done s')
  /\ (forall p, addTableColumn None p s' = Done s')
  /\ (forall i, deleteTableRow None i s' = s')
  /\ (forall i, deleteTableColumn None i s' = s')
  /\ deleteTable None s' = Done s'.
Proof.
  unfold deleteTable. cbn [resolveTable].
  destruct (lookupTable u s) as [t|] eqn:Lk; [|discriminate].
  intros E. injection E as E. subst s'.
  cbn [tables activeTable posted postMessage with_activeTable with_tables].
  split; [|split; [|split; [reflexivity|split]]].
  - intros t0. rewrite filter_In. split; intros [I N]; (split; [exact I|]).
    + apply negb_true_iff, Nat.eqb_neq in N. exact N.
    + apply negb_true_iff, Nat.eqb_neq. exact N.
  - unfold lookupTable in Lk. apply find_some in Lk. destruct Lk as [I Eu].
    clear -I Eu. induction (tables s) as [|t1 r IH]; [destruct I|].
    cbn [filter]. destruct I as [I|I].
    + subst t1. rewrite Eu. cbn [negb length].
      pose proof (filter_length_le
                    (fun t0 => negb (Nat.eqb (t_uid t0) u)) r). lia.
    + specialize (IH I). destruct (negb (Nat.eqb (t_uid t1) u)); cbn; lia.
  - rewrite <- app_assoc. reflexivity.
  - repeat split; intros; reflexivity.
Qed.

Lemma deleteTable_then_commands_witness :
  exists s',
    deleteTable None oneActiveTable = Done s'
    /\ tables s' = [] /\ activeTable s' = None
    /\ deleteTableRow None None s' = s'.
Proof.
  eexists. split; [reflexivity|].
  destruct (@deleteTable_then_commands 1 oneActiveTable _ eq_refl)
    as (_ & _ & A & _ & _ & _ & B & _).
  split; [reflexivity|]. split; [exact A|apply B].
Defined.

(** *** Handles *)

Lemma ownHandles_both t :
  handles t = [resizeHandle; dragHandle] -> ownHandles t.
Proof.
  intros E. unfold ownHandles. rewrite E. split.
  - constructor; [|constructor; [intros []|constructor]].
    intros [I|[]]. discriminate.
  - intros h [I|[I|[]]]; [left|right]; symmetry; exact I.
Qed.

Lemma carriesHandles_none t :
  handles t = [] -> carriesHandles t = false.
Proof. unfold carriesHandles, hasHandle. intros E. rewrite E. reflexivity. Qed.

Lemma deactivateAllTables_tables (s : state) :
  Forall ownHandles (tables s) ->
  tables (deactivateAllTables s) = map (with_handles []) (tables s).
Proof.
  intros O. unfold deactivateAllTables.
  cbn [activeTable tables with_tables].
  assert (T : map (fun t =>
                     with_handles
                       (removeFirst dragHandle
                          (removeFirst resizeHandle (handles t))) t)
                (tables s)
              = map (with_handles []) (tables s)).
  { apply map_ext_in. intros t I. rewrite Forall_forall in O.
    destruct (O t I) as [D W].
    rewrite (TableClaims.deactivate_own_handles D W). reflexivity. }
  rewrite T. destruct (activeTable s); reflexivity.
Qed.

(** X25.  [deactivateAllTables] leaves no handle on any table whose
    handles are the two the controller makes, touches nothing else of
    the tables, resets the reference to the active table, and tells
    the host only when there was an active table.  A second call
    changes nothing. *)
Theorem deactivateAllTables_removes_handles (s : state) :
  Forall ownHandles (tables s) ->
  let s' := deactivateAllTables s in
  tables s' = map (with_handles []) (tables s)
  /\ (forall t, In t (tables s') -> carriesHandles t = false)
  /\ activeTable s' = None
  /\ posted s'
     = posted s ++ match activeTable s with
                   | Some _ => [Editor.TablesDeactivated]
                   | None => []
                   end
  /\ deactivateAllTables s' = s'.
Proof.
  intros O. cbn zeta.
  assert (T : map (fun t =>
                     with_handles
                       (removeFirst dragHandle
                          (removeFirst resizeHandle (handles t))) t)
                (tables s)
              = map (with_handles []) (tables s)).
  { apply map_ext_in. intros t I. rewrite Forall_forall in O.
    destruct (O t I) as [D W].
    rewrite (TableClaims.deactivate_own_handles D W). reflexivity. }
  assert (T2 : map (fun t =>
                      with_handles
                        (removeFirst dragHandle
                           (removeFirst resizeHandle (handles t))) t)
                 (map (with_handles []) (tables s))
               = map (with_handles []) (tables s)).
  { rewrite map_map. apply map_ext. intros t. reflexivity. }
  unfold deactivateAllTables.
  cbn [activeTable tables with_tables]. rewrite T.
  destruct (activeTable s) as [a|] eqn:A.
  - cbn [tables activeTable posted postMessage with_activeTable with_tables].
    rewrite T2. split; [reflexivity|]. split; [|repeat split].
    intros t I. apply in_map_iff in I. destruct I as (t0 & E & _).
    subst t. apply carriesHandles_none. reflexivity.
  - cbn [tables activeTable posted with_tables]. rewrite A, T2, app_nil_r.
    split; [reflexivity|]. split; [|repeat split].
    intros t I. apply in_map_iff in I. destruct I as (t0 & E & _).
    subst t. apply carriesHandles_none. reflexivity.
Qed.

Lemma deactivateAllTables_removes_handles_witness :
  map carriesHandles (tables secondTableInserted) = [true; true]
  /\ map carriesHandles (tables (deactivateAllTables secondTableInserted))
     = [false; false]
  /\ activeTable (deactivateAllTables secondTableInserted) = None.
Proof.
  split; [reflexivity|].
  destruct (@deactivateAllTables_removes_handles secondTableInserted)
    as (A & _ & B & _).
  - repeat (constructor; [apply ownHandles_both; reflexivity|]). constructor.
  - split; [rewrite A; reflexivity|exact B].
Defined.

(** X26.  A click on a table of the document that is not the active
    one makes it the active table with both handles on it, leaves no
    handle on any other table, and tells the host of the click. *)
Theorem click_activates_only_clicked (u : nat) (s : state) :
  Forall ownHandles (tables s) ->
  activeTable s <> Some u ->
  let s' := clickEditor (Some u) s in
  activeTable s' = Some u
  /\ (forall t, In t (tables s') ->
       if Nat.eqb (t_uid t) u
       then hasHandle resizeHandle t = true /\ hasHandle dragHandle t = true
       else carriesHandles t = false)
  /\ map t_uid (tables s') = map t_uid (tables s)
  /\ map rows (tables s') = map rows (tables s)
  /\ exists pre, posted s' = pre ++ [Editor.TableClicked].
Proof.
  intros O A. cbn zeta.
  pose proof (deactivateAllTables_tables s O) as T.
  unfold clickEditor.
  assert (G : match activeTable s with
              | Some a => Nat.eqb a u
              | None => false
              end = false).
  { destruct (activeTable s) as [a|]; [|reflexivity].
    apply Nat.eqb_neq. intros E. apply A. subst a. reflexivity. }
  rewrite G.
  assert (Tb : tables (postMessage Editor.TableClicked
                         (activateTable u (deactivateAllTables s)))
               = map (fun t => if Nat.eqb (t_uid t) u
                               then activateElement (with_handles [] t)
                               else with_handles [] t) (tables s)).
  { cbn [tables postMessage]. unfold activateTable.
    rewrite TableClaims.tables_updateTable.
    cbn [tables with_activeTable]. rewrite T, map_map. reflexivity. }
  rewrite Tb. split; [reflexivity|]. split; [|split; [|split]].
  - intros t I. apply in_map_iff in I. destruct I as (t0 & E & _).
    destruct (Nat.eqb (t_uid t0) u) eqn:Eu; subst t.
    + change (t_uid (activateElement (with_handles [] t0))) with (t_uid t0).
      rewrite Eu. split; reflexivity.
    + cbn [t_uid with_handles]. rewrite Eu. reflexivity.
  - rewrite map_map. apply map_ext. intros t.
    destruct (Nat.eqb (t_uid t) u); reflexivity.
  - rewrite map_map. apply map_ext. intros t.
    destruct (Nat.eqb (t_uid t) u); reflexivity.
  - eexists. cbn [posted postMessage]. reflexivity.
Qed.

Lemma click_activates_only_clicked_witness :
  map carriesHandles (tables secondTableInserted) = [true; true]
  /\ map carriesHandles (tables (clickEditor (Some 1) secondTableInserted))
     = [true; false]
  /\ activeTable (clickEditor (Some 1) secondTableInserted) = Some 1.
Proof.
  split; [reflexivity|]. split; [reflexivity|].
  refine (proj1 (@click_activates_only_clicked 1 secondTableInserted _ _)).
  - repeat (constructor; [apply ownHandles_both; reflexivity|]). constructor.
  - vm_compute. discriminate.
Defined.

End TableMore.

(* ================================================================== *)
(** ** Word count *)

Module WordCount.
Import Js Dom Editor.

Lemma splitWhiteSpace_count (s : jsstring) :
  (forall cur, cur <> [] ->
     length (filter (fun w : jsstring =>
                       match w with [] => false | _ :: _ => true end)
               (splitWhiteSpace cur false s))
     = 1 + wordStarts false s)
  /\ (forall gap,
        length (filter (fun w : jsstring =>
                          match w with [] => false | _ :: _ => true end)
                  (splitWhiteSpace [] gap s))
        = wordStarts true s).
Proof.
  induction s as [|c r [IH1 IH2]].
  - split.
    + intros cur Ne. destruct cur; [congruence|reflexivity].
    + intros gap. reflexivity.
  - split.
    + intros cur Ne. cbn [splitWhiteSpace wordStarts].
      destruct (isWhiteSpace c).
      * cbn [filter]. destruct cur as [|x cur]; [congruence|].
        cbn [length]. rewrite IH2. reflexivity.
      * rewrite IH1; [reflexivity|]. destruct cur; discriminate.
    + intros gap. cbn [splitWhiteSpace wordStarts].
      destruct (isWhiteSpace c).
      * destruct gap; [apply IH2|]. cbn [filter]. apply IH2.
      * rewrite IH1; [reflexivity|discriminate].
Qed.

Lemma wordStarts_blank (w : jsstring) : forall gap,
  forallb isWhiteSpace w = true -> wordStarts gap w = 0.
Proof.
  induction w as [|c r IH]; intros gap B; [reflexivity|].
  cbn [forallb] in B. apply andb_true_iff in B. destruct B as [B1 B2].
  cbn [wordStarts]. rewrite B1. apply IH, B2.
Qed.

Lemma wordStarts_app_blank (a w : jsstring) : forall gap,
  forallb isWhiteSpace w = true ->
  wordStarts gap (a ++ w) = wordStarts gap a.
Proof.
  induction a as [|c r IH]; intros gap B.
  - cbn [app]. rewrite (wordStarts_blank w gap B). reflexivity.
  - cbn [app wordStarts]. destruct (isWhiteSpace c); rewrite IH by exact B;
      reflexivity.
Qed.

Lemma trimStart_split (s : jsstring) :
  exists w, s = w ++ trimStart s /\ forallb isWhiteSpace w = true.
Proof.
  induction s as [|c r (w & E & B)].
  - exists []. split; reflexivity.
  - cbn [trimStart]. destruct (isWhiteSpace c) eqn:W.
    + exists (c :: w). cbn [app forallb]. rewrite W, B, <- E.
      split; reflexivity.
    + exists []. split; reflexivity.
Qed.

Lemma wordStarts_trimStart (s : jsstring) :
  wordStarts true (trimStart s) = wordStarts true s.
Proof.
  induction s as [|c r IH]; [reflexivity|].
  cbn [trimStart wordStarts]. destruct (isWhiteSpace c) eqn:W; [exact IH|].
  cbn [wordStarts]. rewrite W. reflexivity.
Qed.

Lemma wordStarts_trimEnd (s : jsstring) gap :
  wordStarts gap (trimEnd s) = wordStarts gap s.
Proof.
  unfold trimEnd. destruct (trimStart_split (rev s)) as (w & E & B).
  assert (S : s = rev (trimStart (rev s)) ++ rev w).
  { rewrite <- rev_app_distr, <- E, rev_involutive. reflexivity. }
  rewrite S at 2. symmetry. apply wordStarts_app_blank.
  rewrite TextFacts.forallb_rev. exact B.
Qed.

Lemma wordStarts_trim (s : jsstring) :
  wordStarts true (trim s) = wordStarts true s.
Proof. unfold trim. rewrite wordStarts_trimEnd. apply wordStarts_trimStart. Qed.

Lemma wordStarts_app (a b : jsstring) sp : forall gap,
  isWhiteSpace sp = true ->
  wordStarts gap (a ++ sp :: b) = wordStarts gap a + wordStarts true b.
Proof.
  induction a as [|c r IH]; intros gap W.
  - cbn [app wordStarts]. rewrite W. reflexivity.
  - cbn [app wordStarts]. destruct (isWhiteSpace c); rewrite IH by exact W;
      lia.
Qed.

Lemma wordStarts_zero (s : jsstring) :
  wordStarts true s = 0 <-> forallb isWhiteSpace s = true.
Proof.
  induction s as [|c r IH]; [split; reflexivity|].
  cbn [wordStarts forallb]. destruct (isWhiteSpace c); cbn [andb].
  - exact IH.
  - split; [lia|discriminate].
Qed.

(** X27.  The word count of [getWordCount] is the number of places
    where a word starts in the text, a word being a maximal run of
    units that are no white space.  So it is zero exactly for a text of
    white space only, and the count of two texts joined by a white
    space unit is the sum of their counts. *)
Theorem wordCount_counts_words (text : jsstring) :
  wordCount text = wordStarts true text
  /\ getWordCount text
     = js "{" ++ [34%N] ++ js "words" ++ [34%N] ++ js ":"
       ++ decimal (wordStarts true text)
       ++ js "," ++ [34%N] ++ js "chars" ++ [34%N] ++ js ":"
       ++ decimal (length text) ++ js "}"
  /\ (wordCount text = 0 <-> forallb isWhiteSpace text = true)
  /\ forall a b sp,
       isWhiteSpace sp = true ->
       wordCount (a ++ sp :: b) = wordCount a + wordCount b.
Proof.
  assert (G : forall t, wordCount t = wordStarts true t).
  { intros t. unfold wordCount. rewrite <- (wordStarts_trim t).
    destruct (trim t) as [|c r] eqn:T; [reflexivity|].
    apply (proj2 (splitWhiteSpace_count (c :: r))). }
  split; [apply G|]. split; [unfold getWordCount; rewrite G; reflexivity|].
  split.
  - rewrite G. apply wordStarts_zero.
  - intros a b sp W. rewrite !G. apply wordStarts_app, W.
Qed.

End WordCount.

(* ================================================================== *)
(** ** The host application: recent files, text files *)

Module AppFacts.
Import Js App.

(** *** Recent files *)

Lemma contains_In x l : contains x l = true <-> In x l.
Proof.
  unfold contains. rewrite existsb_exists. split.
  - intros (y & I & E). apply JsFacts.eqb_eq in E. subst y. exact I.
  - intros I. exists x. split; [exact I|apply JsFacts.eqb_eq; reflexivity].
Qed.

Lemma remove_incl x l : incl (remove x l) l.
Proof.
  induction l as [|y r IH]; [apply incl_refl|].
  cbn [remove]. destruct (Js.eqb y x).
  - apply incl_tl, incl_refl.
  - intros z [E|I]; [left; exact E|right; apply IH, I].
Qed.

Lemma remove_NoDup x l :
  NoDup l -> NoDup (remove x l) /\ ~ In x (remove x l).
Proof.
  induction l as [|y r IH]; intros D.
  - split; [constructor|intros []].
  - inversion D as [|? ? N D']. subst. cbn [remove].
    destruct (Js.eqb y x) eqn:E.
    + apply JsFacts.eqb_eq in E. subst y. split; assumption.
    + destruct (IH D') as [A B]. split.
      * constructor; [|exact A]. intros I. apply N, (remove_incl x r), I.
      * intros [I|I]; [|apply B, I]. subst y.
        rewrite (proj2 (JsFacts.eqb_eq x x) eq_refl) in E. discriminate.
Qed.

Lemma NoDup_firstn {A : Type} (n : nat) (l : list A) :
  NoDup l -> NoDup (firstn n l).
Proof.
  intros D. rewrite <- (firstn_skipn n l) in D.
  apply NoDup_app_remove_r in D. exact D.
Qed.

(** X28.  [add_to_recent_files] keeps the list within
    [max_recent_files] entries and free of duplicates; the file just
    added comes first (the limit being at least one), every other entry
    was in the list before, and adding the same file again changes
    nothing. *)
Theorem add_to_recent_files_bounded (filepath : pystring) (a : writer) :
  NoDup (recent_files a) -> 1 <= max_recent_files a ->
  let a' := add_to_recent_files filepath a in
  length (recent_files a') <= max_recent_files a
  /\ NoDup (recent_files a')
  /\ hd_error (recent_files a') = Some filepath
  /\ (forall f, In f (recent_files a') ->
        f = filepath \/ In f (recent_files a))
  /\ max_recent_files a' = max_recent_files a
  /\ add_to_recent_files filepath a' = a'.
Proof.
  intros D M. cbn zeta. unfold add_to_recent_files at 1 2 3 4 5.
  cbn [recent_files max_recent_files].
  set (l1 := if contains filepath (recent_files a)
             then remove filepath (recent_files a) else recent_files a).
  assert (H1 : NoDup l1 /\ ~ In filepath l1 /\ incl l1 (recent_files a)).
  { unfold l1. destruct (contains filepath (recent_files a)) eqn:C.
    - destruct (remove_NoDup filepath D) as [A B].
      split; [exact A|]. split; [exact B|apply remove_incl].
    - split; [exact D|]. split; [|apply incl_refl].
      intros I. apply contains_In in I. congruence. }
  destruct H1 as (D1 & N1 & I1).
  assert (D2 : NoDup (filepath :: l1)) by (constructor; assumption).
  set (l3 := if max_recent_files a <? length (filepath :: l1)
             then firstn (max_recent_files a) (filepath :: l1)
             else filepath :: l1).
  assert (H3 : exists rest, l3 = filepath :: rest /\ incl rest l1).
  { unfold l3. destruct (max_recent_files a <? length (filepath :: l1)).
    - destruct (max_recent_files a) as [|m]; [lia|].
      cbn [firstn]. eexists. split; [reflexivity|].
      intros z I. rewrite <- (firstn_skipn m l1). apply in_or_app. left.
      exact I.
    - eexists. split; [reflexivity|apply incl_refl]. }
  destruct H3 as (rest & E3 & I3).
  assert (L3 : length l3 <= max_recent_files a).
  { unfold l3.
    destruct (Nat.ltb_spec (max_recent_files a) (length (filepath :: l1))).
    - rewrite length_firstn. lia.
    - lia. }
  assert (D3 : NoDup l3).
  { unfold l3. destruct (max_recent_files a <? length (filepath :: l1));
      [apply NoDup_firstn|]; exact D2. }
  split; [exact L3|]. split; [exact D3|].
  split; [rewrite E3; reflexivity|]. split; [|split; [reflexivity|]].
  - intros f I. rewrite E3 in I. destruct I as [I|I];
      [left; symmetry; exact I|right; apply I1, I3, I].
  - unfold add_to_recent_files. cbn [recent_files max_recent_files].
    fold l1. fold l3. rewrite E3 in *.
    assert (C : contains filepath (filepath :: rest) = true)
      by (apply contains_In; left; reflexivity).
    rewrite C. cbn [remove].
    rewrite (proj2 (JsFacts.eqb_eq filepath filepath) eq_refl).
    destruct (Nat.ltb_spec (max_recent_files a) (length (filepath :: rest)));
      [lia|reflexivity].
Qed.

Lemma add_to_recent_files_bounded_witness :
  let a := add_to_recent_files (py "b.html")
             (add_to_recent_files (py "a.txt") initial) in
  recent_files (add_to_recent_files (py "a.txt") a)
  = [py "a.txt"; py "b.html"]
  /\ NoDup (recent_files (add_to_recent_files (py "a.txt") a)).
Proof.
  cbn zeta. split; [reflexivity|].
  refine (proj1 (proj2 (@add_to_recent_files_bounded (py "a.txt")
                          (add_to_recent_files (py "b.html")
                             (add_to_recent_files (py "a.txt") initial))
                          _ _))).
  - vm_compute. repeat (constructor; [cbn; intuition congruence|]).
    constructor.
  - cbn. lia.
Defined.

(** *** Text files in and out *)

(** What the three replacements of [load_file] make of a code
    point. *)
Lemma replace_char x new (s : pystring) :
  replace [x] new s
  = flat_map (fun c => if N.eqb x c then new else [c]) s.
Proof.
  unfold replace. induction s as [|c r IH]; [reflexivity|].
  cbn [replacePlain startsWith flat_map length Nat.sub].
  destruct (N.eqb x c); cbn [andb].
  - destruct r; cbn [andb]; rewrite IH; reflexivity.
  - rewrite IH. reflexivity.
Qed.

Lemma flat_map_same {A : Type} (f : A -> list A) l :
  (forall x, In x l -> f x = [x]) -> flat_map f l = l.
Proof.
  induction l as [|x r IH]; intros H; [reflexivity|].
  cbn [flat_map]. rewrite (H x (or_introl eq_refl)), IH; [reflexivity|].
  intros y I. apply H. right. exact I.
Qed.

Lemma textToHtml_escapes (t : pystring) :
  ~ In 10%N t ->
  textToHtml t
  = flat_map (fun c => if N.eqb c 38 then py "&amp;"
                       else if N.eqb c 60 then py "&lt;"
                       else if N.eqb c 62 then py "&gt;"
                       else [c]) t.
Proof.
  intros N. unfold textToHtml.
  change (py ">") with [62%N]. change (py "<") with [60%N].
  change (py "&") with [38%N].
  rewrite !replace_char, !SearchText.flat_map_flat_map.
  assert (G : forall l : pystring, ~ In 10%N l ->
              flat_map (fun c => if N.eqb 10 c then py "<br>" else [c]) l = l).
  { intros l Nl. apply flat_map_same. intros c I.
    destruct (N.eqb_spec 10 c) as [E|E]; [|reflexivity].
    exfalso. apply Nl. rewrite E. exact I. }
  induction t as [|c r IH]; [reflexivity|].
  cbn [flat_map]. rewrite IH by (intros I; apply N; right; exact I).
  f_equal.
  assert (C10 : c <> 10%N) by (intros E; apply N; left; exact E).
  destruct (N.eqb_spec c 38) as [E|E38]; [subst c; reflexivity|].
  destruct (N.eqb_spec 38 c) as [E|_]; [congruence|].
  cbn [flat_map app].
  destruct (N.eqb_spec c 60) as [E|E60]; [subst c; reflexivity|].
  destruct (N.eqb_spec 60 c) as [E|_]; [congruence|].
  cbn [flat_map app].
  destruct (N.eqb_spec c 62) as [E|E62]; [subst c; reflexivity|].
  destruct (N.eqb_spec 62 c) as [E|_]; [congruence|].
  cbn [flat_map app].
  destruct (N.eqb_spec 10 c) as [E|_]; [congruence|]. reflexivity.
Qed.

Lemma stripTags_plain (s : pystring) :
  ~ In 60%N s -> stripTags 0 s = s.
Proof.
  induction s as [|c r IH]; intros N; [reflexivity|].
  cbn [stripTags]. destruct (N.eqb_spec c 60) as [E|E].
  - exfalso. apply N. left. exact E.
  - rewrite IH; [reflexivity|]. intros I. apply N. right. exact I.
Qed.

Lemma replace_other_head x p new c (r : pystring) :
  c <> x ->
  replacePlain (x :: p) new 0 (c :: r)
  = c :: replacePlain (x :: p) new 0 r.
Proof.
  intros N. cbn [replacePlain startsWith].
  destruct (N.eqb_spec x c); [congruence|reflexivity].
Qed.

Lemma replace_absent term new (s : pystring) :
  ~ occursIn term s -> replace term new s = s.
Proof.
  unfold replace. induction s as [|c r IH]; intros N; [reflexivity|].
  cbn [replacePlain]. destruct (startsWith term (c :: r)) eqn:W.
  - exfalso. apply N. apply JsFacts.startsWith_iff in W.
    destruct W as [x W]. exists [], x. exact W.
  - rewrite IH; [reflexivity|]. intros O. apply N.
    apply (JsFacts.occursIn_app_r [c]) in O. exact O.
Qed.

(** The three replacements of the [.txt] branch undo the escapes one
    after the other. *)
Lemma unescape_lt (t : pystring) :
  replace (py "&lt;") (py "<")
    (flat_map (fun c => if N.eqb c 38 then py "&amp;"
                        else if N.eqb c 60 then py "&lt;"
                        else if N.eqb c 62 then py "&gt;"
                        else [c]) t)
  = flat_map (fun c => if N.eqb c 38 then py "&amp;"
                       else if N.eqb c 62 then py "&gt;"
                       else [c]) t.
Proof.
  unfold replace. induction t as [|c r IH]; [reflexivity|].
  cbn [flat_map].
  destruct (N.eqb_spec c 38) as [E|E38].
  { rewrite <- IH. reflexivity. }
  destruct (N.eqb_spec c 60) as [E|E60].
  { subst c. rewrite <- IH. reflexivity. }
  destruct (N.eqb_spec c 62) as [E|E62].
  { rewrite <- IH. reflexivity. }
  cbn [app]. change (py "&lt;") with (38%N :: py "lt;").
  rewrite (replace_other_head _ _ _ E38). f_equal. exact IH.
Qed.

Lemma unescape_gt (t : pystring) :
  replace (py "&gt;") (py ">")
    (flat_map (fun c => if N.eqb c 38 then py "&amp;"
                        else if N.eqb c 62 then py "&gt;"
                        else [c]) t)
  = flat_map (fun c => if N.eqb c 38 then py "&amp;" else [c]) t.
Proof.
  unfold replace. induction t as [|c r IH]; [reflexivity|].
  cbn [flat_map].
  destruct (N.eqb_spec c 38) as [E|E38].
  { rewrite <- IH. reflexivity. }
  destruct (N.eqb_spec c 62) as [E|E62].
  { subst c. rewrite <- IH. reflexivity. }
  cbn [app]. change (py "&gt;") with (38%N :: py "gt;").
  rewrite (replace_other_head _ _ _ E38). f_equal. exact IH.
Qed.

Lemma unescape_amp (t : pystring) :
  replace (py "&amp;") (py "&")
    (flat_map (fun c => if N.eqb c 38 then py "&amp;" else [c]) t)
  = t.
Proof.
  unfold replace. induction t as [|c r IH]; [reflexivity|].
  cbn [flat_map].
  destruct (N.eqb_spec c 38) as [E|E38].
  { subst c. rewrite <- IH at 2. reflexivity. }
  cbn [app]. change (py "&amp;") with (38%N :: py "amp;").
  rewrite (replace_other_head _ _ _ E38). f_equal. exact IH.
Qed.



(** *** Saving what the editor returns *)

Lemma escapeText_references (t : jsstring) :
  ~ In 160%N t ->
  Dom.escapeText t
  = flat_map (fun c => if N.eqb c 38 then py "&amp;"
                       else if N.eqb c 60 then py "&lt;"
                       else if N.eqb c 62 then py "&gt;"
                       else [c]) t.
Proof.
  induction t as [|c r IH]; intros N; [reflexivity|].
  cbn [Dom.escapeText flat_map].
  rewrite IH by (intros I; apply N; right; exact I). f_equal.
  destruct (N.eqb_spec c 160) as [E|_]; [|reflexivity].
  exfalso. apply N. left. exact E.
Qed.

Lemma stripTags_open x : stripTags 0 (py "<div>" ++ x) = stripTags 0 x.
Proof. reflexivity. Qed.

Lemma stripTags_close (m : pystring) :
  ~ In 60%N m -> stripTags 0 (m ++ py "</div>") = m.
Proof.
  induction m as [|c r IH]; intros N; [reflexivity|].
  cbn [app stripTags]. destruct (N.eqb_spec c 60) as [E|E].
  - exfalso. apply N. left. exact E.
  - rewrite IH; [reflexivity|]. intros I. apply N. right. exact I.
Qed.

(** X30.  When the document is one block showing a text that holds no
    no-break space and not the sequence [&nbsp;] (nor a carriage
    return, a NUL or a surrogate, which do not pass unchanged between
    the parser, the script and the host), saving as [.txt] writes
    exactly that text: [getContent] returns it between [<div>] and
    [</div>] with [&], [<] and [>] as character references, the
    substitution of the tag pattern takes the two tags out and the
    replacements read the references back. *)
Theorem save_as_text_writes_the_text (t : jsstring) (s : Editor.state) :
  Editor.isBlank (Dom.escapeText t) = false ->
  ~ In 13%N t -> ~ In 0%N t ->
  (forall c, In c t -> (c < 55296)%N \/ (57343 < c)%N) ->
  ~ In 160%N t -> ~ occursIn (py "&nbsp;") t ->
  htmlToText (Editor.getContent (Editor.setContent (Dom.escapeText t) s)) = t.
Proof.
  intros Bl N13 N0 _ N160 Nb.
  destruct (@ContentMore.setContent_escaped_text_parts t s Bl) as [_ G].
  rewrite G. unfold htmlToText.
  change (js "<div>") with (py "<div>"). change (js "</div>") with (py "</div>").
  rewrite stripTags_open, stripTags_close
    by apply ContentMore.escapeText_no_lt.
  rewrite (escapeText_references t N160).
  rewrite unescape_lt, unescape_gt, unescape_amp.
  apply replace_absent, Nb.
Qed.

Lemma save_as_text_writes_the_text_witness :
  htmlToText
    (Editor.getContent (Editor.setContent (js "a &lt; b") Editor.initial))
  = js "a < b".
Proof.
  apply (@save_as_text_writes_the_text (js "a < b") Editor.initial).
  - reflexivity.
  - vm_compute. intuition congruence.
  - vm_compute. intuition congruence.
  - intros c I. left. vm_compute in I.
    destruct I as [I|[I|[I|[I|[I|[]]]]]]; subst c; reflexivity.
  - vm_compute. intuition congruence.
  - intros O. apply (SearchMore.indexOfAt_occurs 0) in O.
    vm_compute in O. congruence.
Defined.

End AppFacts.
